(** * web-crawler: frontier, fetcher, duplicate detector and worker pipeline

    A shallow embedding of the crawl engine of alexnthnz/web-crawler
    (src/crawler/url_frontier.py, src/crawler/fetcher.py,
    src/storage/duplicate_detector.py, src/crawler/scheduler.py) together
    with the properties its specification states about it.

    Conventions of the embedding.
    - Python [int] is [Z]; wall-clock values returned by [time.time()] are
      passed in as arguments and counted in clock ticks ([Z]).
    - Python [str] is [string]; the model of the string and [urllib.parse]
      functions follows CPython 3.11 and is exact on ASCII text.
    - An [await] on the Redis client either succeeds or raises; the
      outcomes of the calls to come are a script in the state of the client
      ([true] = the call returns normally).
    - A coroutine body between two awaits runs atomically on the event loop,
      so each frontier operation is a function from state to state. *)

From Stdlib Require Import ZArith String Ascii List Bool Lia.
From stdpp Require Import base option list gmap strings.

Local Open Scope Z_scope.

(** ** Python string primitives *)

Module Py.

Definition isupper (c : ascii) : bool :=
  let n := nat_of_ascii c in ((65 <=? n) && (n <=? 90))%nat.

Definition islower (c : ascii) : bool :=
  let n := nat_of_ascii c in ((97 <=? n) && (n <=? 122))%nat.

Definition isdigit (c : ascii) : bool :=
  let n := nat_of_ascii c in ((48 <=? n) && (n <=? 57))%nat.

Definition isalpha (c : ascii) : bool := isupper c || islower c.

(** [str.lower()] on one code unit. *)
Definition lower_char (c : ascii) : ascii :=
  if isupper c then ascii_of_nat (nat_of_ascii c + 32) else c.

(** [s.lower()] *)
Fixpoint lower (s : string) : string :=
  match s with
  | EmptyString => EmptyString
  | String c s' => String (lower_char c) (lower s')
  end.

(** [c in s] for a one-character [c]. *)
Fixpoint contains (c : ascii) (s : string) : bool :=
  match s with
  | EmptyString => false
  | String a s' => if decide (a = c) then true else contains c s'
  end.

(** [s.split(c, 1)] when [c in s]: the text before and after the first
    occurrence of [c]; [None] when [c] does not occur ([s.find(c) < 0]). *)
Fixpoint split1 (c : ascii) (s : string) : option (string * string) :=
  match s with
  | EmptyString => None
  | String a s' =>
      if decide (a = c) then Some (EmptyString, s')
      else match split1 c s' with
           | Some (l, r) => Some (String a l, r)
           | None => None
           end
  end.

(** [s.split(c)]: always at least one piece. *)
Fixpoint split (c : ascii) (s : string) : list string :=
  match s with
  | EmptyString => [EmptyString]
  | String a s' =>
      if decide (a = c) then EmptyString :: split c s'
      else match split c s' with
           | w :: ws => String a w :: ws
           | [] => [String a EmptyString]
           end
  end.

(** [sep.join(l)] *)
Fixpoint join (sep : string) (l : list string) : string :=
  match l with
  | [] => ""
  | [w] => w
  | w :: ws => w +:+ sep +:+ join sep ws
  end.

(** [s.replace(a, b)] for one-character [a] and [b]. *)
Fixpoint replace_char (a b : ascii) (s : string) : string :=
  match s with
  | EmptyString => EmptyString
  | String c s' => String (if decide (c = a) then b else c) (replace_char a b s')
  end.

(** [s.replace(a, "")] for a one-character [a]. *)
Fixpoint remove_char (a : ascii) (s : string) : string :=
  match s with
  | EmptyString => EmptyString
  | String c s' => if decide (c = a) then remove_char a s' else String c (remove_char a s')
  end.

(** [s.endswith(c)] for a one-character [c]. *)
Fixpoint endswith (c : ascii) (s : string) : bool :=
  match s with
  | EmptyString => false
  | String a EmptyString => if decide (a = c) then true else false
  | String _ s' => endswith c s'
  end.

(** [s[:-1]] *)
Fixpoint drop_last (s : string) : string :=
  match s with
  | EmptyString => EmptyString
  | String _ EmptyString => EmptyString
  | String a s' => String a (drop_last s')
  end.

(** [s.startswith(p)] *)
Definition startswith (p s : string) : bool := String.prefix p s.

(** [len(s)] *)
Definition len (s : string) : Z := Z.of_nat (String.length s).

(** Truth value of a [str]: non-empty. *)
Definition truthy (s : string) : bool :=
  match s with EmptyString => false | _ => true end.

Fixpoint forall_chars (p : ascii -> bool) (s : string) : bool :=
  match s with
  | EmptyString => true
  | String a s' => p a && forall_chars p s'
  end.

(** Whitespace of [str.split()] and [str.strip()] among the ASCII codes:
    tab, line feed, vertical tab, form feed, carriage return, the four
    separators 0x1c-0x1f and the space. *)
Definition isspace (c : ascii) : bool :=
  let n := nat_of_ascii c in
  ((9 <=? n) && (n <=? 13) || (28 <=? n) && (n <=? 32))%nat.

(** [s.split()]: the maximal runs of non-whitespace. [cur] is the run
    being read. *)
Fixpoint words_go (cur : string) (s : string) : list string :=
  match s with
  | EmptyString => if truthy cur then [cur] else []
  | String a s' =>
      if isspace a
      then (if truthy cur then [cur] else []) ++ words_go "" s'
      else words_go (cur +:+ String a "") s'
  end.

Definition words (s : string) : list string := words_go "" s.

End Py.

(** ** urllib.parse (CPython 3.11), on ASCII text

    [None] stands for a raised [ValueError]. The validation of a bracketed
    (IPv6 / IPvFuture) host relies on Python's [ipaddress] module and is a
    parameter: [check_bracketed_netloc netloc = true] when
    [_check_bracketed_netloc] returns without raising. *)

Module Urllib.

Record SplitResult := mkSplit {
  s_scheme : string; s_netloc : string; s_path : string;
  s_query : string; s_fragment : string }.

Record ParseResult := mkParse {
  scheme : string; netloc : string; path : string;
  params : string; query : string; fragment : string }.

Definition uses_netloc : list string :=
  [""; "ftp"; "http"; "gopher"; "nntp"; "telnet"; "imap"; "wais"; "file";
   "mms"; "https"; "shttp"; "snews"; "prospero"; "rtsp"; "rtspu"; "rsync";
   "svn"; "svn+ssh"; "sftp"; "nfs"; "git"; "git+ssh"; "ws"; "wss"].

Definition uses_params : list string :=
  [""; "ftp"; "hdl"; "prospero"; "http"; "imap"; "https"; "shttp"; "rtsp";
   "rtspu"; "sip"; "sips"; "mms"; "sftp"; "tel"].

Definition is_scheme_char (c : ascii) : bool :=
  Py.isalpha c || Py.isdigit c
  || bool_decide (c = "+"%char) || bool_decide (c = "-"%char)
  || bool_decide (c = "."%char).

(** [url.lstrip(_WHATWG_C0_CONTROL_OR_SPACE)] *)
Fixpoint lstrip_c0 (s : string) : string :=
  match s with
  | EmptyString => EmptyString
  | String c s' => if (nat_of_ascii c <=? 32)%nat then lstrip_c0 s' else s
  end.

(** Removal of [_UNSAFE_URL_BYTES_TO_REMOVE]: tab, carriage return, newline. *)
Definition remove_unsafe (s : string) : string :=
  Py.remove_char "010"%char (Py.remove_char "013"%char (Py.remove_char "009"%char s)).

(** The scheme test of [urlsplit]: [i = url.find(':')], [i > 0], a leading
    ASCII letter and only scheme characters before the colon. *)
Definition split_scheme (url : string) : string * string :=
  match Py.split1 ":" url with
  | Some (String c pre, rest) =>
      if Py.isalpha c && Py.forall_chars is_scheme_char (String c pre)
      then (Py.lower (String c pre), rest)
      else ("", url)
  | _ => ("", url)
  end.

(** [_splitnetloc(url, 2)] on the text that follows the leading [//]. *)
Fixpoint _splitnetloc (s : string) : string * string :=
  match s with
  | EmptyString => ("", "")
  | String c s' =>
      if bool_decide (c = "/"%char) || bool_decide (c = "?"%char)
         || bool_decide (c = "#"%char)
      then ("", s)
      else let '(n, r) := _splitnetloc s' in (String c n, r)
  end.

(** [url.split(c, 1)] guarded by [c in url]. *)
Definition cut (c : ascii) (url : string) : string * string :=
  match Py.split1 c url with
  | Some (l, r) => (l, r)
  | None => (url, "")
  end.

(** The prefix of [url] up to and including its last [/], and the rest. *)
Fixpoint rsplit_slash (s : string) : string * string :=
  match s with
  | EmptyString => ("", "")
  | String c s' =>
      match rsplit_slash s' with
      | (String a p, r) => (String c (String a p), r)
      | (EmptyString, r) =>
          if decide (c = "/"%char) then (String c "", r) else ("", String c r)
      end
  end.

(** [_splitparams]: the first [;] at or after the last [/]. *)
Definition _splitparams (url : string) : string * string :=
  let '(dir, seg) := rsplit_slash url in
  match Py.split1 ";" seg with
  | Some (l, r) => (dir +:+ l, r)
  | None => (url, "")
  end.

(** [urlunsplit] *)
Definition urlunsplit (c : SplitResult) : string :=
  let url := s_path c in
  let url :=
    if Py.truthy (s_netloc c)
       || (Py.truthy (s_scheme c) && bool_decide (s_scheme c ∈ uses_netloc)
           && negb (Py.startswith "//" url))
    then
      let url :=
        if Py.truthy url && negb (Py.startswith "/" url)
        then "/" +:+ url else url in
      "//" +:+ s_netloc c +:+ url
    else url in
  let url := if Py.truthy (s_scheme c) then s_scheme c +:+ ":" +:+ url else url in
  let url := if Py.truthy (s_query c) then url +:+ "?" +:+ s_query c else url in
  let url := if Py.truthy (s_fragment c) then url +:+ "#" +:+ s_fragment c else url in
  url.

(** [urlunparse] *)
Definition urlunparse (c : ParseResult) : string :=
  let url := if Py.truthy (params c) then path c +:+ ";" +:+ params c else path c in
  urlunsplit (mkSplit (scheme c) (netloc c) url (query c) (fragment c)).

(** The outcome of [_check_bracketed_netloc] ([true]: no exception). *)
Class BracketedHosts := check_bracketed_netloc : string -> bool.

Section Parse.

Context `{BracketedHosts}.

(** [urlsplit(url)] with the default [scheme=''], [allow_fragments=True]. *)
Definition urlsplit (url : string) : option SplitResult :=
  let url := remove_unsafe (lstrip_c0 url) in
  let '(sch, url) := split_scheme url in
  let '(net, url) :=
    match url with
    | String "/" (String "/" rest) => _splitnetloc rest
    | _ => ("", url)
    end in
  let lb := Py.contains "[" net in
  let rb := Py.contains "]" net in
  if xorb lb rb then None
  else if lb && rb && negb (check_bracketed_netloc net) then None
  else
    let '(url, frag) := cut "#" url in
    let '(url, qry) := cut "?" url in
    Some (mkSplit sch net url qry frag).

(** [urlparse(url)] *)
Definition urlparse (url : string) : option ParseResult :=
  match urlsplit url with
  | None => None
  | Some r =>
      let '(url, prm) :=
        if bool_decide (s_scheme r ∈ uses_params) && Py.contains ";" (s_path r)
        then _splitparams (s_path r)
        else (s_path r, "") in
      Some (mkParse (s_scheme r) (s_netloc r) url prm (s_query r) (s_fragment r))
  end.

End Parse.

(** *** Percent-encoding *)

Definition hexval (c : ascii) : option nat :=
  let n := nat_of_ascii c in
  if Py.isdigit c then Some (n - 48)%nat
  else if ((65 <=? n) && (n <=? 70))%nat then Some (n - 55)%nat
  else if ((97 <=? n) && (n <=? 102))%nat then Some (n - 87)%nat
  else None.

Definition hexdigit_upper (n : nat) : ascii :=
  if (n <? 10)%nat then ascii_of_nat (48 + n) else ascii_of_nat (55 + n).

(** [unquote]: every [%XY] with two hexadecimal digits becomes the byte
    [0xXY]; any other [%] stays. *)
Fixpoint unquote (s : string) : string :=
  match s with
  | EmptyString => EmptyString
  | String c s' =>
      if decide (c = "%"%char) then
        match s' with
        | String a (String b rest) =>
            match hexval a, hexval b with
            | Some x, Some y => String (ascii_of_nat (16 * x + y)) (unquote rest)
            | _, _ => String c (unquote s')
            end
        | _ => String c (unquote s')
        end
      else String c (unquote s')
  end.

(** [_ALWAYS_SAFE] *)
Definition always_safe (c : ascii) : bool :=
  Py.isalpha c || Py.isdigit c
  || bool_decide (c = "_"%char) || bool_decide (c = "."%char)
  || bool_decide (c = "-"%char) || bool_decide (c = "~"%char).

(** [quote_plus(s)] with the default [safe='']. *)
Fixpoint quote_plus (s : string) : string :=
  match s with
  | EmptyString => EmptyString
  | String c s' =>
      if always_safe c then String c (quote_plus s')
      else if decide (c = " "%char) then String "+" (quote_plus s')
      else
        let n := nat_of_ascii c in
        String "%" (String (hexdigit_upper (n / 16)) (String (hexdigit_upper (n mod 16))
               (quote_plus s')))
  end.

(** [parse_qsl(qs)] with [keep_blank_values=False], [strict_parsing=False]. *)
Definition parse_qsl (qs : string) : list (string * string) :=
  let query_args := if Py.truthy qs then Py.split "&" qs else [] in
  omap (fun name_value =>
          match Py.split1 "=" name_value with
          | Some (n, v) =>
              if Py.truthy v
              then Some (unquote (Py.replace_char "+" " " n),
                         unquote (Py.replace_char "+" " " v))
              else None
          | None => None
          end) query_args.

(** A [dict] from names to lists of values, in key-insertion order. *)
Fixpoint dict_append (name value : string) (d : list (string * list string))
  : list (string * list string) :=
  match d with
  | [] => [(name, [value])]
  | (k, vs) :: d' =>
      if decide (k = name) then (k, vs ++ [value]) :: d'
      else (k, vs) :: dict_append name value d'
  end.

(** [parse_qs(qs, keep_blank_values=False)] *)
Definition parse_qs (qs : string) : list (string * list string) :=
  fold_left (fun d nv => dict_append (fst nv) (snd nv) d) (parse_qsl qs) [].

(** [urlencode(query, doseq=True)] on a sequence of (name, list of values). *)
Definition urlencode (q : list (string * list string)) : string :=
  Py.join "&"
    (flat_map (fun kv => map (fun v => quote_plus (fst kv) +:+ "=" +:+ quote_plus v)
                             (snd kv)) q).

(** [sorted(items)] for the items of a dict: keys are distinct, so the
    tuples are ordered by key alone (code-point order). *)
Fixpoint insert_sorted (x : string * list string) (l : list (string * list string))
  : list (string * list string) :=
  match l with
  | [] => [x]
  | y :: l' =>
      if String.leb (fst x) (fst y) then x :: l else y :: insert_sorted x l'
  end.

Definition sorted (l : list (string * list string)) : list (string * list string) :=
  fold_right insert_sorted [] l.

End Urllib.

(** ** src/crawler/url_frontier.py: the task record *)

Module Task.

Inductive URLPriority := LOW | NORMAL | HIGH | CRITICAL.

(** [priority.value] *)
Definition value (p : URLPriority) : Z :=
  match p with LOW => 1 | NORMAL => 2 | HIGH => 3 | CRITICAL => 4 end.

Record URLTask := mkTask {
  url : string;
  depth : Z;
  priority : URLPriority;
  parent_url : option string;
  discovered_time : Z;
  retry_count : Z }.

(** The dictionary built by [URLTask.to_dict]; [json.dumps] of it is what
    the durable list stores, and two serialisations are equal exactly when
    the dictionaries are. *)
Record TaskDict := mkDict {
  d_url : string;
  d_depth : Z;
  d_priority : Z;
  d_parent_url : option string;
  d_discovered_time : Z;
  d_retry_count : Z }.

Definition to_dict (t : URLTask) : TaskDict :=
  mkDict (url t) (depth t) (value (priority t)) (parent_url t)
         (discovered_time t) (retry_count t).

Global Instance URLPriority_eq_dec : EqDecision URLPriority.
Proof. solve_decision. Defined.

Global Instance URLTask_eq_dec : EqDecision URLTask.
Proof. solve_decision. Defined.

Global Instance TaskDict_eq_dec : EqDecision TaskDict.
Proof. solve_decision. Defined.

End Task.

(** ** The Redis client

    Lists hold serialised tasks, sets hold strings. [log] records every
    command issued, [script] the outcome of the calls still to come
    ([false]: the call raises and leaves the store as it is; an exhausted
    script means the store is reachable). *)

Module Redis.

Inductive command :=
  | RPUSH (key : string) (item : Task.TaskDict)
  | LREM (key : string) (count : Z) (item : Task.TaskDict)
  | SADD (key member : string)
  | DELETE (key : string).

Record t := mk {
  lists : gmap string (list Task.TaskDict);
  sets : gmap string (gset string);
  log : list command;
  script : list bool }.

(** Removal of the first element equal to [x]. *)
Fixpoint remove_first (x : Task.TaskDict) (l : list Task.TaskDict)
  : list Task.TaskDict :=
  match l with
  | [] => []
  | y :: l' => if decide (y = x) then l' else y :: remove_first x l'
  end.

Definition exec (c : command) (r : t) : t :=
  match c with
  | RPUSH key item =>
      mk (<[key := default [] (lists r !! key) ++ [item]]> (lists r))
         (sets r) (log r) (script r)
  | LREM key _ item =>
      match lists r !! key with
      | None => r
      | Some l =>
          match remove_first item l with
          | [] => mk (delete key (lists r)) (sets r) (log r) (script r)
          | l' => mk (<[key := l']> (lists r)) (sets r) (log r) (script r)
          end
      end
  | SADD key member =>
      mk (lists r) (<[key := {[member]} ∪ default ∅ (sets r !! key)]> (sets r))
         (log r) (script r)
  | DELETE key =>
      mk (delete key (lists r)) (delete key (sets r)) (log r) (script r)
  end.

(** One awaited call: the command is logged, and applied unless the call
    raises. The boolean is [true] when the call returned normally. *)
Definition call (c : command) (r : t) : bool * t :=
  match script r with
  | false :: rest => (false, mk (lists r) (sets r) (log r ++ [c]) rest)
  | true :: rest =>
      let r' := exec c r in (true, mk (lists r') (sets r') (log r ++ [c]) rest)
  | [] =>
      let r' := exec c r in (true, mk (lists r') (sets r') (log r ++ [c]) [])
  end.

Definition empty (outcomes : list bool) : t := mk ∅ ∅ [] outcomes.

End Redis.

(** ** src/crawler/url_frontier.py: the frontier *)

Module Frontier.
Export Task.

(** [domain_queues] is a [defaultdict(deque)]: an association list in key
    insertion order, which is the order [items()] iterates in. *)
Record URLFrontier := mkFrontier {
  redis_client : Redis.t;
  politeness_delay : Z;
  domain_queues : list (string * list URLTask);
  domain_last_access : gmap string Z;
  processed_urls : gset string }.

Definition domain_queue_prefix : string := "crawler:domain:".
Definition processed_key : string := "crawler:processed_urls".

(** [URLFrontier.__init__] *)
Definition init (redis : Redis.t) (delay : Z) : URLFrontier :=
  mkFrontier redis delay [] ∅ ∅.

Definition with_redis (f : URLFrontier) (r : Redis.t) : URLFrontier :=
  mkFrontier r (politeness_delay f) (domain_queues f)
             (domain_last_access f) (processed_urls f).

(** [self.domain_queues[domain]] for reading. *)
Fixpoint queue_of (domain : string) (qs : list (string * list URLTask))
  : list URLTask :=
  match qs with
  | [] => []
  | (d, q) :: qs' => if decide (d = domain) then q else queue_of domain qs'
  end.

(** [self.domain_queues[domain].append(task)]; a missing key is created
    at the end of the dictionary. *)
Fixpoint queue_append (domain : string) (task : URLTask)
    (qs : list (string * list URLTask)) : list (string * list URLTask) :=
  match qs with
  | [] => [(domain, [task])]
  | (d, q) :: qs' =>
      if decide (d = domain) then (d, q ++ [task]) :: qs'
      else (d, q) :: queue_append domain task qs'
  end.

(** In-place replacement of the deque stored under an existing key. *)
Fixpoint queue_set (domain : string) (q' : list URLTask)
    (qs : list (string * list URLTask)) : list (string * list URLTask) :=
  match qs with
  | [] => []
  | (d, q) :: qs' =>
      if decide (d = domain) then (d, q') :: qs'
      else (d, q) :: queue_set domain q' qs'
  end.

(** [max(queue, key=lambda t: t.priority.value)] on a non-empty queue
    [first :: rest]: the first task of maximal priority. *)
Fixpoint max_priority (best : URLTask) (rest : list URLTask) : URLTask :=
  match rest with
  | [] => best
  | t :: rest' =>
      max_priority
        (if bool_decide (value (priority best) < value (priority t)) then t else best)
        rest'
  end.

(** The loop that fills [available_domains]. *)
Definition available_domains (f : URLFrontier) (current_time : Z)
  : list (string * URLTask * Z) :=
  flat_map
    (fun dq : string * list URLTask =>
       match snd dq with
       | [] => []
       | first :: rest =>
           let last_access := default 0 (domain_last_access f !! fst dq) in
           let time_since_access := current_time - last_access in
           if bool_decide (politeness_delay f ≤ time_since_access)
           then [(fst dq, max_priority first rest, time_since_access)]
           else []
       end)
    (domain_queues f).

(** The sort key [(x[1].priority.value, x[2])] and its tuple order. *)
Definition sort_key (x : string * URLTask * Z) : Z * Z :=
  (value (priority (snd (fst x))), snd x).

Definition key_lt (a b : Z * Z) : bool :=
  bool_decide (fst a < fst b)
  || (bool_decide (fst a = fst b) && bool_decide (snd a < snd b)).

(** [list.sort(key=..., reverse=True)]: descending and stable. *)
Fixpoint insert_desc (x : string * URLTask * Z) (l : list (string * URLTask * Z))
  : list (string * URLTask * Z) :=
  match l with
  | [] => [x]
  | y :: l' =>
      if key_lt (sort_key x) (sort_key y) then y :: insert_desc x l' else x :: l
  end.

Definition sort_desc (l : list (string * URLTask * Z)) : list (string * URLTask * Z) :=
  fold_right insert_desc [] l.

(** The scan for [best_task] and [best_index]. *)
Fixpoint scan_best (best : option (URLTask * nat)) (i : nat) (queue : list URLTask)
  : option (URLTask * nat) :=
  match queue with
  | [] => best
  | task :: queue' =>
      let best' :=
        match best with
        | None => Some (task, i)
        | Some (b, _) =>
            if bool_decide (value (priority b) < value (priority task))
            then Some (task, i) else best
        end in
      scan_best best' (S i) queue'
  end.

(** [get_next_url], with [current_time] the value of [time.time()]. *)
Definition get_next_url (f : URLFrontier) (current_time : Z)
  : option URLTask * URLFrontier :=
  match sort_desc (available_domains f current_time) with
  | [] => (None, f)
  | (selected_domain, _, _) :: _ =>
      let queue := queue_of selected_domain (domain_queues f) in
      match scan_best None 0 queue with
      | Some (best_task, best_index) =>
          let '(_, r) :=
            Redis.call (Redis.LREM (domain_queue_prefix +:+ selected_domain) 1
                                   (to_dict best_task))
                       (redis_client f) in
          (Some best_task,
           mkFrontier r (politeness_delay f)
             (queue_set selected_domain (delete best_index queue) (domain_queues f))
             (<[selected_domain := current_time]> (domain_last_access f))
             (processed_urls f))
      | None => (None, f)
      end
  end.

(** [mark_processed] *)
Definition mark_processed (f : URLFrontier) (u : string) : URLFrontier :=
  let '(_, r) := Redis.call (Redis.SADD processed_key u) (redis_client f) in
  mkFrontier r (politeness_delay f) (domain_queues f) (domain_last_access f)
             ({[u]} ∪ processed_urls f).

(** [is_empty] *)
Definition is_empty (f : URLFrontier) : bool :=
  forallb (fun dq : string * list URLTask => bool_decide (snd dq = []))
          (domain_queues f).

(** [cleanup] *)
Definition cleanup (f : URLFrontier) : URLFrontier :=
  let empty_domains :=
    map fst (filter (fun dq : string * list URLTask => snd dq = []) (domain_queues f)) in
  let r :=
    fold_left (fun r d => snd (Redis.call (Redis.DELETE (domain_queue_prefix +:+ d)) r))
              empty_domains (redis_client f) in
  mkFrontier r (politeness_delay f)
    (filter (fun dq : string * list URLTask => snd dq ≠ []) (domain_queues f))
    (domain_last_access f) (processed_urls f).

Section WithUrlparse.

Context `{Urllib.BracketedHosts}.

(** [_get_domain] *)
Definition _get_domain (u : string) : string :=
  match Urllib.urlparse u with
  | Some parsed => Py.lower (Urllib.netloc parsed)
  | None => "unknown"
  end.

(** [add_url] *)
Definition add_url (f : URLFrontier) (task : URLTask) : bool * URLFrontier :=
  if bool_decide (url task ∈ processed_urls f) then (false, f)
  else
    let domain := _get_domain (url task) in
    let '(ok, r) :=
      Redis.call (Redis.RPUSH (domain_queue_prefix +:+ domain) (to_dict task))
                 (redis_client f) in
    (ok,
     mkFrontier r (politeness_delay f)
       (queue_append domain task (domain_queues f))
       (domain_last_access f) (processed_urls f)).

(** [add_urls] *)
Fixpoint add_urls (f : URLFrontier) (tasks : list URLTask) : Z * URLFrontier :=
  match tasks with
  | [] => (0, f)
  | task :: tasks' =>
      let '(added, f1) := add_url f task in
      let '(added_count, f2) := add_urls f1 tasks' in
      ((if added then 1 else 0) + added_count, f2)
  end.

(** [mark_failed]; the task object is updated in place, so the updated
    task is returned next to the frontier. *)
Definition mark_failed (f : URLFrontier) (task : URLTask) (max_retries : Z)
  : bool * URLTask * URLFrontier :=
  if bool_decide (retry_count task < max_retries) then
    let task' :=
      mkTask (url task) (depth task) LOW (parent_url task)
             (discovered_time task) (retry_count task + 1) in
    let '(_, f') := add_url f task' in
    (true, task', f')
  else
    (false, task, mark_processed f (url task)).

(** *** Runs of the frontier

    A client of the frontier issues a sequence of calls; [Next now] is a
    call of [get_next_url] at which [time.time()] returns [now]. *)

Inductive call :=
  | Add (task : URLTask)
  | Next (now : Z)
  | MarkProcessed (u : string)
  | MarkFailed (task : URLTask) (max_retries : Z)
  | Cleanup.

(** One call: the new state and the task handed out, if any. *)
Definition step (f : URLFrontier) (c : call) : option URLTask * URLFrontier :=
  match c with
  | Add task => (None, snd (add_url f task))
  | Next now => get_next_url f now
  | MarkProcessed u => (None, mark_processed f u)
  | MarkFailed task max_retries => (None, snd (mark_failed f task max_retries))
  | Cleanup => (None, cleanup f)
  end.

Definition run (f : URLFrontier) (cs : list call) : URLFrontier :=
  fold_left (fun f c => snd (step f c)) cs f.

(** Whether some call of the run from [f] hands out a task of host [h]. *)
Fixpoint serves (h : string) (f : URLFrontier) (cs : list call) : bool :=
  match cs with
  | [] => false
  | c :: cs' =>
      match step f c with
      | (Some task, f') =>
          bool_decide (_get_domain (url task) = h) || serves h f' cs'
      | (None, f') => serves h f' cs'
      end
  end.

(** Every queued task sits in the queue of its own host. *)
Definition consistent (f : URLFrontier) : Prop :=
  NoDup (map fst (domain_queues f))
  ∧ ∀ d t, t ∈ queue_of d (domain_queues f) → _get_domain (url t) = d.

End WithUrlparse.

(** A host is ready when its queue is non-empty and its last access (0
    when it was never accessed) lies at least [politeness_delay] back. *)
Definition ready (f : URLFrontier) (now : Z) (h : string) : Prop :=
  queue_of h (domain_queues f) ≠ []
  ∧ politeness_delay f ≤ now - default 0 (domain_last_access f !! h).

(** Keys of a [dict] are distinct. *)
Definition wf (f : URLFrontier) : Prop := NoDup (map fst (domain_queues f)).

End Frontier.

(** ** src/crawler/fetcher.py *)

Module Fetcher.

(** Exceptions that reach the handlers of [WebFetcher.fetch]. *)
Inductive exn :=
  | TimeoutError
  | ClientError (msg : string)
  | OtherError (msg : string).

(** The outcome of [bytes.decode(encoding)]. *)
Inductive decoded :=
  | Decoded (text : string)
  | UnicodeDecodeError
  | LookupError.

(** What the embedding takes from Python's library and from aiohttp:
    [int(str)] ([None]: [ValueError]), [bytes.decode], [urljoin], and the
    class [RobotFileParser] with its constructor, [set_url] and [can_fetch]. *)
Class PyLib := {
  int_of_str : string -> option Z;
  bytes_decode : string -> list Byte.byte -> decoded;
  bytes_decode_ignore : list Byte.byte -> string;
  urljoin : string -> string -> string;
  RobotFileParser : Type;
  rfp_new : RobotFileParser;
  rfp_set_url : string -> RobotFileParser -> RobotFileParser;
  rfp_can_fetch : RobotFileParser -> string -> string -> bool }.

(** The body of a response as [iter_chunked] delivers it: chunks, then the
    end of the stream or an exception. *)
Inductive stream :=
  | Eof
  | Chunk (data : list Byte.byte) (rest : stream)
  | Broken.

Record Response := mkResponse {
  status : Z;
  headers : list (string * string);
  charset : option string;
  body : stream }.

(** What [session.get(url)] does: raise, or answer. *)
Inductive http_outcome :=
  | Fails (e : exn)
  | Responds (r : Response).

Record FetchResult := mkResult {
  r_url : string;
  status_code : Z;
  content : option string;
  r_headers : option (list (string * string));
  error : option string;
  content_type : option string;
  encoding : option string }.

(** [response.headers.get(name)]: header names compare without case. *)
Fixpoint headers_get (name : string) (hs : list (string * string)) : option string :=
  match hs with
  | [] => None
  | (k, v) :: hs' =>
      if decide (Py.lower k = Py.lower name) then Some v else headers_get name hs'
  end.

(** [p in s] for strings. *)
Fixpoint is_substring (p s : string) : bool :=
  String.prefix p s
  || match s with
     | EmptyString => false
     | String _ s' => is_substring p s'
     end.

Definition text_types : list string :=
  ["text/html"; "text/plain"; "text/xml"; "application/xml";
   "application/xhtml+xml"; "application/json"; "application/ld+json"].

(** [_is_text_content] *)
Definition _is_text_content (content_type : string) : bool :=
  existsb (fun text_type => is_substring text_type content_type) text_types.

(** The default of [max_size]: 10 MiB. *)
Definition max_size : Z := 10 * 1024 * 1024.

(** The chunk loop of [_read_content_safely]: [Some (Some bytes)] when the
    stream ended within the limit, [Some None] for the [return None] of the
    loop, [None] when the stream raised. *)
Fixpoint read_chunks (content_bytes : list Byte.byte) (s : stream)
    : option (option (list Byte.byte)) :=
  match s with
  | Eof => Some (Some content_bytes)
  | Broken => None
  | Chunk data rest =>
      let content_bytes := content_bytes ++ data in
      if bool_decide (max_size < Z.of_nat (length content_bytes)) then Some None
      else read_chunks content_bytes rest
  end.

(** The chunks a stream delivers. *)
Fixpoint chunks_of (s : stream) : list (list Byte.byte) :=
  match s with
  | Eof => []
  | Broken => []
  | Chunk data rest => data :: chunks_of rest
  end.

(** The number of bytes read once [k] chunks have arrived. *)
Definition cumulative (k : nat) (s : stream) : Z :=
  Z.of_nat (length (concat (take k (chunks_of s)))).

Section WithLib.

Context `{PyLib}.

(** The [for fallback_encoding in ['utf-8', 'latin-1', 'cp1252']] loop and
    the final decoding with [errors='ignore']. *)
Fixpoint decode_fallback (encodings : list string) (content_bytes : list Byte.byte)
    : option string :=
  match encodings with
  | [] => Some (bytes_decode_ignore content_bytes)
  | e :: encodings' =>
      match bytes_decode e content_bytes with
      | Decoded text => Some text
      | UnicodeDecodeError => decode_fallback encodings' content_bytes
      | LookupError => None
      end
  end.

(** [_read_content_safely]; every exception ends in [return None]. *)
Definition _read_content_safely (response : Response) : option string :=
  let content_length := headers_get "content-length" (headers response) in
  let too_large :=
    match content_length with
    | Some cl =>
        if Py.truthy cl then
          match int_of_str cl with
          | Some n => Some (bool_decide (max_size < n))
          | None => None
          end
        else Some false
    | None => Some false
    end in
  match too_large with
  | None => None
  | Some true => None
  | Some false =>
      match read_chunks [] (body response) with
      | None => None
      | Some None => None
      | Some (Some content_bytes) =>
          let encoding :=
            match charset response with
            | Some c => if Py.truthy c then c else "utf-8"
            | None => "utf-8"
            end in
          match bytes_decode encoding content_bytes with
          | Decoded text => Some text
          | UnicodeDecodeError =>
              decode_fallback ["utf-8"; "latin-1"; "cp1252"] content_bytes
          | LookupError => None
          end
      end
  end.

(** *** RobotsChecker *)

Record RobotsChecker := mkChecker {
  rc_user_agent : string;
  robots_cache : gmap string RobotFileParser;
  robots_check_time : gmap string Z }.

Definition cache_ttl : Z := 3600.

(** [RobotsChecker.__init__] *)
Definition new_checker (user_agent : string) : RobotsChecker :=
  mkChecker user_agent ∅ ∅.

(** The result of a statement that may raise. *)
Inductive result (A : Type) :=
  | Returns (a : A)
  | Raises.
Arguments Returns {A} a.
Arguments Raises {A}.

(** [rp.read_robots_txt(text)]. [RobotFileParser] defines [mtime],
    [modified], [set_url], [read], [parse], [can_fetch], [crawl_delay],
    [request_rate] and [site_maps]; it has no attribute [read_robots_txt],
    so the call raises [AttributeError]. *)
Definition read_robots_txt (rp : RobotFileParser) (text : string)
    : result RobotFileParser :=
  Raises.

Context `{Urllib.BracketedHosts}.

(** [RobotsChecker._get_domain]; [None] when [urlparse] raises. *)
Definition _get_domain (u : string) : option string :=
  match Urllib.urlparse u with
  | Some parsed => Some (Urllib.scheme parsed +:+ "://" +:+ Urllib.netloc parsed)
  | None => None
  end.

(** [await response.text()]: the whole body, decoded with the charset of
    the response; a broken stream or a failing decoder raises. *)
Fixpoint read_all (s : stream) : option (list Byte.byte) :=
  match s with
  | Eof => Some []
  | Broken => None
  | Chunk data rest =>
      match read_all rest with
      | Some bytes => Some (data ++ bytes)
      | None => None
      end
  end.

Definition response_text (r : Response) : result string :=
  match read_all (body r) with
  | None => Raises
  | Some bytes =>
      match bytes_decode (default "utf-8" (charset r)) bytes with
      | Decoded text => Returns text
      | _ => Raises
      end
  end.

(** The cache test of [can_fetch]: an entry for [domain] in both
    dictionaries that is younger than [cache_ttl]. *)
Definition cached (c : RobotsChecker) (domain : string) (current_time : Z)
    : option RobotFileParser :=
  match robots_cache c !! domain, robots_check_time c !! domain with
  | Some rp, Some checked =>
      if bool_decide (current_time - checked < cache_ttl) then Some rp else None
  | _, _ => None
  end.

(** [RobotsChecker.can_fetch]. [server] answers the GET requests,
    [current_time] is [time.time()]; the second component lists the URLs
    requested. *)
Definition can_fetch (c : RobotsChecker) (server : string -> http_outcome)
      (current_time : Z) (u : string) : bool * list string * RobotsChecker :=
  match _get_domain u with
  | None => (true, [], c)
  | Some domain =>
      match cached c domain current_time with
      | Some rp => (rfp_can_fetch rp (rc_user_agent c) u, [], c)
      | None =>
          let robots_url := urljoin domain "/robots.txt" in
          match server robots_url with
          | Fails _ => (true, [robots_url], c)
          | Responds response =>
              let parsed :=
                if bool_decide (status response = 200) then
                  match response_text response with
                  | Returns robots_content =>
                      read_robots_txt (rfp_set_url robots_url rfp_new) robots_content
                  | Raises => Raises
                  end
                else read_robots_txt (rfp_set_url robots_url rfp_new) "" in
              match parsed with
              | Raises => (true, [robots_url], c)
              | Returns rp =>
                  (rfp_can_fetch rp (rc_user_agent c) u, [robots_url],
                   mkChecker (rc_user_agent c)
                     (<[domain := rp]> (robots_cache c))
                     (<[domain := current_time]> (robots_check_time c)))
              end
          end
      end
  end.

(** *** WebFetcher *)

Record Stats := mkStats {
  total_requests : Z;
  successful_requests : Z;
  failed_requests : Z;
  robots_blocked : Z;
  total_bytes_downloaded : Z }.

(** [requested] lists, oldest first, the URLs the session was asked for. *)
Record WebFetcher := mkFetcher {
  user_agent : string;
  respect_robots_txt : bool;
  robots_checker : option RobotsChecker;
  stats : Stats;
  requested : list string }.

(** [WebFetcher.__init__] *)
Definition new_fetcher (ua : string) (respect : bool) : WebFetcher :=
  mkFetcher ua respect (if respect then Some (new_checker ua) else None)
            (mkStats 0 0 0 0 0) [].

(** The handlers of [fetch]: the error message of each exception. *)
Definition error_msg (e : exn) : string :=
  match e with
  | TimeoutError => "Request timeout"
  | ClientError msg => "Client error: " +:+ msg
  | OtherError msg => "Unexpected error: " +:+ msg
  end.

(** The part of [fetch] after the robots check. *)
Definition fetch_page (w : WebFetcher) (server : string -> http_outcome) (u : string)
    : FetchResult * WebFetcher :=
  let st := stats w in
  let st := mkStats (total_requests st + 1) (successful_requests st)
                    (failed_requests st) (robots_blocked st)
                    (total_bytes_downloaded st) in
  let log := requested w ++ [u] in
  match server u with
  | Fails e =>
      (mkResult u 0 None None (Some (error_msg e)) None None,
       mkFetcher (user_agent w) (respect_robots_txt w) (robots_checker w)
         (mkStats (total_requests st) (successful_requests st)
                  (failed_requests st + 1) (robots_blocked st)
                  (total_bytes_downloaded st))
         log)
  | Responds response =>
      let ctype := Py.lower (default "" (headers_get "content-type" (headers response))) in
      if negb (_is_text_content ctype) then
        (mkResult u (status response) None (Some (headers response))
                  (Some "Non-text content type") (Some ctype) None,
         mkFetcher (user_agent w) (respect_robots_txt w) (robots_checker w) st log)
      else
        let text := _read_content_safely response in
        let st :=
          match text with
          | Some (String a s) =>
              mkStats (total_requests st) (successful_requests st + 1)
                      (failed_requests st) (robots_blocked st)
                      (total_bytes_downloaded st + Py.len (String a s))
          | _ => st
          end in
        (mkResult u (status response) text (Some (headers response)) None
                  (Some ctype) (charset response),
         mkFetcher (user_agent w) (respect_robots_txt w) (robots_checker w) st log)
  end.

(** [WebFetcher.fetch] *)
Definition fetch (w : WebFetcher) (server : string -> http_outcome)
      (current_time : Z) (u : string) : FetchResult * WebFetcher :=
  match (if respect_robots_txt w then robots_checker w else None) with
  | Some checker =>
      let '(allowed, asked, checker') := can_fetch checker server current_time u in
      let w' := mkFetcher (user_agent w) (respect_robots_txt w) (Some checker')
                          (stats w) (requested w ++ asked) in
      if allowed then fetch_page w' server u
      else
        let st := stats w' in
        (mkResult u 403 None None (Some "Blocked by robots.txt") None None,
         mkFetcher (user_agent w') (respect_robots_txt w') (robots_checker w')
           (mkStats (total_requests st) (successful_requests st)
                    (failed_requests st) (robots_blocked st + 1)
                    (total_bytes_downloaded st))
           (requested w'))
  | None => fetch_page w server u
  end.

(** The declared [Content-Length], when there is one, is within the limit. *)
Definition declared_length_ok (r : Response) : Prop :=
  match headers_get "content-length" (headers r) with
  | None => True
  | Some cl => cl = "" ∨ ∃ n, int_of_str cl = Some n ∧ n ≤ max_size
  end.

(** A fetcher whose robots cache holds no parser, as after [__init__]. *)
Definition cache_empty (w : WebFetcher) : Prop :=
  match robots_checker w with
  | Some c => robots_cache c = ∅
  | None => True
  end.

End WithLib.

End Fetcher.

(** ** src/crawler/parser.py: the parsed record *)

Module Parser.

Record ParsedContent := mkParsed {
  url : string;
  title : option string;
  content : option string;
  meta_description : option string;
  meta_keywords : option string;
  links : list string;
  images : list string;
  language : option string;
  author : option string;
  canonical_url : option string;
  headings : list (string * list string);
  word_count : Z }.

(** [ParsedContent(url=url)] *)
Definition empty_content (u : string) : ParsedContent :=
  mkParsed u None None None None [] [] None None None
    [("h1", []); ("h2", []); ("h3", []); ("h4", []); ("h5", []); ("h6", [])] 0.

End Parser.

(** ** src/storage/duplicate_detector.py *)

Module Dedup.
Export Parser.

(** The feature vector of [_create_fuzzy_hash]. *)
Record Features := mkFeatures {
  word_count_bucket : Z;
  char_count_bucket : Z;
  title_words : Z;
  significant_words : Z;
  top_words : list string }.

(** [hashlib] and [json]: the hexadecimal digests and
    [json.dumps(features, sort_keys=True)]. *)
Class PyLib := {
  sha256_hexdigest : string -> string;
  md5_hexdigest : string -> string;
  json_dumps : Features -> string }.

Definition tracking_params : list string :=
  ["utm_source"; "utm_medium"; "utm_campaign"; "utm_term"; "utm_content";
   "fbclid"; "gclid"; "ref"; "source"; "campaign"].

Definition stop_words : list string :=
  ["the"; "a"; "an"; "and"; "or"; "but"; "in"; "on"; "at"; "to"; "for";
   "of"; "with"; "by"; "from"; "up"; "about"; "into"; "through"; "during";
   "before"; "after"; "above"; "below"; "is"; "are"; "was"; "were"; "be";
   "been"; "being"; "have"; "has"; "had"; "do"; "does"; "did"; "will";
   "would"; "could"; "should"; "may"; "might"; "must"; "can"; "this";
   "that"; "these"; "those"; "i"; "you"; "he"; "she"; "it"; "we"; "they"].

(** The filtered and sorted query of [_normalize_url]. *)
Definition new_query (qs : string) : string :=
  if Py.truthy qs then
    Urllib.urlencode
      (Urllib.sorted
         (filter (fun kv : string * list string => kv.1 ∉ tracking_params)
                 (Urllib.parse_qs qs)))
  else "".

(** The path of [_normalize_url]: one trailing slash goes, unless the path
    is the root. *)
Definition normalize_path (p : string) : string :=
  if bool_decide (1 < Py.len p) && Py.endswith "/" p then Py.drop_last p else p.

(** *** URLs in plain form

    The character classes and the shape of the components on which
    [_normalize_url] is stable. *)



(** The first character of a text, if any, satisfies [q]. *)
Definition head_ok (q : ascii → bool) (s : string) : bool :=
  match s with EmptyString => true | String a _ => q a end.













(** [word_freq]: the count of each word, in order of first occurrence. *)
Fixpoint count_word (w : string) (freq : list (string * Z)) : list (string * Z) :=
  match freq with
  | [] => [(w, 1)]
  | (k, n) :: freq' =>
      if decide (k = w) then (k, n + 1) :: freq' else (k, n) :: count_word w freq'
  end.

(** [sorted(word_freq.items(), key=lambda x: x[1], reverse=True)] *)
Fixpoint insert_by_count (x : string * Z) (l : list (string * Z)) : list (string * Z) :=
  match l with
  | [] => [x]
  | y :: l' => if bool_decide (x.2 < y.2) then y :: insert_by_count x l' else x :: l
  end.

Definition sort_by_count (l : list (string * Z)) : list (string * Z) :=
  fold_right insert_by_count [] l.

Definition features_of (content title : string) : Features :=
  let words := Py.words (Py.lower content) in
  let significant :=
    filter (fun w => 3 < Py.len w ∧ w ∉ stop_words) words in
  let word_freq := fold_left (fun freq w => count_word w freq) significant [] in
  mkFeatures
    (Z.of_nat (length words) / 100)
    (Py.len content / 1000)
    (if Py.truthy title then Z.of_nat (length (Py.words title)) else 0)
    (Z.of_nat (length significant))
    (map fst (take 10 (sort_by_count word_freq))).

Record Stats := mkStats {
  total_checks : Z;
  url_duplicates : Z;
  content_duplicates : Z;
  title_duplicates : Z;
  fuzzy_duplicates : Z }.

Record DuplicateDetector := mkDetector {
  redis_client : Redis.t;
  url_hashes : gset string;
  content_hashes : gset string;
  title_hashes : gset string;
  fuzzy_hashes : gset string;
  stats : Stats }.

(** The dictionary returned by [check_duplicate]. *)
Record Results := mkResults {
  url_duplicate : bool;
  content_duplicate : bool;
  title_duplicate : bool;
  fuzzy_duplicate : bool }.

Definition url_hashes_key : string := "crawler:duplicates:urls".
Definition content_hashes_key : string := "crawler:duplicates:content".
Definition title_hashes_key : string := "crawler:duplicates:titles".
Definition fuzzy_hashes_key : string := "crawler:duplicates:fuzzy".

(** [DuplicateDetector.__init__] *)
Definition new_detector (redis : Redis.t) : DuplicateDetector :=
  mkDetector redis ∅ ∅ ∅ ∅ (mkStats 0 0 0 0 0).

(** [is_duplicate] *)
Definition is_duplicate (r : Results) (strict : bool) : bool :=
  if strict then url_duplicate r || content_duplicate r
  else url_duplicate r || content_duplicate r || fuzzy_duplicate r.

(** The Redis calls of [add_content], inside one [try]: the first call that
    raises ends the sequence. *)
Fixpoint sadd_all (cmds : list Redis.command) (r : Redis.t) : Redis.t :=
  match cmds with
  | [] => r
  | c :: cmds' =>
      let '(ok, r') := Redis.call c r in
      if ok then sadd_all cmds' r' else r'
  end.

Section WithLib.

Context `{PyLib} `{Urllib.BracketedHosts}.

(** [_normalize_url] *)
Definition _normalize_url (u : string) : string :=
  match Urllib.urlparse (Py.lower u) with
  | None => Py.lower u
  | Some parsed =>
      Urllib.urlunparse
        (Urllib.mkParse (Urllib.scheme parsed) (Urllib.netloc parsed)
           (normalize_path (Urllib.path parsed)) (Urllib.params parsed)
           (new_query (Urllib.query parsed)) "")
  end.

(** [_hash_content] *)
Definition _hash_content (text : string) : string :=
  if Py.truthy text
  then sha256_hexdigest (Py.join " " (Py.words (Py.lower text)))
  else "".

(** [_hash_title] *)
Definition _hash_title (text : string) : string :=
  if Py.truthy text
  then md5_hexdigest (Py.join " " (Py.words (Py.lower text)))
  else "".

(** [_create_fuzzy_hash] *)
Definition _create_fuzzy_hash (text title_text : string) : string :=
  if Py.truthy text
  then md5_hexdigest (json_dumps (features_of text title_text))
  else "".

Definition bump (b : bool) (n : Z) : Z := if b then n + 1 else n.

(** [check_duplicate] *)
Definition check_duplicate (d : DuplicateDetector) (p : ParsedContent)
    : Results * DuplicateDetector :=
  let url_hash := _hash_content (_normalize_url (url p)) in
  let content_hash := _hash_content (default "" (content p)) in
  let title_hash := _hash_title (default "" (title p)) in
  let fuzzy_hash := _create_fuzzy_hash (default "" (content p)) (default "" (title p)) in
  let results :=
    mkResults
      (bool_decide (url_hash ∈ url_hashes d))
      (if Py.truthy content_hash then bool_decide (content_hash ∈ content_hashes d)
       else false)
      (if Py.truthy title_hash then bool_decide (title_hash ∈ title_hashes d)
       else false)
      (if Py.truthy fuzzy_hash then bool_decide (fuzzy_hash ∈ fuzzy_hashes d)
       else false) in
  let st := stats d in
  (results,
   mkDetector (redis_client d) (url_hashes d) (content_hashes d) (title_hashes d)
     (fuzzy_hashes d)
     (mkStats (total_checks st + 1)
              (bump (url_duplicate results) (url_duplicates st))
              (bump (content_duplicate results) (content_duplicates st))
              (bump (title_duplicate results) (title_duplicates st))
              (bump (fuzzy_duplicate results) (fuzzy_duplicates st)))).

(** [add_content] *)
Definition add_content (d : DuplicateDetector) (p : ParsedContent) : DuplicateDetector :=
  let url_hash := _hash_content (_normalize_url (url p)) in
  let content_hash := _hash_content (default "" (content p)) in
  let title_hash := _hash_title (default "" (title p)) in
  let fuzzy_hash := _create_fuzzy_hash (default "" (content p)) (default "" (title p)) in
  let add (h : string) (s : gset string) : gset string :=
    if Py.truthy h then {[h]} ∪ s else s in
  let cmd (key h : string) : list Redis.command :=
    if Py.truthy h then [Redis.SADD key h] else [] in
  mkDetector
    (sadd_all ([Redis.SADD url_hashes_key url_hash]
               ++ cmd content_hashes_key content_hash
               ++ cmd title_hashes_key title_hash
               ++ cmd fuzzy_hashes_key fuzzy_hash)
              (redis_client d))
    ({[url_hash]} ∪ url_hashes d)
    (add content_hash (content_hashes d))
    (add title_hash (title_hashes d))
    (add fuzzy_hash (fuzzy_hashes d))
    (stats d).

End WithLib.

End Dedup.

(** ** src/crawler/scheduler.py: the worker pipeline *)

Module Scheduler.

(** The outcome of [database.store_content]: the backend's boolean, or the
    [DatabaseError] of an uninitialised manager. *)
Inductive store_outcome :=
  | Stored (ok : bool)
  | StoreRaises.

(** The collaborators of a worker: the web server behind the session, the
    parser ([ContentParser.parse] handles its own exceptions) and the
    content store. *)
Record World := mkWorld {
  server : string -> Fetcher.http_outcome;
  parse : string -> string -> Parser.ParsedContent;
  store : Parser.ParsedContent -> store_outcome }.

(** The integer counters of [CrawlStats]. *)
Record CrawlStats := mkCrawlStats {
  urls_crawled : Z;
  pages_stored : Z;
  errors : Z;
  duplicates_skipped : Z;
  total_bytes_downloaded : Z }.

Section WithLib.

Context `{Fetcher.PyLib} `{Dedup.PyLib} `{Urllib.BracketedHosts}.

(** [trace] lists, oldest first, the calls made on the frontier. *)
Record CrawlerScheduler := mkScheduler {
  url_frontier : Frontier.URLFrontier;
  fetcher : Fetcher.WebFetcher;
  duplicate_detector : Dedup.DuplicateDetector;
  stats : CrawlStats;
  max_depth : Z;
  retry_attempts : Z;
  trace : list Frontier.call }.

(** The frontier and the duplicate detector share one Redis client. *)
Definition with_frontier (s : CrawlerScheduler) (f : Frontier.URLFrontier)
      (c : Frontier.call) : CrawlerScheduler :=
  let d := duplicate_detector s in
  mkScheduler f (fetcher s)
    (Dedup.mkDetector (Frontier.redis_client f) (Dedup.url_hashes d)
       (Dedup.content_hashes d) (Dedup.title_hashes d) (Dedup.fuzzy_hashes d)
       (Dedup.stats d))
    (stats s) (max_depth s) (retry_attempts s) (trace s ++ [c]).

Definition with_detector (s : CrawlerScheduler) (d : Dedup.DuplicateDetector)
    : CrawlerScheduler :=
  mkScheduler (Frontier.with_redis (url_frontier s) (Dedup.redis_client d))
    (fetcher s) d (stats s) (max_depth s) (retry_attempts s) (trace s).

Definition with_stats (s : CrawlerScheduler) (st : CrawlStats) : CrawlerScheduler :=
  mkScheduler (url_frontier s) (fetcher s) (duplicate_detector s) st
    (max_depth s) (retry_attempts s) (trace s).

Definition mark_failed (s : CrawlerScheduler) (task : Task.URLTask)
    : CrawlerScheduler :=
  with_frontier s
    (Frontier.mark_failed (url_frontier s) task (retry_attempts s)).2
    (Frontier.MarkFailed task (retry_attempts s)).

Definition mark_processed (s : CrawlerScheduler) (u : string) : CrawlerScheduler :=
  with_frontier s (Frontier.mark_processed (url_frontier s) u)
    (Frontier.MarkProcessed u).

Definition add_error (s : CrawlerScheduler) : CrawlerScheduler :=
  let st := stats s in
  with_stats s
    (mkCrawlStats (urls_crawled st) (pages_stored st) (errors st + 1)
                  (duplicates_skipped st) (total_bytes_downloaded st)).

(** Truth value of an [Optional[str]]: neither [None] nor empty. *)
Definition is_set (o : option string) : bool :=
  match o with
  | Some text => Py.truthy text
  | None => false
  end.



(** [_queue_new_urls]; [now] is the [discovered_time] of the new tasks. *)
Definition _queue_new_urls (s : CrawlerScheduler) (now : Z)
      (parsed_content : Parser.ParsedContent) (depth : Z) : CrawlerScheduler :=
  if bool_decide (max_depth s < depth) then s
  else
    fold_left
      (fun s link =>
         let task :=
           Task.mkTask link depth Task.NORMAL
                           (Some (Parser.url parsed_content)) now 0 in
         with_frontier s (Frontier.add_url (url_frontier s) task).2 (Frontier.Add task))
      (Parser.links parsed_content) s.

(** [_process_url]; [now] is the value of [time.time()]. *)
Definition _process_url (w : World) (s : CrawlerScheduler) (now : Z)
      (url_task : Task.URLTask) : Fetcher.FetchResult * CrawlerScheduler :=
  let '(fetch_result, fetcher') :=
    Fetcher.fetch (fetcher s) (server w) now (Task.url url_task) in
  let st := stats s in
  let s :=
    mkScheduler (url_frontier s) fetcher' (duplicate_detector s)
      (mkCrawlStats (urls_crawled st + 1) (pages_stored st) (errors st)
                    (duplicates_skipped st) (total_bytes_downloaded st))
      (max_depth s) (retry_attempts s) (trace s) in
  (fetch_result,
   if is_set (Fetcher.error fetch_result) || negb (is_set (Fetcher.content fetch_result))
   then add_error (mark_failed s url_task)
   else
       let body := default "" (Fetcher.content fetch_result) in
       let st := stats s in
       let s :=
         with_stats s
           (mkCrawlStats (urls_crawled st) (pages_stored st) (errors st)
                         (duplicates_skipped st)
                         (total_bytes_downloaded st + Py.len body)) in
       let parsed_content := parse w (Task.url url_task) body in
       let '(duplicate_check, detector) :=
         Dedup.check_duplicate (duplicate_detector s) parsed_content in
       let s := with_detector s detector in
       if Dedup.is_duplicate duplicate_check false then
         let st := stats s in
         mark_processed
           (with_stats s
              (mkCrawlStats (urls_crawled st) (pages_stored st) (errors st)
                            (duplicates_skipped st + 1) (total_bytes_downloaded st)))
           (Task.url url_task)
       else
         match store w parsed_content with
         | StoreRaises => add_error (mark_failed s url_task)
         | Stored stored =>
             let st := stats s in
             let s :=
               if stored then
                 with_detector
                   (with_stats s
                      (mkCrawlStats (urls_crawled st) (pages_stored st + 1) (errors st)
                                    (duplicates_skipped st) (total_bytes_downloaded st)))
                   (Dedup.add_content (duplicate_detector s) parsed_content)
               else add_error s in
             let s := _queue_new_urls s now parsed_content (Task.depth url_task + 1) in
             mark_processed s (Task.url url_task)
         end).

End WithLib.

End Scheduler.

(** ** Data of the examples *)

Module Ex.
Import Frontier.

(** Bracketed hosts do not occur in the examples; this instance refuses
    them all. *)
Definition hosts : Urllib.BracketedHosts := fun _ => false.

Definition seed_root : URLTask := mkTask "https://a.example/" 0 HIGH None 0 0.
Definition seed_x : URLTask := mkTask "https://a.example/x" 0 HIGH None 0 0.
Definition link_b : URLTask :=
  mkTask "https://b.example/p" 1 NORMAL (Some "https://a.example/") 5 0.

Definition retried : URLTask := mkTask "https://a.example/y" 0 LOW None 0 3.

(** Scenario 1 of the specification: two seeds of one host, delay 2. *)
Definition two_seeds : URLFrontier :=
  @run hosts (init (Redis.empty []) 2) [Add seed_root; Add seed_x].

Definition seeded : URLFrontier := @run hosts two_seeds [Add link_b].

(** *** Library instances of the examples

    Stand-ins for the Python library, with what the examples need: decimal
    [int()], byte-for-byte decoding, [urljoin] of an origin with an absolute
    path, a robots parser that would refuse every URL, and digests that
    are never empty. *)

Fixpoint digits_value (acc : Z) (s : string) : option Z :=
  match s with
  | EmptyString => Some acc
  | String c s' =>
      if Py.isdigit c
      then digits_value (10 * acc + (Z.of_nat (nat_of_ascii c) - 48)) s'
      else None
  end.

Definition fetch_lib : Fetcher.PyLib := {|
  Fetcher.int_of_str := fun s => if Py.truthy s then digits_value 0 s else None;
  Fetcher.bytes_decode := fun _ bytes => Fetcher.Decoded (string_of_list_byte bytes);
  Fetcher.bytes_decode_ignore := string_of_list_byte;
  Fetcher.urljoin := fun base u => base +:+ u;
  Fetcher.RobotFileParser := unit;
  Fetcher.rfp_new := tt;
  Fetcher.rfp_set_url := fun _ rp => rp;
  Fetcher.rfp_can_fetch := fun _ _ _ => false |}.

Definition dedup_lib : Dedup.PyLib := {|
  Dedup.sha256_hexdigest := fun s => "sha256:" +:+ s;
  Dedup.md5_hexdigest := fun s => "md5:" +:+ s;
  Dedup.json_dumps := fun f => Py.join "," (Dedup.top_words f) |}.

Definition newline : string := String "010" "".

(** Scenario 2 of the specification: the robots.txt of b.example. *)
Definition robots_txt : string :=
  "User-agent: *" +:+ newline +:+ "Disallow: /private" +:+ newline.

Definition response (status : Z) (ctype : string) (text : string) : Fetcher.Response :=
  Fetcher.mkResponse status
    [("Content-Type", ctype)]
    (Some "utf-8")
    (if Py.truthy text then Fetcher.Chunk (list_byte_of_string text) Fetcher.Eof
     else Fetcher.Eof).

Definition page (status : Z) (ctype : string) (text : string) : Fetcher.http_outcome :=
  Fetcher.Responds (response status ctype text).

(** A response that declares its length. *)
Definition hello : Fetcher.http_outcome :=
  Fetcher.Responds
    (Fetcher.mkResponse 200
       [("Content-Type", "text/plain"); ("Content-Length", "11")]
       None
       (Fetcher.Chunk (list_byte_of_string "hello ") 
          (Fetcher.Chunk (list_byte_of_string "world") Fetcher.Eof))).

Definition web (u : string) : Fetcher.http_outcome :=
  if decide (u = "https://a.example/hello") then hello else
  if decide (u = "https://b.example/robots.txt") then page 200 "text/plain" robots_txt
  else if decide (u = "https://b.example/private") then
    page 200 "text/html; charset=utf-8" "<html><body>secret</body></html>"
  else if decide (u = "https://c.example/gone") then page 404 "text/html" ""
  else if decide (u = "https://c.example/moved") then
    page 404 "text/html" "<html><body>not here</body></html>"
  else Fetcher.Fails (Fetcher.ClientError "Cannot connect to host").

Definition private_task : URLTask := mkTask "https://b.example/private" 0 HIGH None 0 0.

Definition world : Scheduler.World :=
  Scheduler.mkWorld web
    (fun u html =>
       Parser.mkParsed u None (Some html) None None [] [] None None None [] 
                       (Z.of_nat (length (Py.words html))))
    (fun _ => Scheduler.Stored true).

(** A scheduler as [initialize] leaves it, with [retry_attempts = 3]. *)
Definition crawler : @Scheduler.CrawlerScheduler fetch_lib :=
  @Scheduler.mkScheduler fetch_lib
    (init (Redis.empty []) 1)
    (@Fetcher.new_fetcher fetch_lib "crawler-bot" true)
    (Dedup.new_detector (Redis.empty []))
    (Scheduler.mkCrawlStats 0 0 0 0 0) 3 3 [].

Definition bare_page : Parser.ParsedContent := Parser.empty_content "https://a.example/".

End Ex.

(** ** src/crawler/url_frontier.py: reloading and statistics *)

Module FrontierState.
Import Frontier.

(** [URLPriority(v)]: the member of that value; [None] is the
    [ValueError] of a value that no member has. *)
Definition priority_of_value (v : Z) : option URLPriority :=
  if decide (v = 1) then Some LOW
  else if decide (v = 2) then Some NORMAL
  else if decide (v = 3) then Some HIGH
  else if decide (v = 4) then Some CRITICAL
  else None.

(** [URLTask.from_dict] on a dictionary that holds the six keys that
    [to_dict] writes, which is what the durable lists store. *)
Definition from_dict (data : TaskDict) : option URLTask :=
  match priority_of_value (d_priority data) with
  | Some p =>
      Some (mkTask (d_url data) (d_depth data) p (d_parent_url data)
                   (d_discovered_time data) (d_retry_count data))
  | None => None
  end.

(** An awaited read of the store: it takes the next outcome of the script
    and changes nothing else. [None] is an exception, of the connection or
    of the command itself. *)
Definition read {A} (answer : Redis.t -> option A) (r : Redis.t)
    : option A * Redis.t :=
  match Redis.script r with
  | false :: rest =>
      (None, Redis.mk (Redis.lists r) (Redis.sets r) (Redis.log r) rest)
  | true :: rest =>
      (answer r, Redis.mk (Redis.lists r) (Redis.sets r) (Redis.log r) rest)
  | [] => (answer r, r)
  end.

(** [SMEMBERS key]: the empty set for a missing key, an error for a key
    that holds a list. *)
Definition smembers (key : string) : Redis.t -> option (gset string) * Redis.t :=
  read (fun r =>
          match Redis.lists r !! key with
          | Some _ => None
          | None => Some (default ∅ (Redis.sets r !! key))
          end).

(** [LRANGE key 0 -1]: the empty list for a missing key, an error for a
    key that holds a set. *)
Definition lrange (key : string) : Redis.t -> option (list TaskDict) * Redis.t :=
  read (fun r =>
          match Redis.sets r !! key with
          | Some _ => None
          | None => Some (default [] (Redis.lists r !! key))
          end).

(** [KEYS prefix*]: the keys that start with [prefix], in the order of the
    store. *)
Definition keys (prefix : string) : Redis.t -> option (list string) * Redis.t :=
  read (fun r =>
          Some (filter (fun k => Py.startswith prefix k = true)
                       (map fst (map_to_list (Redis.lists r))
                        ++ map fst (map_to_list (Redis.sets r))))).

(** [domain_key.split(':')[-1]] *)
Definition last_piece (domain_key : string) : string :=
  List.last (Py.split ":" domain_key) "".

(** The loop over [queue_data]. *)
Fixpoint load_items (domain : string) (queue_data : list TaskDict)
    (qs : list (string * list URLTask)) : option (list (string * list URLTask)) :=
  match queue_data with
  | [] => Some qs
  | item :: queue_data' =>
      match from_dict item with
      | Some task => load_items domain queue_data' (queue_append domain task qs)
      | None => None
      end
  end.

(** The loop over [domains]. *)
Fixpoint load_domains (domains : list string) (r : Redis.t)
    (qs : list (string * list URLTask))
    : option (Redis.t * list (string * list URLTask)) :=
  match domains with
  | [] => Some (r, qs)
  | domain_key :: domains' =>
      match lrange domain_key r with
      | (Some queue_data, r') =>
          match load_items (last_piece domain_key) queue_data qs with
          | Some qs' => load_domains domains' r' qs'
          | None => None
          end
      | (None, _) => None
      end
  end.

(** [initialize]; [None] when it raises. *)
Definition initialize (f : URLFrontier) : option URLFrontier :=
  match smembers processed_key (redis_client f) with
  | (Some processed, r1) =>
      match keys domain_queue_prefix r1 with
      | (Some domains, r2) =>
          match load_domains domains r2 (domain_queues f) with
          | Some (r3, qs) =>
              Some (mkFrontier r3 (politeness_delay f) qs
                               (domain_last_access f) processed)
          | None => None
          end
      | (None, _) => None
      end
  | (None, _) => None
  end.

(** The dictionary returned by [get_stats]. *)
Record Stats := mkStats {
  total_queued : Z;
  domains_with_urls : Z;
  total_processed : Z;
  total_domains : Z }.

(** [get_stats] *)
Definition get_stats (f : URLFrontier) : Stats :=
  mkStats
    (foldr Z.add 0
       (map (fun dq : string * list URLTask => Z.of_nat (length dq.2))
            (domain_queues f)))
    (Z.of_nat (length (filter (fun dq : string * list URLTask => dq.2 ≠ [])
                              (domain_queues f))))
    (Z.of_nat (size (processed_urls f)))
    (Z.of_nat (length (domain_queues f))).

(** The host of a queue key: the text after [domain_queue_prefix]. *)
Fixpoint drop_chars (n : nat) (s : string) : string :=
  match n, s with
  | S n', String _ s' => drop_chars n' s'
  | _, _ => s
  end.

Definition key_domain (domain_key : string) : string :=
  drop_chars (String.length domain_queue_prefix) domain_key.

(** The store answers every call to come. *)
Definition reliable (r : Redis.t) : Prop := Forall (eq true) (Redis.script r).

(** The list that the store holds for a queue; the store keeps no empty
    list. *)
Definition stored (q : list URLTask) : option (list TaskDict) :=
  match q with
  | [] => None
  | _ => Some (map to_dict q)
  end.

(** The durable state mirrors the frontier: each non-empty queue is the
    list stored under the key of its host, no other list is stored, no
    set lives under a queue key, and the stored set of processed URLs is
    the one in memory. *)
Definition mirrored (f : URLFrontier) : Prop :=
  (∀ d, Redis.lists (redis_client f) !! (domain_queue_prefix +:+ d)
        = stored (queue_of d (domain_queues f)))
  ∧ (∀ k, is_Some (Redis.lists (redis_client f) !! k) →
          ∃ d, k = domain_queue_prefix +:+ d)
  ∧ (∀ k, is_Some (Redis.sets (redis_client f) !! k) →
          Py.startswith domain_queue_prefix k = false)
  ∧ default ∅ (Redis.sets (redis_client f) !! processed_key) = processed_urls f.

Section WithUrlparse.

Context `{Urllib.BracketedHosts}.

(** The state of a frontier that runs on a store that answers. *)
Definition durable (f : URLFrontier) : Prop :=
  consistent f ∧ reliable (redis_client f) ∧ mirrored f.

End WithUrlparse.

End FrontierState.

(** ** src/crawler/fetcher.py: a caller of the fetcher *)

Module FetcherRuns.
Import Fetcher.

Section WithLib.

Context `{PyLib} `{Urllib.BracketedHosts}.

(** [reset_stats] *)
Definition reset_stats (w : WebFetcher) : WebFetcher :=
  mkFetcher (user_agent w) (respect_robots_txt w) (robots_checker w)
            (mkStats 0 0 0 0 0) (requested w).

(** A caller that awaits one [fetch] after the other; each request comes
    with the value of [time.time()] at its start. *)
Fixpoint fetch_each (w : WebFetcher) (server : string -> http_outcome)
    (requests : list (Z * string)) : list FetchResult * WebFetcher :=
  match requests with
  | [] => ([], w)
  | (now, u) :: requests' =>
      let '(result, w1) := fetch w server now u in
      let '(results, w2) := fetch_each w1 server requests' in
      (result :: results, w2)
  end.

(** The requests on which [session.get] raises. *)
Definition raises (server : string -> http_outcome) (request : Z * string) : bool :=
  match server request.2 with
  | Fails _ => true
  | Responds _ => false
  end.

(** The requests answered with a text type and a non-empty readable body. *)
Definition delivers (server : string -> http_outcome) (request : Z * string) : bool :=
  match server request.2 with
  | Fails _ => false
  | Responds r =>
      _is_text_content
        (Py.lower (default "" (headers_get "content-type" (headers r))))
      && match _read_content_safely r with
         | Some text => Py.truthy text
         | None => false
         end
  end.

End WithLib.

End FetcherRuns.

(** ** src/crawler/scheduler.py: the worker loop *)

Module Worker.
Import Scheduler.

(** How an iteration of [while self.is_running] ends. *)
Inductive loop := Break | Continue.

(** Truth value of an [Optional[int]] limit: [None] and 0 are false. *)
Definition limit_set (limit : option Z) : bool :=
  match limit with
  | Some n => negb (bool_decide (n = 0))
  | None => false
  end.

Section WithLib.

Context `{Fetcher.PyLib} `{Dedup.PyLib} `{Urllib.BracketedHosts}.

(** [add_seed_urls]; [now] is the [discovered_time] of the seed tasks. *)
Definition add_seed_urls (s : CrawlerScheduler) (now : Z) (seed_urls : list string)
    : CrawlerScheduler :=
  fold_left
    (fun s u =>
       let task := Task.mkTask u 0 Task.HIGH None now 0 in
       with_frontier s (Frontier.add_url (url_frontier s) task).2 (Frontier.Add task))
    seed_urls s.

(** One iteration of the loop of [_worker], entered with [is_running]
    true. [elapsed] is the value of [self.stats.elapsed_time], [now] the
    clock reading of [get_next_url] and [later] that of [_process_url].
    Every call made inside handles its own exceptions, so the handlers of
    the loop are not reached. *)
Definition _worker_iteration (w : World) (s : CrawlerScheduler)
      (elapsed now later : Z) (max_pages max_duration : option Z)
    : loop * CrawlerScheduler :=
  if limit_set max_pages
     && bool_decide (default 0 max_pages ≤ urls_crawled (stats s))
  then (Break, s)
  else if limit_set max_duration && bool_decide (default 0 max_duration ≤ elapsed)
  then (Break, s)
  else
    let '(next, f) := Frontier.get_next_url (url_frontier s) now in
    let s := with_frontier s f (Frontier.Next now) in
    match next with
    | None => (Continue, s)
    | Some url_task =>
        if bool_decide (max_depth s < Task.depth url_task)
        then (Continue, mark_processed s (Task.url url_task))
        else (Continue, (_process_url w s later url_task).2)
    end.

(** Every queued task is within the depth limit. *)
Definition depth_bounded (s : CrawlerScheduler) : Prop :=
  ∀ d t, t ∈ Frontier.queue_of d (Frontier.domain_queues (url_frontier s)) →
         Task.depth t ≤ max_depth s.

End WithLib.

End Worker.

(** ** src/storage/duplicate_detector.py: reloading, and a client of the
    detector *)

Module DedupRuns.
Import Dedup.

(** [initialize]: the four sets are read back from the store, one
    [SMEMBERS] after the other; [None] when a read raises. *)
Definition initialize (d : DuplicateDetector) : option DuplicateDetector :=
  match FrontierState.smembers url_hashes_key (redis_client d) with
  | (Some urls, r1) =>
      match FrontierState.smembers content_hashes_key r1 with
      | (Some contents, r2) =>
          match FrontierState.smembers title_hashes_key r2 with
          | (Some titles, r3) =>
              match FrontierState.smembers fuzzy_hashes_key r3 with
              | (Some fuzzies, r4) =>
                  Some (mkDetector r4 urls contents titles fuzzies (stats d))
              | (None, _) => None
              end
          | (None, _) => None
          end
      | (None, _) => None
      end
  | (None, _) => None
  end.

(** The calls of a client of the detector. *)
Inductive call :=
  | Check (p : ParsedContent)
  | Add (p : ParsedContent).

Definition is_check (c : call) : bool :=
  match c with
  | Check _ => true
  | Add _ => false
  end.

Section WithLib.

Context `{PyLib} `{Urllib.BracketedHosts}.

Definition step (d : DuplicateDetector) (c : call) : DuplicateDetector :=
  match c with
  | Check p => (check_duplicate d p).2
  | Add p => add_content d p
  end.

Definition run (d : DuplicateDetector) (cs : list call) : DuplicateDetector :=
  fold_left step cs d.

End WithLib.

Definition hash_keys : list string :=
  [url_hashes_key; content_hashes_key; title_hashes_key; fuzzy_hashes_key].

(** The stored sets are the sets in memory, and none of their keys holds
    a list. *)
Definition mirrored (d : DuplicateDetector) : Prop :=
  let r := redis_client d in
  default ∅ (Redis.sets r !! url_hashes_key) = url_hashes d
  ∧ default ∅ (Redis.sets r !! content_hashes_key) = content_hashes d
  ∧ default ∅ (Redis.sets r !! title_hashes_key) = title_hashes d
  ∧ default ∅ (Redis.sets r !! fuzzy_hashes_key) = fuzzy_hashes d
  ∧ ∀ k, k ∈ hash_keys → Redis.lists r !! k = None.

End DedupRuns.

(** ** src/crawler/parser.py: URLs of links and images *)

Module ContentParser.
Import Parser.

(** [s.endswith(suffix)] *)
Fixpoint endswith (suffix s : string) : bool :=
  if decide (s = suffix) then true
  else match s with
       | EmptyString => false
       | String _ s' => endswith suffix s'
       end.

(** [s.lstrip()], [s.rstrip()] and [s.strip()] *)
Fixpoint lstrip (s : string) : string :=
  match s with
  | EmptyString => EmptyString
  | String a s' => if Py.isspace a then lstrip s' else s
  end.

Fixpoint rstrip (s : string) : string :=
  match s with
  | EmptyString => EmptyString
  | String a s' =>
      match rstrip s' with
      | EmptyString => if Py.isspace a then EmptyString else String a EmptyString
      | r => String a r
      end
  end.

Definition strip (s : string) : string := rstrip (lstrip s).

(** The domain sets of [ContentParser.__init__], as the lists of their
    elements. *)
Record ContentParser := mkParser {
  allowed_domains : list string;
  blocked_domains : list string }.

Definition skip_extensions : list string :=
  [".jpg"; ".jpeg"; ".png"; ".gif"; ".bmp"; ".svg"; ".webp";
   ".pdf"; ".doc"; ".docx"; ".xls"; ".xlsx"; ".ppt"; ".pptx";
   ".zip"; ".rar"; ".tar"; ".gz"; ".exe"; ".dmg"; ".iso";
   ".mp3"; ".mp4"; ".avi"; ".mov"; ".wmv"; ".flv";
   ".css"; ".js"; ".ico"; ".woff"; ".woff2"; ".ttf"; ".eot"].

(** [urljoin(base, url)]; [None] is the [ValueError] of a URL that
    [urlparse] refuses. *)
Class UrlJoin := urljoin : string -> string -> option string.

Section WithLib.

Context `{UrlJoin} `{Urllib.BracketedHosts}.

(** [_normalize_url]: the URL without its fragment and with a lower-case
    host; the URL itself when [urlparse] raises. *)
Definition _normalize_url (u : string) : string :=
  match Urllib.urlparse u with
  | Some parsed =>
      Urllib.urlunparse
        (Urllib.mkParse (Urllib.scheme parsed) (Py.lower (Urllib.netloc parsed))
           (Urllib.path parsed) (Urllib.params parsed) (Urllib.query parsed) "")
  | None => u
  end.

(** [_is_valid_url] *)
Definition _is_valid_url (self : ContentParser) (u : string) : bool :=
  match Urllib.urlparse u with
  | None => false
  | Some parsed =>
      if negb (Py.truthy (Urllib.scheme parsed)) || negb (Py.truthy (Urllib.netloc parsed))
      then false
      else if negb (bool_decide (Urllib.scheme parsed ∈ ["http"; "https"]))
      then false
      else
        let domain := Py.lower (Urllib.netloc parsed) in
        if existsb (fun blocked_domain => Fetcher.is_substring blocked_domain domain)
                   (blocked_domains self)
        then false
        else if match allowed_domains self with
                | [] => false
                | _ =>
                    negb (existsb
                            (fun allowed_domain =>
                               Fetcher.is_substring allowed_domain domain)
                            (allowed_domains self))
                end
        then false
        else
          let path := Py.lower (Urllib.path parsed) in
          negb (existsb (fun ext => endswith ext path) skip_extensions)
  end.

(** The loop of [_extract_links] over the [href] values of the anchors of
    the page, in document order; [None] when [urljoin] raises. *)
Fixpoint link_urls (self : ContentParser) (base_url : string) (hrefs : list string)
    : option (list string) :=
  match hrefs with
  | [] => Some []
  | href_attr :: hrefs' =>
      let href := strip href_attr in
      if negb (Py.truthy href) || Py.startswith "#" href
      then link_urls self base_url hrefs'
      else
        match urljoin base_url href with
        | None => None
        | Some absolute_url =>
            let normalized_url := _normalize_url absolute_url in
            match link_urls self base_url hrefs' with
            | None => None
            | Some links =>
                Some (if _is_valid_url self normalized_url
                      then normalized_url :: links else links)
            end
        end
  end.

(** [_extract_links]: [list(links)] of the set of these URLs, in the
    order of the set. *)
Definition _extract_links (self : ContentParser) (base_url : string)
    (hrefs : list string) : option (list string) :=
  match link_urls self base_url hrefs with
  | Some links => Some (elements (list_to_set links : gset string))
  | None => None
  end.

(** The loop of [_extract_images] over the [src] values of the images. *)
Fixpoint image_urls (self : ContentParser) (base_url : string) (srcs : list string)
    : option (list string) :=
  match srcs with
  | [] => Some []
  | src_attr :: srcs' =>
      let src := strip src_attr in
      if Py.truthy src then
        match urljoin base_url src with
        | None => None
        | Some absolute_url =>
            let normalized_url := _normalize_url absolute_url in
            match image_urls self base_url srcs' with
            | None => None
            | Some images =>
                Some (if _is_valid_url self normalized_url
                      then normalized_url :: images else images)
            end
        end
      else image_urls self base_url srcs'
  end.

Definition _extract_images (self : ContentParser) (base_url : string)
    (srcs : list string) : option (list string) :=
  match image_urls self base_url srcs with
  | Some images => Some (elements (list_to_set images : gset string))
  | None => None
  end.

(** [get_outbound_links] *)
Definition get_outbound_links (self : ContentParser) (parsed_content : ParsedContent)
    : list string :=
  filter (fun link => _is_valid_url self link = true) (links parsed_content).

End WithLib.

End ContentParser.

(** *** Data of the parser examples

    A stand-in for [urljoin]: a reference that carries a scheme is taken as
    it is, any other is appended to the base. *)

Module ExParser.

Definition joined : ContentParser.UrlJoin :=
  fun base u => Some (if Py.contains ":" u then u else base +:+ u).

Definition site : ContentParser.ContentParser :=
  ContentParser.mkParser [] ["ads."].

Definition anchors : list string :=
  [" /docs#intro "; "#top"; "https://ads.example/x"; "/file.PDF"; "/docs"].

End ExParser.

(** ** src/utils/config.py and the start of a crawl *)

Module Config.








End Config.

Module Startup.
Import Scheduler.

(** The task that [add_seed_urls] builds for a seed URL. *)
Definition seed_task (now : Z) (u : string) : Task.URLTask :=
  Task.mkTask u 0 Task.HIGH None now 0.

Section WithLib.

Context `{Fetcher.PyLib} `{Dedup.PyLib} `{Urllib.BracketedHosts}.

(** The seeding step of [start_crawling]: seeds are added only when the
    frontier is empty. *)
Definition seed_if_empty (s : CrawlerScheduler) (now : Z) (seed_urls : list string)
    : CrawlerScheduler :=
  if Frontier.is_empty (url_frontier s)
  then Worker.add_seed_urls s now seed_urls
  else s.

End WithLib.

End Startup.

(** * Properties *)

Section FrontierFacts.
Import Frontier.

(** *** Queues as dictionary entries *)

Lemma queue_of_elem d q (qs : list (string * list URLTask)) :
  NoDup (map fst qs) → (d, q) ∈ qs → queue_of d qs = q.
Proof.
  induction qs as [|[d' q'] qs IH]; simpl; intros Hnd Hin.
  - by apply elem_of_nil in Hin.
  - apply NoDup_cons in Hnd as [Hd' Hnd].
    apply elem_of_cons in Hin as [Heq|Hin].
    + inversion Heq; subst. by rewrite decide_True.
    + destruct (decide (d' = d)) as [->|Hne]; [|by apply IH].
      exfalso. apply Hd'. apply list_elem_of_fmap. by exists (d, q).
Qed.

Lemma queue_of_nonempty_elem d (qs : list (string * list URLTask)) :
  queue_of d qs ≠ [] → (d, queue_of d qs) ∈ qs.
Proof.
  induction qs as [|[d' q'] qs IH]; simpl; [done|].
  destruct (decide (d' = d)) as [->|Hne]; intros Hq.
  - apply elem_of_cons; by left.
  - apply elem_of_cons; right. by apply IH.
Qed.

Lemma queue_of_set_eq d q' (qs : list (string * list URLTask)) :
  queue_of d qs ≠ [] → queue_of d (queue_set d q' qs) = q'.
Proof.
  induction qs as [|[d' q] qs IH]; simpl; [done|].
  destruct (decide (d' = d)) as [->|Hne]; simpl; intros Hq.
  - by rewrite decide_True.
  - rewrite decide_False; [|done]. by apply IH.
Qed.

Lemma queue_of_set_ne d d0 q' (qs : list (string * list URLTask)) :
  d0 ≠ d → queue_of d0 (queue_set d q' qs) = queue_of d0 qs.
Proof.
  intros Hne. induction qs as [|[d' q] qs IH]; simpl; [done|].
  destruct (decide (d' = d)) as [->|Hne']; simpl.
  - rewrite !decide_False; done.
  - destruct (decide (d' = d0)); [done|]. apply IH.
Qed.

Lemma queue_set_keys d q' (qs : list (string * list URLTask)) :
  map fst (queue_set d q' qs) = map fst qs.
Proof.
  induction qs as [|[d' q] qs IH]; simpl; [done|].
  destruct (decide (d' = d)); simpl; by f_equal.
Qed.

Lemma queue_of_append_eq d t (qs : list (string * list URLTask)) :
  queue_of d (queue_append d t qs) = queue_of d qs ++ [t].
Proof.
  induction qs as [|[d' q] qs IH]; simpl.
  - by rewrite decide_True.
  - destruct (decide (d' = d)) as [->|Hne]; simpl.
    + by rewrite decide_True.
    + by rewrite decide_False.
Qed.

Lemma queue_of_append_ne d d0 t (qs : list (string * list URLTask)) :
  d0 ≠ d → queue_of d0 (queue_append d t qs) = queue_of d0 qs.
Proof.
  intros Hne. induction qs as [|[d' q] qs IH]; simpl.
  - by rewrite decide_False.
  - destruct (decide (d' = d)) as [->|Hne']; simpl.
    + rewrite !decide_False; done.
    + destruct (decide (d' = d0)); [done|]. apply IH.
Qed.

Lemma queue_append_keys d t (qs : list (string * list URLTask)) :
  map fst (queue_append d t qs)
  = if bool_decide (d ∈ map fst qs) then map fst qs else map fst qs ++ [d].
Proof.
  induction qs as [|[d' q] qs IH]; simpl; [done|].
  destruct (decide (d' = d)) as [->|Hne]; simpl.
  - rewrite bool_decide_eq_true_2; [done|]. apply elem_of_cons; by left.
  - rewrite IH. case_bool_decide as Hin.
    + rewrite bool_decide_eq_true_2; [done|]. apply elem_of_cons; by right.
    + rewrite bool_decide_eq_false_2; [done|].
      intros [?|?]%elem_of_cons; congruence.
Qed.

(** *** The two scans for the task of highest priority *)

Lemma max_priority_elem b rest : max_priority b rest ∈ b :: rest.
Proof.
  revert b. induction rest as [|t rest IH]; intros b; simpl.
  - apply elem_of_cons; by left.
  - specialize (IH (if bool_decide (value (priority b) < value (priority t))
                    then t else b)).
    apply elem_of_cons in IH as [->|IH].
    + case_bool_decide; set_solver.
    + set_solver.
Qed.

Lemma max_priority_ge b rest :
  value (priority b) ≤ value (priority (max_priority b rest)).
Proof.
  revert b. induction rest as [|t rest IH]; intros b; simpl; [lia|].
  etrans; [|apply IH]. case_bool_decide; lia.
Qed.

Lemma max_priority_max b rest t :
  t ∈ b :: rest → value (priority t) ≤ value (priority (max_priority b rest)).
Proof.
  revert b. induction rest as [|t' rest IH]; intros b Hin; simpl.
  - apply elem_of_cons in Hin as [->|Hin]; [lia|]. by apply elem_of_nil in Hin.
  - apply elem_of_cons in Hin as [->|Hin].
    + etrans; [|apply max_priority_ge]. case_bool_decide; lia.
    + apply elem_of_cons in Hin as [->|Hin].
      * etrans; [|apply max_priority_ge]. case_bool_decide; lia.
      * apply IH. set_solver.
Qed.

Lemma scan_best_some b i k q bt bi :
  scan_best (Some (b, i)) k q = Some (bt, bi) →
  value (priority b) ≤ value (priority bt)
  ∧ (∀ t, t ∈ q → value (priority t) ≤ value (priority bt))
  ∧ ((bt = b ∧ bi = i ∧ ∀ t, t ∈ q → value (priority t) ≤ value (priority b))
     ∨ (∃ j, bi = (k + j)%nat ∧ q !! j = Some bt
            ∧ value (priority b) < value (priority bt)
            ∧ ∀ j' t, (j' < j)%nat → q !! j' = Some t →
                      value (priority t) < value (priority bt))).
Proof.
  revert b i k. induction q as [|t q IH]; intros b i k; simpl.
  - intros [= -> ->]. split; [lia|]. split; [set_solver|]. left. set_solver.
  - case_bool_decide as Hlt; intros Hs; apply IH in Hs as (Hge & Hall & Hcase).
    + split; [lia|]. split.
      { intros t' [->|Hin]%elem_of_cons; [lia|]. by apply Hall. }
      right. destruct Hcase as [(-> & -> & Hle)|(j & -> & Hj & Hlt' & Hfirst)].
      * exists 0%nat. split; [lia|]. split; [done|]. split; [lia|]. intros; lia.
      * exists (S j). split; [lia|]. split; [done|]. split; [lia|].
        intros [|j'] t' Hj' Hl; simpl in Hl.
        -- injection Hl as <-. lia.
        -- eapply Hfirst; [|done]. lia.
    + split; [lia|]. split.
      { intros t' [->|Hin]%elem_of_cons; [lia|]. by apply Hall. }
      destruct Hcase as [(-> & -> & Hle)|(j & -> & Hj & Hlt' & Hfirst)].
      * left. split; [done|]. split; [done|].
        intros t' [->|Hin]%elem_of_cons; [lia|]. by apply Hle.
      * right. exists (S j). split; [lia|]. split; [done|]. split; [lia|].
        intros [|j'] t' Hj' Hl; simpl in Hl.
        -- injection Hl as <-. lia.
        -- eapply Hfirst; [|done]. lia.
Qed.

(** On a non-empty queue the scan finds the first task of maximal priority. *)
Lemma scan_best_spec q :
  q ≠ [] →
  ∃ bt bi, scan_best None 0 q = Some (bt, bi)
    ∧ q !! bi = Some bt
    ∧ (∀ t, t ∈ q → value (priority t) ≤ value (priority bt))
    ∧ (∀ j t, (j < bi)%nat → q !! j = Some t →
              value (priority t) < value (priority bt)).
Proof.
  destruct q as [|t q]; [done|]. intros _. simpl.
  destruct (scan_best (Some (t, 0%nat)) 1 q) as [[bt bi]|] eqn:Hs.
  - exists bt, bi. split; [done|].
    apply scan_best_some in Hs as (Hge & Hall & Hcase).
    destruct Hcase as [(-> & -> & Hle)|(j & -> & Hj & Hlt & Hfirst)].
    + split; [done|]. split.
      * intros t' [->|Hin]%elem_of_cons; [lia|]. by apply Hle.
      * intros; lia.
    + split; [done|]. split.
      * intros t' [->|Hin]%elem_of_cons; [lia|]. by apply Hall.
      * intros [|j'] t' Hj' Hl; simpl in Hl.
        -- injection Hl as <-. lia.
        -- eapply Hfirst; [|done]. lia.
  - exfalso. revert Hs. generalize (t, 0%nat) 1%nat. clear.
    induction q as [|t q IH]; intros [b i] k; simpl; [done|].
    case_bool_decide; apply IH.
Qed.

End FrontierFacts.

Section FrontierSelection.
Import Frontier.

Lemma key_lt_spec a b :
  key_lt a b = true ↔ a.1 < b.1 ∨ (a.1 = b.1 ∧ a.2 < b.2).
Proof.
  unfold key_lt. rewrite orb_true_iff, andb_true_iff, !bool_decide_eq_true. done.
Qed.

Lemma key_lt_false a b :
  key_lt a b = false ↔ b.1 < a.1 ∨ (a.1 = b.1 ∧ b.2 ≤ a.2).
Proof.
  rewrite <-not_true_iff_false, key_lt_spec. lia.
Qed.

Lemma insert_desc_nonempty x l : insert_desc x l ≠ [].
Proof. destruct l; simpl; [done|]. by destruct (key_lt _ _). Qed.

Lemma sort_desc_nil l : sort_desc l = [] → l = [].
Proof.
  destruct l as [|a l]; [done|]. simpl. intros Hs.
  by apply insert_desc_nonempty in Hs.
Qed.

(** The head of the sorted list is an entry of greatest key. *)
Lemma sort_desc_head l x r :
  sort_desc l = x :: r →
  x ∈ l ∧ ∀ y, y ∈ l → key_lt (sort_key x) (sort_key y) = false.
Proof.
  revert x r. induction l as [|a l IH]; intros x r; simpl; [done|].
  destruct (sort_desc l) as [|y0 s] eqn:Hs; simpl.
  - apply sort_desc_nil in Hs as ->. intros [= <- <-]. split; [apply elem_of_cons; auto|].
    intros y [->|Hy]%elem_of_cons; [|by apply elem_of_nil in Hy].
    apply key_lt_false. lia.
  - destruct (IH y0 s eq_refl) as [Hin Hmax].
    destruct (key_lt (sort_key a) (sort_key y0)) eqn:Hlt.
    + intros [= <- <-]. split; [apply elem_of_cons; auto|].
      intros y [->|Hy]%elem_of_cons; [|by apply Hmax].
      apply key_lt_spec in Hlt. apply key_lt_false. lia.
    + intros [= <- <-]. split; [apply elem_of_cons; auto|].
      intros y [->|Hy]%elem_of_cons.
      * apply key_lt_false. lia.
      * specialize (Hmax y Hy). apply key_lt_false in Hlt, Hmax.
        apply key_lt_false. lia.
Qed.

Lemma available_domains_elem f now d m tsa :
  (d, m, tsa) ∈ available_domains f now ↔
  ∃ first rest, (d, first :: rest) ∈ domain_queues f
    ∧ m = max_priority first rest
    ∧ tsa = now - default 0 (domain_last_access f !! d)
    ∧ politeness_delay f ≤ tsa.
Proof.
  unfold available_domains. rewrite list_elem_of_In, in_flat_map. split.
  - intros ([d' q] & Hin & Hx). simpl in Hx. destruct q as [|first rest]; [done|].
    case_bool_decide as Hd; [|done].
    destruct Hx as [[= <- <- <-]|[]].
    exists first, rest. by rewrite list_elem_of_In.
  - intros (first & rest & Hin & -> & -> & Hd).
    exists (d, first :: rest). split; [by apply list_elem_of_In|]. simpl.
    rewrite bool_decide_eq_true_2; [|done]. by left.
Qed.

(** The hosts collected by the loop are exactly the ready ones. *)
Lemma available_domains_ready f now d :
  wf f →
  (∃ m tsa, (d, m, tsa) ∈ available_domains f now) ↔ ready f now d.
Proof.
  intros Hwf. unfold ready. split.
  - intros (m & tsa & (first & rest & Hin & -> & -> & Hd)%available_domains_elem).
    rewrite (queue_of_elem _ _ _ Hwf Hin). done.
  - intros [Hq Hd].
    destruct (queue_of d (domain_queues f)) as [|first rest] eqn:Hqo; [done|].
    exists (max_priority first rest), (now - default 0 (domain_last_access f !! d)).
    apply available_domains_elem. exists first, rest. split; [|done].
    rewrite <-Hqo. apply queue_of_nonempty_elem. by rewrite Hqo.
Qed.

(** What [get_next_url] does when it hands out a task. *)
Lemma get_next_url_some f now task f' :
  wf f →
  get_next_url f now = (Some task, f') →
  ∃ h i,
    ready f now h
    ∧ queue_of h (domain_queues f) !! i = Some task
    ∧ (∀ d t, ready f now d → t ∈ queue_of d (domain_queues f) →
              value (priority t) ≤ value (priority task))
    ∧ (∀ d t, ready f now d → t ∈ queue_of d (domain_queues f) →
              value (priority t) = value (priority task) →
              now - default 0 (domain_last_access f !! d)
              ≤ now - default 0 (domain_last_access f !! h))
    ∧ (∀ j t, (j < i)%nat → queue_of h (domain_queues f) !! j = Some t →
              value (priority t) < value (priority task))
    ∧ domain_queues f'
      = queue_set h (delete i (queue_of h (domain_queues f))) (domain_queues f)
    ∧ domain_last_access f' = <[h := now]> (domain_last_access f)
    ∧ processed_urls f' = processed_urls f
    ∧ politeness_delay f' = politeness_delay f
    ∧ Redis.log (redis_client f')
      = Redis.log (redis_client f)
          ++ [Redis.LREM (domain_queue_prefix +:+ h) 1 (to_dict task)].
Proof.
  intros Hwf. unfold get_next_url.
  destruct (sort_desc (available_domains f now)) as [|[[h m] tsa] r] eqn:Hsort; [done|].
  apply sort_desc_head in Hsort as [Hin Hmax].
  pose proof Hin as Hav.
  apply available_domains_elem in Hin as (first & rest & Hin & -> & -> & Hd).
  pose proof (queue_of_elem _ _ _ Hwf Hin) as Hq.
  destruct (scan_best_spec (queue_of h (domain_queues f))) as
    (bt & bi & Hscan & Hbi & Hall & Hfirst); [by rewrite Hq|].
  rewrite Hscan.
  destruct (Redis.call _ _) as [ok r'] eqn:Hcall.
  intros [= <- <-]. exists h, bi. simpl.
  assert (Hbest : value (priority bt) = value (priority (max_priority first rest))).
  { apply Z.le_antisymm.
    - apply max_priority_max. rewrite <-Hq. by eapply list_elem_of_lookup_2.
    - apply Hall. rewrite Hq. apply max_priority_elem. }
  assert (Hcmp : ∀ d t, ready f now d → t ∈ queue_of d (domain_queues f) →
            key_lt (sort_key (h, max_priority first rest,
                              now - default 0 (domain_last_access f !! h)))
                   (sort_key (d, t, now - default 0 (domain_last_access f !! d)))
            = false).
  { intros d t [Hqd Hdd] Ht.
    destruct (queue_of d (domain_queues f)) as [|fd rd] eqn:Hqo; [done|].
    assert (Hdin : (d, fd :: rd) ∈ domain_queues f).
    { rewrite <-Hqo. apply queue_of_nonempty_elem. by rewrite Hqo. }
    specialize (Hmax (d, max_priority fd rd,
                      now - default 0 (domain_last_access f !! d))).
    rewrite key_lt_false in Hmax. rewrite key_lt_false. unfold sort_key in *.
    simpl in *.
    pose proof (max_priority_max fd rd t Ht).
    destruct Hmax as [Hm|Hm]; [|lia|lia].
    apply available_domains_elem. by exists fd, rd. }
  split; [split; [by rewrite Hq|done]|].
  split; [done|].
  split.
  { intros d t Hr Ht. specialize (Hcmp d t Hr Ht).
    apply key_lt_false in Hcmp. unfold sort_key in Hcmp; simpl in Hcmp. lia. }
  split.
  { intros d t Hr Ht Heq. specialize (Hcmp d t Hr Ht).
    apply key_lt_false in Hcmp. unfold sort_key in Hcmp; simpl in Hcmp. lia. }
  split; [done|].
  do 4 (split; [done|]).
  unfold Redis.call in Hcall.
  destruct (Redis.script (redis_client f)) as [|[] ?]; by injection Hcall as <- <-.
Qed.

(** When [get_next_url] hands out nothing, no host is ready and the
    frontier is the one it was called on. *)
Lemma get_next_url_none f now f' :
  wf f →
  get_next_url f now = (None, f') →
  f' = f ∧ ∀ d, ¬ ready f now d.
Proof.
  intros Hwf. unfold get_next_url.
  destruct (sort_desc (available_domains f now)) as [|[[h m] tsa] r] eqn:Hsort.
  - intros [= <-]. split; [done|]. intros d Hr.
    apply available_domains_ready in Hr as (m & tsa & Hin); [|done].
    apply sort_desc_nil in Hsort. rewrite Hsort in Hin. by apply elem_of_nil in Hin.
  - apply sort_desc_head in Hsort as [Hin _].
    apply available_domains_elem in Hin as (first & rest & Hin & -> & -> & Hd).
    pose proof (queue_of_elem _ _ _ Hwf Hin) as Hq.
    destruct (scan_best_spec (queue_of h (domain_queues f))) as
      (bt & bi & Hscan & _); [by rewrite Hq|].
    rewrite Hscan. by destruct (Redis.call _ _).
Qed.

End FrontierSelection.

Section FrontierRuns.
Import Frontier.
Context `{Urllib.BracketedHosts}.

Lemma init_consistent redis delay : consistent (init redis delay).
Proof.
  split; [apply NoDup_nil_2|]. simpl. intros d t Hin. by apply elem_of_nil in Hin.
Qed.

Lemma add_url_fields f task :
  let f' := (add_url f task).2 in
  politeness_delay f' = politeness_delay f
  ∧ domain_last_access f' = domain_last_access f
  ∧ processed_urls f' = processed_urls f
  ∧ domain_queues f'
    = if bool_decide (url task ∈ processed_urls f) then domain_queues f
      else queue_append (_get_domain (url task)) task (domain_queues f).
Proof.
  unfold add_url. case_bool_decide; simpl; [done|].
  by destruct (Redis.call _ _).
Qed.

Lemma mark_processed_fields f u :
  let f' := mark_processed f u in
  politeness_delay f' = politeness_delay f
  ∧ domain_last_access f' = domain_last_access f
  ∧ processed_urls f' = {[u]} ∪ processed_urls f
  ∧ domain_queues f' = domain_queues f.
Proof. unfold mark_processed. by destruct (Redis.call _ _). Qed.

Lemma add_url_consistent f task : consistent f → consistent (add_url f task).2.
Proof.
  intros [Hwf Hhost].
  destruct (add_url_fields f task) as (_ & _ & _ & Hq).
  unfold consistent, wf. rewrite Hq. case_bool_decide; [done|]. split.
  - rewrite queue_append_keys. case_bool_decide as Hin; [done|].
    apply NoDup_app. split; [done|]. split; [|apply NoDup_singleton].
    intros x Hx ->%list_elem_of_singleton. done.
  - intros d t. destruct (decide (d = _get_domain (url task))) as [->|Hne].
    + rewrite queue_of_append_eq.
      intros [Hin|Heq%list_elem_of_singleton]%elem_of_app; [by apply Hhost|by subst].
    + rewrite queue_of_append_ne; [|done]. apply Hhost.
Qed.

Lemma mark_processed_consistent f u : consistent f → consistent (mark_processed f u).
Proof.
  intros Hc. destruct (mark_processed_fields f u) as (_ & _ & _ & Hq).
  unfold consistent, wf. by rewrite Hq.
Qed.

Lemma mark_failed_consistent f task n :
  consistent f → consistent (mark_failed f task n).2.
Proof.
  intros Hc. unfold mark_failed. case_bool_decide.
  - pose proof (add_url_consistent f
      (mkTask (url task) (depth task) LOW (parent_url task)
              (discovered_time task) (retry_count task + 1)) Hc) as Hc'.
    by destruct (add_url f _).
  - by apply mark_processed_consistent.
Qed.

Lemma queue_of_not_key d (qs : list (string * list URLTask)) :
  d ∉ map fst qs → queue_of d qs = [].
Proof.
  induction qs as [|[d' q] qs IH]; simpl; [done|]. intros Hd.
  apply not_elem_of_cons in Hd as [Hne Hd].
  rewrite decide_False; [|done]. by apply IH.
Qed.

Lemma queue_of_filter_nonempty d (qs : list (string * list URLTask)) :
  NoDup (map fst qs) →
  queue_of d (filter (fun dq : string * list URLTask => dq.2 ≠ []) qs) = queue_of d qs.
Proof.
  induction qs as [|[d' q] qs IH]; [done|]. simpl.
  intros [Hd' Hnd]%NoDup_cons. rewrite filter_cons. simpl.
  destruct (decide (q ≠ [])) as [Hq|Hq]; simpl.
  - by rewrite IH.
  - rewrite IH; [|done]. destruct (decide (d' = d)) as [->|]; [|done].
    rewrite queue_of_not_key; [|done]. destruct q; [done|]. by exfalso; apply Hq.
Qed.

Lemma cleanup_consistent f : consistent f → consistent (cleanup f).
Proof.
  intros [Hwf Hhost]. unfold consistent, wf, cleanup. simpl. split.
  - assert (Hs : map fst (filter (fun dq : string * list URLTask => dq.2 ≠ [])
                                   (domain_queues f))
                 `sublist_of` map fst (domain_queues f))
      by apply (fmap_sublist fst), sublist_filter.
    exact (sublist_NoDup _ _ Hwf Hs).
  - intros d t. rewrite queue_of_filter_nonempty; [|done]. apply Hhost.
Qed.

Lemma get_next_url_consistent f now :
  consistent f → consistent (get_next_url f now).2.
Proof.
  intros [Hwf Hhost]. destruct (get_next_url f now) as [[task|] f'] eqn:Hn; simpl.
  - apply get_next_url_some in Hn as (h & i & [Hq _] & Hi & _ & _ & _ & Hqs & _); [|done].
    unfold consistent, wf. rewrite Hqs, queue_set_keys. split; [done|].
    intros d t. destruct (decide (d = h)) as [->|Hne].
    + rewrite queue_of_set_eq; [|done]. intros Hin. apply Hhost.
      eapply elem_of_sublist; [exact Hin|apply sublist_delete].
    + rewrite queue_of_set_ne; [|done]. apply Hhost.
  - by apply get_next_url_none in Hn as [-> _].
Qed.

Lemma step_consistent f c : consistent f → consistent (step f c).2.
Proof.
  destruct c; simpl.
  - apply add_url_consistent.
  - apply get_next_url_consistent.
  - apply mark_processed_consistent.
  - apply mark_failed_consistent.
  - apply cleanup_consistent.
Qed.

Lemma run_consistent f cs : consistent f → consistent (run f cs).
Proof.
  revert f. induction cs as [|c cs IH]; intros f Hc; simpl; [done|].
  apply IH. by apply step_consistent.
Qed.

Lemma mark_failed_fields f task n :
  let f' := (mark_failed f task n).2 in
  politeness_delay f' = politeness_delay f
  ∧ domain_last_access f' = domain_last_access f.
Proof.
  unfold mark_failed. case_bool_decide; simpl.
  - destruct (add_url_fields f
      (mkTask (url task) (depth task) LOW (parent_url task)
              (discovered_time task) (retry_count task + 1))) as (? & ? & _).
    by destruct (add_url f _).
  - by destruct (mark_processed_fields f (url task)) as (? & ? & _).
Qed.

(** A call keeps the delay, and it keeps the last access of every host it
    does not hand a task of. *)
Lemma step_last_access f c h :
  consistent f →
  politeness_delay (step f c).2 = politeness_delay f
  ∧ (match (step f c).1 with
     | Some task => _get_domain (url task) ≠ h
     | None => True
     end →
     domain_last_access (step f c).2 !! h = domain_last_access f !! h).
Proof.
  intros [Hwf Hhost]. destruct c; simpl.
  - by destruct (add_url_fields f task) as (-> & -> & _).
  - destruct (get_next_url f now) as [[task|] f'] eqn:Hn; simpl.
    + apply get_next_url_some in Hn
        as (h0 & i & _ & Hi & _ & _ & _ & _ & -> & _ & -> & _); [|done].
      split; [done|]. intros Hne. rewrite lookup_insert_ne; [done|].
      intros ->. apply Hne, Hhost. by eapply list_elem_of_lookup_2.
    + by apply get_next_url_none in Hn as [-> _].
  - by destruct (mark_processed_fields f u) as (-> & -> & _).
  - by destruct (mark_failed_fields f task max_retries) as (-> & ->).
  - done.
Qed.

Lemma run_last_access f cs h :
  consistent f →
  serves h f cs = false →
  politeness_delay (run f cs) = politeness_delay f
  ∧ domain_last_access (run f cs) !! h = domain_last_access f !! h.
Proof.
  revert f. induction cs as [|c cs IH]; intros f Hc; simpl; [done|].
  destruct (step_last_access f c h Hc) as [Hd Hla].
  pose proof (step_consistent f c Hc) as Hc'.
  destruct (step f c) as [[task|] f'] eqn:Hs; simpl in *.
  - intros [Hne Hserves]%orb_false_iff. apply bool_decide_eq_false in Hne.
    destruct (IH f' Hc' Hserves) as [-> ->]. split; [done|]. by apply Hla.
  - intros Hserves. destruct (IH f' Hc' Hserves) as [-> ->]. split; [done|].
    by apply Hla.
Qed.

Lemma run_politeness_delay f cs :
  consistent f → politeness_delay (run f cs) = politeness_delay f.
Proof.
  revert f. induction cs as [|c cs IH]; intros f Hc; simpl; [done|].
  rewrite IH; [|by apply step_consistent].
  by destruct (step_last_access f c "" Hc) as [-> _].
Qed.

End FrontierRuns.

Section FrontierAdd.
Import Frontier.
Context `{Urllib.BracketedHosts}.

(** What [add_url] does: a processed URL is refused and nothing changes;
    any other task is appended to the queue of its host and an RPUSH is
    issued, which appends the serialised task to the durable list when the
    store answers. The returned value follows the store: [False] when the
    RPUSH raises, although the task was appended in memory. *)
Lemma add_url_cases f task :
  let domain := _get_domain (url task) in
  let key := domain_queue_prefix +:+ domain in
  let f' := (add_url f task).2 in
  (url task ∈ processed_urls f → add_url f task = (false, f))
  ∧ (url task ∉ processed_urls f →
       queue_of domain (domain_queues f') = queue_of domain (domain_queues f) ++ [task]
       ∧ processed_urls f' = processed_urls f
       ∧ Redis.log (redis_client f')
         = Redis.log (redis_client f) ++ [Redis.RPUSH key (to_dict task)]
       ∧ (add_url f task).1
         = match Redis.script (redis_client f) with
           | false :: _ => false
           | _ => true
           end
       ∧ ((add_url f task).1 = true →
            Redis.lists (redis_client f') !! key
            = Some (default [] (Redis.lists (redis_client f) !! key) ++ [to_dict task]))).
Proof.
  intros domain key f'. unfold f', add_url. split; intros Hp.
  - by rewrite bool_decide_eq_true_2.
  - rewrite bool_decide_eq_false_2 by done. fold domain. fold key.
    unfold Redis.call.
    destruct (Redis.script (redis_client f)) as [|[] rest]; simpl;
      rewrite queue_of_append_eq, ?lookup_insert_eq; done.
Qed.

Lemma step_processed f c u :
  u ∈ processed_urls f → u ∈ processed_urls (step f c).2.
Proof.
  intros Hu. destruct c; simpl.
  - destruct (add_url_fields f task) as (_ & _ & -> & _). done.
  - unfold get_next_url.
    destruct (sort_desc _) as [|[[h m] tsa] r]; [done|].
    destruct (scan_best _ _ _) as [[bt bi]|]; [|done].
    by destruct (Redis.call _ _).
  - destruct (mark_processed_fields f u0) as (_ & _ & -> & _). apply elem_of_union; by right.
  - unfold mark_failed. case_bool_decide.
    + destruct (add_url_fields f
        (mkTask (url task) (depth task) LOW (parent_url task)
                (discovered_time task) (retry_count task + 1))) as (_ & _ & Hp & _).
      destruct (add_url f _). simpl in *. by rewrite Hp.
    + simpl. destruct (mark_processed_fields f (url task)) as (_ & _ & -> & _).
      apply elem_of_union; by right.
  - done.
Qed.

(** Once marked processed, a URL is refused by every later [add_url]. *)
Lemma add_after_mark_processed f u cs task :
  url task = u → (add_url (run (mark_processed f u) cs) task).1 = false.
Proof.
  intros <-.
  assert (Hin : url task ∈ processed_urls (run (mark_processed f (url task)) cs)).
  { assert (H0 : url task ∈ processed_urls (mark_processed f (url task))).
    { destruct (mark_processed_fields f (url task)) as (_ & _ & -> & _).
      apply elem_of_union; left. by apply elem_of_singleton. }
    revert H0. generalize (mark_processed f (url task)).
    induction cs as [|c cs IH]; intros g Hg; simpl; [done|].
    apply IH. by apply step_processed. }
  unfold add_url. by rewrite bool_decide_eq_true_2.
Qed.

End FrontierAdd.

Section FrontierClaims.
Import Frontier.
Context `{Urllib.BracketedHosts}.

(** Politeness without a reload. In every run of calls that starts from
    a freshly constructed frontier, one that [initialize] did not fill:
    [get_next_url] hands out a task only if the last access of the task's
    host (0 if there was none) lies at least [politeness_delay] back; and
    between two successive calls that hand out tasks of one host, at times
    [t1] and [t2], at least [politeness_delay] elapses. *)
Theorem politeness_gap redis delay pre :
  let f := run (init redis delay) pre in
  (∀ now task f',
      get_next_url f now = (Some task, f') →
      delay ≤ now - default 0 (domain_last_access f !! _get_domain (url task)))
  ∧ (∀ t1 a f2 mid t2 b f4,
      get_next_url f t1 = (Some a, f2) →
      serves (_get_domain (url a)) f2 mid = false →
      get_next_url (run f2 mid) t2 = (Some b, f4) →
      _get_domain (url b) = _get_domain (url a) →
      delay ≤ t2 - t1).
Proof.
  intros f.
  assert (Hc : consistent f) by apply run_consistent, init_consistent.
  assert (Hd : politeness_delay f = delay)
    by (unfold f; by rewrite run_politeness_delay by apply init_consistent).
  assert (Hnext : ∀ g now task g', consistent g →
            get_next_url g now = (Some task, g') →
            politeness_delay g
            ≤ now - default 0 (domain_last_access g !! _get_domain (url task))
            ∧ domain_last_access g' !! _get_domain (url task) = Some now
            ∧ politeness_delay g' = politeness_delay g).
  { intros g now task g' [Hwf Hhost] Hn.
    apply get_next_url_some in Hn
      as (h & i & [_ Hr] & Hi & _ & _ & _ & _ & -> & _ & -> & _); [|done].
    rewrite (Hhost h task) by (by eapply list_elem_of_lookup_2).
    by rewrite lookup_insert_eq. }
  split.
  - intros now task f' Hn. rewrite <-Hd. by apply (Hnext f now task f').
  - intros t1 a f2 mid t2 b f4 Hn1 Hserves Hn2 Hhost.
    destruct (Hnext f t1 a f2 Hc Hn1) as (_ & Hla & Hd2).
    assert (Hc2 : consistent f2).
    { replace f2 with (get_next_url f t1).2 by (by rewrite Hn1).
      by apply get_next_url_consistent. }
    destruct (run_last_access f2 mid _ Hc2 Hserves) as [Hd3 Hla3].
    destruct (Hnext (run f2 mid) t2 b f4 (run_consistent _ _ Hc2) Hn2) as (Hgap & _).
    rewrite Hhost, Hla3, Hla, Hd3, Hd2, Hd in Hgap. exact Hgap.
Qed.


(** C10. When [get_next_url] returns [None] the frontier is unchanged: the
    queues, the last-access map, the processed set and the Redis client,
    whose log shows that no command was issued. *)
Theorem next_none_frame f now f' :
  get_next_url f now = (None, f') →
  f' = f
  ∧ domain_queues f' = domain_queues f
  ∧ domain_last_access f' = domain_last_access f
  ∧ processed_urls f' = processed_urls f
  ∧ Redis.lists (redis_client f') = Redis.lists (redis_client f)
  ∧ Redis.log (redis_client f') = Redis.log (redis_client f).
Proof.
  unfold get_next_url.
  destruct (sort_desc (available_domains f now)) as [|[[h m] tsa] r].
  - by intros [= <-].
  - destruct (scan_best None 0 (queue_of h (domain_queues f))) as [[bt bi]|].
    + by destruct (Redis.call _ _).
    + by intros [= <-].
Qed.

(** [mark_failed] with [retry_count < max_retries] increments the retry
    count, lowers the priority to LOW, hands the updated task to [add_url]
    and returns [True], leaving the processed set as it was; the task then
    is the last of its host's queue, unless its URL was processed already
    and [add_url] refused it. With [retry_count >= max_retries] it marks
    the URL processed and returns [False]. *)
Theorem mark_failed_spec f task max_retries :
  let task' :=
    mkTask (url task) (depth task) LOW (parent_url task)
           (discovered_time task) (retry_count task + 1) in
  (retry_count task < max_retries →
     mark_failed f task max_retries = (true, task', (add_url f task').2)
     ∧ processed_urls (mark_failed f task max_retries).2 = processed_urls f
     ∧ (url task ∉ processed_urls f →
          queue_of (_get_domain (url task))
                   (domain_queues (mark_failed f task max_retries).2)
          = queue_of (_get_domain (url task)) (domain_queues f) ++ [task']))
  ∧ (max_retries ≤ retry_count task →
     mark_failed f task max_retries = (false, task, mark_processed f (url task))
     ∧ url task ∈ processed_urls (mark_failed f task max_retries).2).
Proof.
  intros task'. unfold mark_failed. split; intros Hr.
  - rewrite bool_decide_eq_true_2 by done. fold task'.
    destruct (add_url_fields f task') as (_ & _ & Hp & Hq).
    destruct (add_url f task') as [ok f1]; simpl in *.
    split; [done|]. split; [done|]. intros Hnp.
    rewrite Hq, bool_decide_eq_false_2 by done. apply queue_of_append_eq.
  - rewrite bool_decide_eq_false_2 by lia. split; [done|]. simpl.
    destruct (mark_processed_fields f (url task)) as (_ & _ & -> & _).
    set_solver.
Qed.

End FrontierClaims.

Section FrontierExamples.
Import Frontier.
Local Existing Instance Ex.hosts.

Lemma politeness_gap_witness :
  let f := Ex.two_seeds in
  let f2 := (get_next_url f 100).2 in
  let mid := [Next 101; Add Ex.link_b] in
  get_next_url f 100 = (Some Ex.seed_root, f2)
  ∧ serves (_get_domain (url Ex.seed_root)) f2 mid = false
  ∧ get_next_url (run f2 mid) 102
    = (Some Ex.seed_x, (get_next_url (run f2 mid) 102).2)
  ∧ _get_domain (url Ex.seed_x) = _get_domain (url Ex.seed_root)
  ∧ 2 ≤ 102 - 100.
Proof.
  intros f f2 mid.
  assert (H1 : get_next_url f 100 = (Some Ex.seed_root, f2))
    by (vm_compute; reflexivity).
  assert (H2 : serves (_get_domain (url Ex.seed_root)) f2 mid = false)
    by (vm_compute; reflexivity).
  assert (H3 : get_next_url (run f2 mid) 102
               = (Some Ex.seed_x, (get_next_url (run f2 mid) 102).2))
    by (vm_compute; reflexivity).
  assert (H4 : _get_domain (url Ex.seed_x) = _get_domain (url Ex.seed_root))
    by (vm_compute; reflexivity).
  repeat split; try assumption.
  exact (proj2 (politeness_gap (Redis.empty []) 2 [Add Ex.seed_root; Add Ex.seed_x])
           100 Ex.seed_root f2 mid 102 Ex.seed_x _ H1 H2 H3 H4).
Defined.


Lemma next_none_frame_witness :
  let f := (get_next_url Ex.two_seeds 100).2 in
  get_next_url f 101 = (None, f) ∧ Redis.log (redis_client f) = Redis.log (redis_client f).
Proof.
  intros f.
  assert (Hn : get_next_url f 101 = (None, f)) by (vm_compute; reflexivity).
  split; [exact Hn|].
  exact (proj2 (proj2 (proj2 (proj2 (proj2 (next_none_frame f 101 f Hn)))))).
Defined.

Lemma mark_failed_spec_witness :
  (retry_count Ex.seed_x < 3
   ∧ processed_urls (mark_failed Ex.seeded Ex.seed_x 3).2 = processed_urls Ex.seeded)
  ∧ (3 ≤ retry_count Ex.retried
     ∧ url Ex.retried ∈ processed_urls (mark_failed Ex.seeded Ex.retried 3).2).
Proof.
  assert (H1 : retry_count Ex.seed_x < 3) by (vm_compute; reflexivity).
  assert (H2 : 3 ≤ retry_count Ex.retried) by (vm_compute; discriminate).
  split; (split; [assumption|]).
  - exact (proj1 (proj2 (proj1 (mark_failed_spec Ex.seeded Ex.seed_x 3) H1))).
  - exact (proj2 (proj2 (mark_failed_spec Ex.seeded Ex.retried 3) H2)).
Defined.

(** C3, at a failing input. With the store down, [add_url] on a URL that
    is not processed appends the task to the queue of its host and still
    returns [False], the value its docstring reserves for processed URLs;
    the same call with the store up returns [True]. *)
Theorem add_url_store_down :
  let f := init (Redis.empty [false]) 1 in
  let g := init (Redis.empty [true]) 1 in
  (url Ex.seed_x ∉ processed_urls f)
  ∧ (add_url f Ex.seed_x).1 = false
  ∧ queue_of (_get_domain (url Ex.seed_x)) (domain_queues (add_url f Ex.seed_x).2)
    = [Ex.seed_x]
  ∧ (add_url g Ex.seed_x).1 = true
  ∧ domain_queues (add_url g Ex.seed_x).2 = domain_queues (add_url f Ex.seed_x).2.
Proof.
  intros f g. split; [apply not_elem_of_empty|].
  repeat split; vm_compute; reflexivity.
Qed.

End FrontierExamples.

Section FetcherFacts.
Import Fetcher.
Context `{PyLib} `{Urllib.BracketedHosts}.

Lemma cumulative_chunk k data rest :
  cumulative (S k) (Chunk data rest)
  = Z.of_nat (length data) + cumulative k rest.
Proof. unfold cumulative. simpl. rewrite length_app. lia. Qed.

Lemma cumulative_zero s : cumulative 0 s = 0.
Proof. done. Qed.

(** The loop returns the bytes only if the count stayed within the limit
    after every chunk. *)
Lemma read_chunks_within acc s bytes :
  read_chunks acc s = Some (Some bytes) →
  ∀ k, (0 < k)%nat → (k ≤ length (chunks_of s))%nat →
       Z.of_nat (length acc) + cumulative k s ≤ max_size.
Proof.
  revert acc. induction s as [| data rest IH |]; intros acc; simpl; [intros; lia| |done].
  case_bool_decide as Hsize; [done|]. intros Hr [|k] Hk Hlen; [lia|].
  rewrite cumulative_chunk. rewrite length_app in Hsize.
  destruct k as [|k].
  - rewrite cumulative_zero. lia.
  - specialize (IH _ Hr (S k)). rewrite length_app in IH. lia.
Qed.

Lemma cumulative_beyond k s :
  (length (chunks_of s) ≤ k)%nat → cumulative k s = cumulative (length (chunks_of s)) s.
Proof.
  intros Hk. unfold cumulative. by rewrite !take_ge by lia.
Qed.

Lemma read_chunks_bound s bytes :
  read_chunks [] s = Some (Some bytes) → ∀ k, cumulative k s ≤ max_size.
Proof.
  intros Hr k. pose proof (read_chunks_within _ _ _ Hr) as Hw. simpl in Hw.
  destruct (decide (k = 0%nat)) as [->|Hk0]; [rewrite cumulative_zero; done|].
  destruct (decide (k ≤ length (chunks_of s))%nat) as [Hle|Hgt].
  - apply Hw; lia.
  - rewrite cumulative_beyond by lia.
    destruct (length (chunks_of s)) as [|n] eqn:Hn; [rewrite cumulative_zero; done|].
    rewrite <-Hn. apply Hw; lia.
Qed.

Lemma read_content_safely_some r text :
  _read_content_safely r = Some text →
  declared_length_ok r ∧ ∀ k, cumulative k (body r) ≤ max_size.
Proof.
  unfold _read_content_safely, declared_length_ok.
  destruct (headers_get "content-length" (headers r)) as [cl|].
  - destruct cl as [|a cl]; simpl.
    + destruct (read_chunks [] (body r)) as [[bytes|]|] eqn:Hr; [|done..].
      intros _. split; [by left|]. by eapply read_chunks_bound.
    + destruct (int_of_str (String a cl)) as [n|] eqn:Hn; [|done].
      case_bool_decide as Hsize; [done|].
      destruct (read_chunks [] (body r)) as [[bytes|]|] eqn:Hr; [|done..].
      intros _. split; [right; exists n; split; [done|lia]|].
      by eapply read_chunks_bound.
  - destruct (read_chunks [] (body r)) as [[bytes|]|] eqn:Hr; [|done..].
    intros _. split; [done|]. by eapply read_chunks_bound.
Qed.

Lemma fetch_page_content w server u text :
  content (fetch_page w server u).1 = Some text →
  ∃ r, server u = Responds r ∧ _read_content_safely r = Some text.
Proof.
  unfold fetch_page. destruct (server u) as [e|r]; [done|].
  destruct (negb (_is_text_content _)); [done|]. simpl. eauto.
Qed.

Lemma fetch_content w server now u text :
  content (fetch w server now u).1 = Some text →
  ∃ r, server u = Responds r ∧ _read_content_safely r = Some text.
Proof.
  unfold fetch.
  destruct (if respect_robots_txt w then robots_checker w else None) as [c|].
  - destruct (can_fetch c server now u) as [[[] asked] c']; [|done].
    apply fetch_page_content.
  - apply fetch_page_content.
Qed.

(** C7. [fetch] returns content only for a response whose declared
    [Content-Length], if any, is at most 10 MiB and whose bytes, counted
    chunk by chunk, never exceed 10 MiB; when the declared length or the
    count exceeds 10 MiB, the content of the result is [None]. *)
Theorem content_size_bound w server now u :
  let result := (fetch w server now u).1 in
  (∀ text, content result = Some text →
     ∃ r, server u = Responds r
          ∧ declared_length_ok r
          ∧ ∀ k, cumulative k (body r) ≤ max_size)
  ∧ (∀ r, server u = Responds r →
       (∃ cl n, headers_get "content-length" (headers r) = Some cl
                ∧ cl ≠ "" ∧ int_of_str cl = Some n ∧ max_size < n)
       ∨ (∃ k, max_size < cumulative k (body r)) →
       content result = None).
Proof.
  intros result.
  assert (Hsome : ∀ text, content result = Some text →
     ∃ r, server u = Responds r
          ∧ declared_length_ok r
          ∧ ∀ k, cumulative k (body r) ≤ max_size).
  { intros text (r & Hr & Hread)%fetch_content.
    exists r. split; [done|]. by eapply read_content_safely_some. }
  split; [exact Hsome|].
  intros r Hr Hexceeded.
  destruct (content result) as [text|] eqn:Hc; [|done]. exfalso.
  destruct (Hsome text eq_refl) as (r' & Hr' & Hdecl & Hcum).
  rewrite Hr in Hr'. injection Hr' as <-.
  destruct Hexceeded as [(cl & n & Hcl & Hne & Hn & Hgt)|(k & Hk)].
  - unfold declared_length_ok in Hdecl. rewrite Hcl in Hdecl.
    destruct Hdecl as [->|(n' & Hn' & Hle)]; [done|].
    rewrite Hn in Hn'. injection Hn' as <-. lia.
  - specialize (Hcum k). lia.
Qed.

(** *** Robots *)

(** With no parser cached, [can_fetch] allows every URL and caches nothing:
    both branches that would fill the cache call [read_robots_txt], which
    raises, and the handler returns [True]. *)
Lemma can_fetch_allows c server now u :
  robots_cache c = ∅ →
  ∃ asked, can_fetch c server now u = (true, asked, c).
Proof.
  intros Hempty. unfold can_fetch, cached.
  destruct (_get_domain u) as [domain|]; [|by eexists].
  rewrite Hempty, lookup_empty.
  destruct (server _) as [e|r]; [by eexists|].
  unfold read_robots_txt. case_bool_decide.
  - destruct (response_text r); by eexists.
  - by eexists.
Qed.

Lemma fetch_page_not_blocked w server u :
  error (fetch_page w server u).1 ≠ Some "Blocked by robots.txt"
  ∧ u ∈ requested (fetch_page w server u).2
  ∧ robots_checker (fetch_page w server u).2 = robots_checker w.
Proof.
  unfold fetch_page. destruct (server u) as [e|r]; simpl.
  - split; [by destruct e|]. split; [set_solver|done].
  - destruct (negb (_is_text_content _)); simpl; (split; [done|]);
      (split; [set_solver|done]).
Qed.

(** A fetcher that starts with an empty robots cache never answers
    "Blocked by robots.txt": it requests the page, and its cache stays
    empty. *)
Lemma fetch_never_blocked w server now u :
  cache_empty w →
  error (fetch w server now u).1 ≠ Some "Blocked by robots.txt"
  ∧ u ∈ requested (fetch w server now u).2
  ∧ cache_empty (fetch w server now u).2.
Proof.
  unfold cache_empty, fetch. intros Hempty.
  destruct (respect_robots_txt w) eqn:Hrespect.
  - destruct (robots_checker w) as [c|] eqn:Hc.
    + destruct (can_fetch_allows c server now u Hempty) as [asked ->].
      match goal with |- context [fetch_page ?w' server u] =>
        destruct (fetch_page_not_blocked w' server u) as (He & Hu & Hrc) end.
      split; [done|]. split; [done|]. by rewrite Hrc.
    + destruct (fetch_page_not_blocked w server u) as (He & Hu & Hrc).
      split; [done|]. split; [done|]. by rewrite Hrc, Hc.
  - destruct (fetch_page_not_blocked w server u) as (He & Hu & Hrc).
    split; [done|]. split; [done|]. rewrite Hrc. exact Hempty.
Qed.

End FetcherFacts.

Section FetcherExamples.
Import Fetcher.
Local Existing Instance Ex.hosts.
Local Existing Instance Ex.fetch_lib.

Lemma content_size_bound_witness :
  let result := (fetch (new_fetcher "crawler-bot" true) Ex.web 0 "https://a.example/hello").1 in
  content result = Some "hello world"
  ∧ ∃ r, Ex.web "https://a.example/hello" = Responds r
         ∧ declared_length_ok r
         ∧ ∀ k, cumulative k (body r) ≤ max_size.
Proof.
  intros result.
  assert (Hc : content result = Some "hello world") by (vm_compute; reflexivity).
  split; [exact Hc|].
  exact (proj1 (content_size_bound (new_fetcher "crawler-bot" true) Ex.web 0
                  "https://a.example/hello") _ Hc).
Defined.

(** C5, at a failing input. robots.txt of b.example is served with status
    200 and disallows /private for every agent, and the robots parser of
    this instance would refuse any URL. [can_fetch] still answers [True]:
    [fetch] requests robots.txt, then the page itself, and returns the page
    with status 200 instead of the 403 "Blocked by robots.txt" result; no
    request is counted as blocked. *)
Theorem robots_disallow_not_enforced :
  let w := new_fetcher "crawler-bot" true in
  let u := "https://b.example/private" in
  Ex.web "https://b.example/robots.txt" = Ex.page 200 "text/plain" Ex.robots_txt
  ∧ (can_fetch (new_checker "crawler-bot") Ex.web 0 u).1.1 = true
  ∧ status_code (fetch w Ex.web 0 u).1 = 200
  ∧ error (fetch w Ex.web 0 u).1 = None
  ∧ content (fetch w Ex.web 0 u).1 = Some "<html><body>secret</body></html>"
  ∧ requested (fetch w Ex.web 0 u).2 = ["https://b.example/robots.txt"; u]
  ∧ robots_blocked (stats (fetch w Ex.web 0 u).2) = 0.
Proof. intros w u. repeat split; vm_compute; reflexivity. Qed.

End FetcherExamples.

Section DedupFacts.
Import Dedup.
Context `{PyLib} `{Urllib.BracketedHosts}.

(** The digests of [hashlib] are 64 and 32 hexadecimal digits: never empty. *)
Hypothesis sha256_nonempty : ∀ s, sha256_hexdigest s ≠ "".
Hypothesis md5_nonempty : ∀ s, md5_hexdigest s ≠ "".

Lemma truthy_true s : Py.truthy s = true ↔ s ≠ "".
Proof. by destruct s. Qed.

Lemma truthy_false s : Py.truthy s = false ↔ s = "".
Proof. by destruct s. Qed.

Lemma hash_content_truthy text : Py.truthy (_hash_content text) = Py.truthy text.
Proof.
  unfold _hash_content. destruct (Py.truthy text) eqn:Ht; [|done].
  by apply truthy_true.
Qed.

Lemma hash_title_truthy text : Py.truthy (_hash_title text) = Py.truthy text.
Proof.
  unfold _hash_title. destruct (Py.truthy text) eqn:Ht; [|done].
  by apply truthy_true.
Qed.

Lemma fuzzy_hash_truthy text title_text :
  Py.truthy (_create_fuzzy_hash text title_text) = Py.truthy text.
Proof.
  unfold _create_fuzzy_hash. destruct (Py.truthy text) eqn:Ht; [|done].
  by apply truthy_true.
Qed.

(** C8, as amended. After [add_content d p], [check_duplicate] on [p]
    reports a URL duplicate, and reports a content, title and fuzzy
    duplicate exactly when the content, the title and the content of [p]
    are non-empty. On any detector, a page without content never is a
    content or fuzzy duplicate and a page without title never is a title
    duplicate: the empty hash of a missing content or title matches
    nothing. *)
Theorem add_then_check d p :
  let r := (check_duplicate (add_content d p) p).1 in
  (url_duplicate r = true
   ∧ content_duplicate r = Py.truthy (default "" (content p))
   ∧ title_duplicate r = Py.truthy (default "" (title p))
   ∧ fuzzy_duplicate r = Py.truthy (default "" (content p)))
  ∧ (Py.truthy (default "" (content p)) = false →
       content_duplicate (check_duplicate d p).1 = false
       ∧ fuzzy_duplicate (check_duplicate d p).1 = false)
  ∧ (Py.truthy (default "" (title p)) = false →
       title_duplicate (check_duplicate d p).1 = false).
Proof.
  intros r. unfold r, check_duplicate, add_content. simpl.
  rewrite hash_content_truthy, hash_title_truthy, fuzzy_hash_truthy.
  split; [|split].
  - split; [apply bool_decide_eq_true; set_solver|].
    assert (Hin : ∀ (h : string) (s : gset string), bool_decide (h ∈ {[h]} ∪ s) = true)
      by (intros h s; apply bool_decide_eq_true; set_solver).
    destruct (Py.truthy (default "" (content p))), (Py.truthy (default "" (title p)));
      by rewrite ?Hin.
  - by intros ->.
  - by intros ->.
Qed.

End DedupFacts.

Section DedupExamples.
Import Dedup.
Local Existing Instance Ex.hosts.
Local Existing Instance Ex.dedup_lib.

Lemma add_then_check_witness :
  (∀ s, sha256_hexdigest s ≠ "") ∧ (∀ s, md5_hexdigest s ≠ "")
  ∧ Py.truthy (default "" (content Ex.bare_page)) = false
  ∧ content_duplicate
      (check_duplicate (add_content (new_detector (Redis.empty [])) Ex.bare_page)
                       Ex.bare_page).1 = false.
Proof.
  assert (Hsha : ∀ s, sha256_hexdigest s ≠ "") by (intros s; discriminate).
  assert (Hmd5 : ∀ s, md5_hexdigest s ≠ "") by (intros s; discriminate).
  assert (Hc : Py.truthy (default "" (content Ex.bare_page)) = false) by reflexivity.
  split; [exact Hsha|]. split; [exact Hmd5|]. split; [exact Hc|].
  exact (proj1 (proj1 (proj2 (add_then_check Hsha Hmd5
            (add_content (new_detector (Redis.empty [])) Ex.bare_page) Ex.bare_page)) Hc)).
Defined.

(** C8 as stated fails: a page without content and title, added and then
    checked, is reported as a URL duplicate only; and the empty URL has the
    empty string as its URL hash, which does match once added. *)
Lemma add_then_check_counterexample :
  (let r := (check_duplicate (add_content (new_detector (Redis.empty [])) Ex.bare_page)
                             Ex.bare_page).1 in
   url_duplicate r = true ∧ content_duplicate r = false
   ∧ title_duplicate r = false ∧ fuzzy_duplicate r = false)
  ∧ (let blank := Parser.empty_content "" in
     _hash_content (_normalize_url (url blank)) = ""
     ∧ url_duplicate
         (check_duplicate (add_content (new_detector (Redis.empty [])) blank) blank).1
       = true).
Proof. repeat split; vm_compute; reflexivity. Qed.

End DedupExamples.

Section SchedulerFacts.
Import Scheduler.
Context `{Fetcher.PyLib} `{Dedup.PyLib} `{Urllib.BracketedHosts}.



Lemma mark_failed_trace s task :
  trace (add_error (mark_failed s task))
  = trace s ++ [Frontier.MarkFailed task (retry_attempts s)].
Proof. done. Qed.



End SchedulerFacts.

Section SchedulerExamples.
Import Scheduler.
Local Existing Instance Ex.hosts.
Local Existing Instance Ex.fetch_lib.
Local Existing Instance Ex.dedup_lib.



End SchedulerExamples.

(** ** Facts about the string primitives *)

Section StringFacts.

Lemma app_cons a s t : String a s +:+ t = String a (s +:+ t).
Proof. done. Qed.

Lemma app_empty_l t : "" +:+ t = t.
Proof. done. Qed.

Lemma app_empty_r s : s +:+ "" = s.
Proof. induction s as [|a s IH]; [done|]. by rewrite app_cons, IH. Qed.

Lemma app_assoc_str s t r : (s +:+ t) +:+ r = s +:+ t +:+ r.
Proof. induction s as [|a s IH]; [done|]. by rewrite !app_cons, IH. Qed.

Lemma lower_app s t : Py.lower (s +:+ t) = Py.lower s +:+ Py.lower t.
Proof. induction s as [|a s IH]; [done|]. rewrite app_cons. simpl. by rewrite IH. Qed.

Lemma lower_char_idem c : Py.lower_char (Py.lower_char c) = Py.lower_char c.
Proof. by destruct c as [[] [] [] [] [] [] [] []]. Qed.

Lemma lower_idem s : Py.lower (Py.lower s) = Py.lower s.
Proof. induction s as [|a s IH]; [done|]. simpl. by rewrite lower_char_idem, IH. Qed.


Lemma forall_chars_app p s t :
  Py.forall_chars p (s +:+ t) = Py.forall_chars p s && Py.forall_chars p t.
Proof.
  induction s as [|a s IH]; [done|]. rewrite app_cons. simpl.
  by rewrite IH, andb_assoc.
Qed.




End StringFacts.

Section Reparse.
Import Dedup.
Context `{Urllib.BracketedHosts}.

Lemma forall_chars_impl (p q : ascii → bool) s :
  (∀ c, p c = true → q c = true) →
  Py.forall_chars p s = true → Py.forall_chars q s = true.
Proof.
  intros Hpq. induction s as [|a s IH]; [done|]. simpl.
  intros [Ha Hs]%andb_true_iff. by rewrite (Hpq a Ha), IH.
Qed.

Lemma forall_not_contains (p : ascii → bool) a s :
  p a = false → Py.forall_chars p s = true → Py.contains a s = false.
Proof.
  intros Hpa. induction s as [|b s IH]; [done|]. simpl.
  intros [Hb Hs]%andb_true_iff. destruct (decide (b = a)) as [->|]; [congruence|].
  by apply IH.
Qed.







End Reparse.

Section Reparse2.
Import Dedup.
Context `{Urllib.BracketedHosts}.


Lemma scheme_char_not_colon c : Urllib.is_scheme_char c = true → c ≠ ":"%char.
Proof. by intros Hc ->. Qed.






End Reparse2.

Section QuoteFacts.
Import Urllib.





Lemma lower_truthy s : Py.truthy (Py.lower s) = Py.truthy s.
Proof. by destruct s. Qed.






End QuoteFacts.

Section QueryFacts.
Import Urllib Dedup.

Lemma split_no_sep c w : Py.contains c w = false → Py.split c w = [w].
Proof.
  induction w as [|a w IH]; [done|]. simpl.
  destruct (decide (a = c)); [done|]. intros Hw. by rewrite IH.
Qed.










End QueryFacts.

Section DictFacts.
Import Urllib Dedup.









End DictFacts.

Section ParseFacts.
Import Urllib Dedup.


Lemma split1_forall p c s l r :
  Py.forall_chars p s = true → Py.split1 c s = Some (l, r) →
  Py.forall_chars p l = true ∧ Py.forall_chars p r = true.
Proof.
  revert l. induction s as [|a s IH]; intros l; simpl; [done|].
  intros [Ha Hs]%andb_true_iff.
  destruct (decide (a = c)).
  - by intros [= <- <-].
  - destruct (Py.split1 c s) as [[l' r']|]; [|done]. intros [= <- <-].
    destruct (IH l' Hs eq_refl) as [Hl Hr]. simpl. by rewrite Ha, Hl.
Qed.






End ParseFacts.

Section SortedFacts.
Import Urllib Dedup.











End SortedFacts.

Section ShapeFacts.
Import Urllib Dedup.
Context `{BracketedHosts}.









Lemma split1_absent c s l r :
  Py.split1 c s = Some (l, r) →
  Py.forall_chars (fun a => negb (bool_decide (a = c))) l = true.
Proof.
  revert l. induction s as [|a s IH]; intros l; simpl; [done|].
  destruct (decide (a = c)) as [|Hne]; [by intros [= <- <-]|].
  destruct (Py.split1 c s) as [[l' r']|]; [|done]. intros [= <- <-]. simpl.
  by rewrite (bool_decide_eq_false_2 _ Hne), (IH l' eq_refl).
Qed.

Lemma split1_none_absent c s :
  Py.split1 c s = None →
  Py.forall_chars (fun a => negb (bool_decide (a = c))) s = true.
Proof.
  induction s as [|a s IH]; simpl; [done|].
  destruct (decide (a = c)) as [|Hne]; [done|].
  destruct (Py.split1 c s) as [[l' r']|]; [done|]. intros _.
  by rewrite (bool_decide_eq_false_2 _ Hne), IH.
Qed.


Lemma head_ok_any s : head_ok (fun _ => true) s = true.
Proof. by destruct s. Qed.

Lemma head_ok_app q s t : head_ok q (s +:+ t) = true → head_ok q s = true.
Proof. by destruct s. Qed.


Lemma split1_eq c s l r : Py.split1 c s = Some (l, r) → s = l +:+ String c r.
Proof.
  revert l. induction s as [|a s IH]; intros l; simpl; [done|].
  destruct (decide (a = c)) as [->|]; [by intros [= <- <-]|].
  destruct (Py.split1 c s) as [[l' r']|]; [|done]. intros [= <- <-].
  rewrite app_cons. f_equal. by apply IH.
Qed.

(** [cut]: both parts keep the characters of the text, the first part is
    free of the separator, and it starts as the text does. *)
Lemma cut_shape p q c s l r :
  cut c s = (l, r) → Py.forall_chars p s = true → head_ok q s = true →
  Py.forall_chars p l = true ∧ Py.forall_chars p r = true
  ∧ Py.forall_chars (fun a => negb (bool_decide (a = c))) l = true
  ∧ head_ok (fun a => q a && negb (bool_decide (a = c))) l = true.
Proof.
  unfold cut. intros Hcut Hs Hhead.
  destruct (Py.split1 c s) as [[l' r']|] eqn:Hsplit.
  - injection Hcut as <- <-.
    destruct (split1_forall p c s l' r' Hs Hsplit) as [Hl Hr].
    pose proof (split1_absent _ _ _ _ Hsplit) as Hfree.
    split; [done|]. split; [done|]. split; [done|].
    apply split1_eq in Hsplit as ->. apply head_ok_app in Hhead.
    destruct l' as [|a l']; [done|]. simpl in *.
    apply andb_true_iff in Hfree as [-> _]. by rewrite Hhead.
  - injection Hcut as <- <-.
    pose proof (split1_none_absent _ _ Hsplit) as Hfree.
    split; [done|]. split; [done|]. split; [done|].
    destruct s as [|a s]; [done|]. simpl in *.
    apply andb_true_iff in Hfree as [-> _]. by rewrite Hhead.
Qed.

Lemma splitnetloc_shape p s n r :
  _splitnetloc s = (n, r) → Py.forall_chars p s = true →
  Py.forall_chars p n = true ∧ Py.forall_chars p r = true
  ∧ Py.forall_chars
      (fun a => negb (bool_decide (a ∈ ["/"; "?"; "#"]%char))) n = true
  ∧ head_ok (fun a => bool_decide (a ∈ ["/"; "?"; "#"]%char)) r = true.
Proof.
  revert n. induction s as [|a s IH]; intros n; simpl.
  - by intros [= <- <-].
  - intros Hsplit [Ha Hs]%andb_true_iff.
    destruct (bool_decide (a = "/"%char) || bool_decide (a = "?"%char)
              || bool_decide (a = "#"%char)) eqn:Hdelim.
    + injection Hsplit as <- <-. simpl. rewrite Ha, Hs.
      repeat split. apply bool_decide_eq_true.
      apply orb_true_iff in Hdelim as [[?%bool_decide_eq_true | ?%bool_decide_eq_true]%orb_true_iff
                                      | ?%bool_decide_eq_true]; subst; repeat constructor.
    + destruct (_splitnetloc s) as [n' r'] eqn:Hrest. injection Hsplit as <- <-.
      destruct (IH n' eq_refl Hs) as (Hn & Hr & Hfree & Hstart).
      simpl. rewrite Ha, Hn, Hfree. repeat split; [done| |done].
      rewrite andb_true_r. apply negb_true_iff, bool_decide_eq_false.
      apply orb_false_iff in Hdelim as [[?%bool_decide_eq_false ?%bool_decide_eq_false]%orb_false_iff
                                        ?%bool_decide_eq_false].
      rewrite !elem_of_cons, elem_of_nil. tauto.
Qed.

Lemma rsplit_slash_eq s d r : rsplit_slash s = (d, r) → s = d +:+ r.
Proof.
  revert d r. induction s as [|c s IH]; intros d r; simpl; [by intros [= <- <-]|].
  destruct (rsplit_slash s) as [[|a p] r'] eqn:Hrec.
  - destruct (decide (c = "/"%char)); intros [= <- <-];
      rewrite (IH _ _ eq_refl); by rewrite ?app_cons, ?app_empty_l.
  - intros [= <- <-]. rewrite (IH _ _ eq_refl). by rewrite !app_cons.
Qed.




Lemma netloc_match u0 net u1 :
  match u0 with
  | String "/" (String "/" rest) => _splitnetloc rest
  | _ => ("", u0)
  end = (net, u1) →
  (net = "" ∧ u1 = u0)
  ∨ (∃ rest, u0 = String "/" (String "/" rest) ∧ _splitnetloc rest = (net, u1)).
Proof.
  destruct u0 as [|a [|b rest]]; try (intros [= <- <-]; by left).
  - destruct a as [[] [] [] [] [] [] [] []]; intros [= <- <-]; by left.
  - destruct a as [[] [] [] [] [] [] [] []]; try (intros [= <- <-]; by left).
    destruct b as [[] [] [] [] [] [] [] []]; try (intros [= <- <-]; by left).
    intros Hnet. right. by exists rest.
Qed.




End ShapeFacts.

Section NormalizeFacts.
Import Urllib Dedup.
Context `{BracketedHosts}.





End NormalizeFacts.

Section NormalizeClaims.
Import Urllib Dedup.
Context `{BracketedHosts} `{PyLib}.


End NormalizeClaims.

Section NormalizeExamples.
Import Urllib Dedup.
Local Existing Instance Ex.hosts.
Local Existing Instance Ex.dedup_lib.



End NormalizeExamples.

Section FrontierStateFacts.
Import Frontier FrontierState.
Context `{Urllib.BracketedHosts}.

Lemma priority_of_value_value p : priority_of_value (value p) = Some p.
Proof. by destruct p. Qed.

Lemma priority_of_value_some v p : priority_of_value v = Some p → value p = v.
Proof.
  unfold priority_of_value. repeat case_decide; intros [= <-]; by subst.
Qed.

Lemma from_dict_to_dict t : from_dict (to_dict t) = Some t.
Proof.
  unfold from_dict, to_dict. simpl. rewrite priority_of_value_value. by destruct t.
Qed.

Lemma from_dict_some data t : from_dict data = Some t → to_dict t = data.
Proof.
  unfold from_dict.
  destruct (priority_of_value (d_priority data)) as [p|] eqn:Hp; [|done].
  intros [= <-]. apply priority_of_value_some in Hp.
  unfold to_dict. simpl. rewrite Hp. by destruct data.
Qed.

Lemma to_dict_inj t1 t2 : to_dict t1 = to_dict t2 → t1 = t2.
Proof.
  intros Heq. apply (inj Some).
  by rewrite <- (from_dict_to_dict t1), <- (from_dict_to_dict t2), Heq.
Qed.

(** *** Calls on a store that answers *)

Lemma call_reliable c r :
  reliable r →
  (Redis.call c r).1 = true
  ∧ Redis.lists (Redis.call c r).2 = Redis.lists (Redis.exec c r)
  ∧ Redis.sets (Redis.call c r).2 = Redis.sets (Redis.exec c r)
  ∧ Redis.log (Redis.call c r).2 = Redis.log r ++ [c]
  ∧ reliable (Redis.call c r).2.
Proof.
  unfold reliable, Redis.call. intros Hr.
  destruct (Redis.script r) as [|[] rest] eqn:Hs; simpl.
  - repeat split; done.
  - apply Forall_cons in Hr as [_ Hr]. repeat split; done.
  - by apply Forall_cons in Hr as [[=] _].
Qed.

Lemma read_reliable {A} (answer : Redis.t → option A) r :
  reliable r →
  (read answer r).1 = answer r
  ∧ Redis.lists (read answer r).2 = Redis.lists r
  ∧ Redis.sets (read answer r).2 = Redis.sets r
  ∧ reliable (read answer r).2.
Proof.
  unfold reliable, read. intros Hr.
  destruct (Redis.script r) as [|[] rest] eqn:Hs; simpl.
  - by rewrite Hs.
  - apply Forall_cons in Hr as [_ Hr]. repeat split; done.
  - by apply Forall_cons in Hr as [[=] _].
Qed.

End FrontierStateFacts.

Section DurableMirror.
Import Frontier FrontierState.
Context `{Urllib.BracketedHosts}.

Lemma append_inj_r (s t t' : string) : s +:+ t = s +:+ t' → t = t'.
Proof. induction s as [|a s IH]; [done|]. rewrite !app_cons. intros [= ?]. auto. Qed.

Lemma queue_key_inj d d' :
  domain_queue_prefix +:+ d = domain_queue_prefix +:+ d' → d = d'.
Proof. apply append_inj_r. Qed.

Lemma queue_key_startswith d :
  Py.startswith domain_queue_prefix (domain_queue_prefix +:+ d) = true.
Proof.
  unfold Py.startswith, domain_queue_prefix. cbn.
  repeat (destruct (ascii_dec _ _); [|done]). by destruct d.
Qed.

Lemma processed_key_not_queue_key :
  Py.startswith domain_queue_prefix processed_key = false.
Proof. reflexivity. Qed.

Lemma get_next_url_store f now task f' :
  get_next_url f now = (Some task, f') →
  ∃ h, redis_client f'
       = (Redis.call (Redis.LREM (domain_queue_prefix +:+ h) 1 (to_dict task))
                     (redis_client f)).2.
Proof.
  unfold get_next_url.
  destruct (sort_desc (available_domains f now)) as [|[[h m] tsa] r]; [done|].
  destruct (scan_best None 0 (queue_of h (domain_queues f))) as [[bt bi]|]; [|done].
  destruct (Redis.call _ _) as [ok r'] eqn:Hcall.
  intros [= <- <-]. exists h. by rewrite Hcall.
Qed.

Lemma remove_first_at (q : list URLTask) i task :
  q !! i = Some task →
  (∀ j t, (j < i)%nat → q !! j = Some t → t ≠ task) →
  Redis.remove_first (to_dict task) (map to_dict q) = map to_dict (delete i q).
Proof.
  revert i. induction q as [|a q IH]; intros i Hi Hbefore; [done|].
  destruct i as [|i]; simpl in *.
  - injection Hi as ->. by rewrite decide_True.
  - rewrite decide_False.
    + f_equal. apply IH; [done|]. intros j t Hj Ht.
      apply (Hbefore (S j) t); [lia|done].
    + intros Heq%to_dict_inj. by apply (Hbefore 0%nat a); [lia| |].
Qed.

Lemma stored_nonempty (q : list URLTask) :
  q ≠ [] →
  stored q = Some (map to_dict q).
Proof. by destruct q. Qed.

Lemma init_durable script delay :
  Forall (eq true) script → durable (init (Redis.empty script) delay).
Proof.
  intros Hs. split; [apply init_consistent|]. split; [done|].
  unfold mirrored. simpl. repeat split.
  - intros k [x Hx]. by rewrite lookup_empty in Hx.
  - intros k [x Hx]. by rewrite lookup_empty in Hx.
Qed.

Lemma mirrored_default f d :
  mirrored f →
  default [] (Redis.lists (redis_client f) !! (domain_queue_prefix +:+ d))
  = map to_dict (queue_of d (domain_queues f)).
Proof.
  intros (Hl & _). rewrite Hl. by destruct (queue_of d (domain_queues f)).
Qed.

Lemma add_url_durable f task : durable f → durable (add_url f task).2.
Proof.
  intros (Hc & Hr & Hm). split; [by apply add_url_consistent|].
  unfold add_url. case_bool_decide as Hp; [done|].
  pose proof (call_reliable
    (Redis.RPUSH (domain_queue_prefix +:+ _get_domain (url task)) (to_dict task))
    _ Hr) as (_ & Hlists & Hsets & _ & Hr').
  destruct (Redis.call _ _) as [ok r'] eqn:Hcall. simpl in *.
  split; [done|].
  pose proof (mirrored_default f (_get_domain (url task)) Hm) as Hdef.
  destruct Hm as (Hl & Hk & Hs & Hpr).
  unfold mirrored. simpl. rewrite Hlists, Hsets. repeat split.
  - intros d. destruct (decide (d = _get_domain (url task))) as [->|Hne].
    + rewrite lookup_insert_eq, queue_of_append_eq, Hdef.
      rewrite stored_nonempty, map_app; [done|].
      by intros [_ [=]]%app_eq_nil.
    + rewrite lookup_insert_ne by (intros Heq%queue_key_inj; done).
      rewrite queue_of_append_ne by done. apply Hl.
  - intros k. destruct (decide (k = domain_queue_prefix +:+ _get_domain (url task)))
      as [->|Hne]; [by eexists|].
    rewrite lookup_insert_ne by done. apply Hk.
  - done.
  - done.
Qed.


Lemma exec_lrem key count item r :
  Redis.sets (Redis.exec (Redis.LREM key count item) r) = Redis.sets r
  ∧ Redis.lists (Redis.exec (Redis.LREM key count item) r)
    = match Redis.lists r !! key with
      | None => Redis.lists r
      | Some l =>
          match Redis.remove_first item l with
          | [] => delete key (Redis.lists r)
          | l' => <[key := l']> (Redis.lists r)
          end
      end.
Proof.
  simpl. destruct (Redis.lists r !! key) as [l|]; [|done].
  by destruct (Redis.remove_first item l).
Qed.

Lemma mark_processed_durable f u : durable f → durable (mark_processed f u).
Proof.
  intros (Hc & Hr & Hm). split; [by apply mark_processed_consistent|].
  unfold mark_processed.
  pose proof (call_reliable (Redis.SADD processed_key u) _ Hr)
    as (_ & Hlists & Hsets & _ & Hr').
  destruct (Redis.call _ _) as [ok r'] eqn:Hcall. simpl in *.
  split; [done|]. destruct Hm as (Hl & Hk & Hs & Hpr).
  unfold mirrored. simpl. rewrite Hlists, Hsets. repeat split; [done|done| |].
  - intros k. destruct (decide (k = processed_key)) as [->|Hne]; [done|].
    rewrite lookup_insert_ne by done. apply Hs.
  - by rewrite lookup_insert_eq, <- Hpr.
Qed.

Lemma mark_failed_durable f task n : durable f → durable (mark_failed f task n).2.
Proof.
  intros Hd. unfold mark_failed. case_bool_decide.
  - pose proof (add_url_durable f
      (mkTask (url task) (depth task) LOW (parent_url task)
              (discovered_time task) (retry_count task + 1)) Hd) as Hd'.
    by destruct (add_url f _).
  - by apply mark_processed_durable.
Qed.

Lemma get_next_url_durable f now : durable f → durable (get_next_url f now).2.
Proof.
  intros (Hc & Hr & Hm). split; [by apply get_next_url_consistent|].
  destruct (get_next_url f now) as [[task|] f'] eqn:Hn; simpl.
  - destruct (get_next_url_store _ _ _ _ Hn) as [h' Hstore].
    pose proof Hc as [Hwf _].
    apply get_next_url_some in Hn
      as (h & i & [Hq _] & Hi & _ & _ & Hfirst & Hqs & _ & Hproc & _ & Hlog);
      [|done].
    pose proof (call_reliable
      (Redis.LREM (domain_queue_prefix +:+ h') 1 (to_dict task)) _ Hr)
      as (_ & Hlists & Hsets & Hlog' & Hr').
    rewrite <- Hstore in Hlists, Hsets, Hlog', Hr'. split; [done|].
    rewrite Hlog in Hlog'. apply app_inv_head in Hlog'.
    injection Hlog' as Hh. rewrite !app_empty_l in Hh. subst h'.
    destruct Hm as (Hl & Hk & Hs & Hpr).
    assert (Hrm : Redis.remove_first (to_dict task)
                    (map to_dict (queue_of h (domain_queues f)))
                  = map to_dict (delete i (queue_of h (domain_queues f)))).
    { apply remove_first_at; [done|]. intros j t Hj Ht ->.
      specialize (Hfirst j task Hj Ht). lia. }
    rewrite (proj1 (exec_lrem _ _ _ _)) in Hsets.
    rewrite (proj2 (exec_lrem _ _ _ _)), Hl, (stored_nonempty _ Hq), Hrm in Hlists.
    unfold mirrored. rewrite Hsets, Hproc, Hqs. repeat split; [| |done|done].
    + intros d. destruct (decide (d = h)) as [->|Hne].
      * rewrite queue_of_set_eq by done. rewrite Hlists.
        destruct (delete i (queue_of h (domain_queues f))) as [|a q'] eqn:Hdel; simpl.
        -- by rewrite lookup_delete_eq.
        -- by rewrite lookup_insert_eq.
      * rewrite queue_of_set_ne by done. rewrite Hlists, <- Hl.
        destruct (map to_dict (delete i (queue_of h (domain_queues f)))); simpl.
        -- rewrite lookup_delete_ne; [done|]. by intros Heq%queue_key_inj.
        -- rewrite lookup_insert_ne; [done|]. by intros Heq%queue_key_inj.
    + intros k. rewrite Hlists.
      destruct (map to_dict (delete i (queue_of h (domain_queues f)))); simpl.
      * destruct (decide (k = domain_queue_prefix +:+ h)) as [->|Hne]; [by eexists|].
        rewrite lookup_delete_ne by done. apply Hk.
      * destruct (decide (k = domain_queue_prefix +:+ h)) as [->|Hne]; [by eexists|].
        rewrite lookup_insert_ne by done. apply Hk.
  - apply get_next_url_none in Hn as [-> _]; [done|]. by destruct Hc.
Qed.


Lemma delete_absent ds r :
  reliable r →
  (∀ d, d ∈ ds → Redis.lists r !! (domain_queue_prefix +:+ d) = None) →
  let r' :=
    fold_left (fun r d => (Redis.call (Redis.DELETE (domain_queue_prefix +:+ d)) r).2)
              ds r in
  Redis.lists r' = Redis.lists r
  ∧ (∀ k, is_Some (Redis.sets r' !! k) → is_Some (Redis.sets r !! k))
  ∧ Redis.sets r' !! processed_key = Redis.sets r !! processed_key
  ∧ reliable r'.
Proof.
  revert r. induction ds as [|d ds IH]; intros r Hr Habs; simpl; [done|].
  pose proof (call_reliable (Redis.DELETE (domain_queue_prefix +:+ d)) _ Hr)
    as (_ & Hlists & Hsets & _ & Hr').
  simpl in Hlists, Hsets.
  assert (Hsame : Redis.lists (Redis.call (Redis.DELETE (domain_queue_prefix +:+ d)) r).2
                  = Redis.lists r).
  { rewrite Hlists. apply delete_id, Habs. by left. }
  destruct (IH _ Hr') as (Hl & Hk & Hp & Hr'').
  { intros d' Hd'. rewrite Hsame. apply Habs. by right. }
  split; [by rewrite Hl|]. split; [|split; [|done]].
  - intros k Hsome. apply Hk in Hsome. rewrite Hsets in Hsome.
    destruct (decide (k = domain_queue_prefix +:+ d)) as [->|Hne].
    + rewrite lookup_delete_eq in Hsome. by destruct Hsome.
    + by rewrite lookup_delete_ne in Hsome.
  - rewrite Hp, Hsets. apply lookup_delete_ne. intros Heq.
    pose proof (queue_key_startswith d) as Hst. rewrite Heq in Hst.
    by rewrite processed_key_not_queue_key in Hst.
Qed.

Lemma cleanup_durable f : durable f → durable (cleanup f).
Proof.
  intros (Hc & Hr & Hm). split; [by apply cleanup_consistent|].
  destruct Hc as [Hwf _]. destruct Hm as (Hl & Hk & Hs & Hpr).
  unfold cleanup, mirrored. simpl.
  destruct (delete_absent
    (map fst (filter (fun dq : string * list URLTask => dq.2 = []) (domain_queues f)))
    _ Hr) as (Hlists & Hsets & Hp & Hr').
  { intros d Hd. apply list_elem_of_fmap in Hd as ([d' q] & -> & Hin).
    apply list_elem_of_filter in Hin as [Hq Hin]. simpl in *. subst q.
    by rewrite Hl, (queue_of_elem _ _ _ Hwf Hin). }
  split; [done|]. rewrite Hlists, Hp. repeat split; [|done| |done].
  - intros d. rewrite queue_of_filter_nonempty by done. apply Hl.
  - intros k Hsome. by apply Hs, Hsets.
Qed.

Lemma step_durable f c : durable f → durable (step f c).2.
Proof.
  destruct c; simpl.
  - apply add_url_durable.
  - apply get_next_url_durable.
  - apply mark_processed_durable.
  - apply mark_failed_durable.
  - apply cleanup_durable.
Qed.

Lemma run_durable f cs : durable f → durable (run f cs).
Proof.
  revert f. induction cs as [|c cs IH]; intros f Hd; simpl; [done|].
  apply IH. by apply step_durable.
Qed.

(** X2. On a store that answers every call, the durable state mirrors the
    frontier after every run from a fresh frontier: each non-empty queue is
    stored, task by task and in order, under the key of its host, nothing
    else is stored as a list, and the stored set of processed URLs is the
    set in memory. *)
Theorem durable_mirror script delay cs :
  Forall (eq true) script →
  let f := run (init (Redis.empty script) delay) cs in
  (∀ d, Redis.lists (redis_client f) !! (domain_queue_prefix +:+ d)
        = match queue_of d (domain_queues f) with
          | [] => None
          | _ => Some (map to_dict (queue_of d (domain_queues f)))
          end)
  ∧ (∀ k, is_Some (Redis.lists (redis_client f) !! k) →
          ∃ d, k = domain_queue_prefix +:+ d ∧ queue_of d (domain_queues f) ≠ [])
  ∧ default ∅ (Redis.sets (redis_client f) !! processed_key) = processed_urls f.
Proof.
  intros Hs f.
  destruct (run_durable _ cs (init_durable script delay Hs)) as (_ & _ & Hm).
  fold f in Hm. destruct Hm as (Hl & Hk & _ & Hp).
  split; [|split; [|done]].
  - intros d. rewrite Hl. by destruct (queue_of d (domain_queues f)).
  - intros k Hsome. destruct (Hk k Hsome) as [d ->]. exists d. split; [done|].
    intros Hq. rewrite Hl, Hq in Hsome. by destruct Hsome.
Qed.

End DurableMirror.

Section Reload.
Import Frontier FrontierState.
Context `{Urllib.BracketedHosts}.

Lemma queue_of_append_all e domain (q : list URLTask) qs :
  queue_of e (fold_left (fun qs t => queue_append domain t qs) q qs)
  = queue_of e qs ++ (if decide (e = domain) then q else []).
Proof.
  revert qs. induction q as [|t q IH]; intros qs; simpl.
  - destruct (decide (e = domain)); by rewrite app_nil_r.
  - rewrite IH. destruct (decide (e = domain)) as [->|Hne].
    + by rewrite queue_of_append_eq, <- app_assoc.
    + by rewrite queue_of_append_ne.
Qed.

Lemma load_items_stored domain (q : list URLTask) qs :
  load_items domain (map to_dict q) qs
  = Some (fold_left (fun qs t => queue_append domain t qs) q qs).
Proof.
  revert qs. induction q as [|t q IH]; intros qs; simpl; [done|].
  by rewrite from_dict_to_dict, IH.
Qed.

(** What the loop over the queue keys builds: under each name, the stored
    lists of the keys whose last piece is that name, one after the other. *)
Lemma load_domains_stored ks r qs (content : string → list URLTask) :
  reliable r →
  (∀ k, k ∈ ks → Redis.sets r !! k = None
                 ∧ default [] (Redis.lists r !! k) = map to_dict (content k)) →
  ∃ r' qs', load_domains ks r qs = Some (r', qs')
    ∧ ∀ e, queue_of e qs'
           = queue_of e qs
             ++ concat (map content (filter (fun k => last_piece k = e) ks)).
Proof.
  revert r qs. induction ks as [|k ks IH]; intros r qs Hr Hks; simpl.
  - exists r, qs. split; [done|]. intros e. by rewrite app_nil_r.
  - destruct (Hks k) as [Hset Hlist]; [by left|].
    unfold lrange.
    pose proof (read_reliable
      (fun r => match Redis.sets r !! k with
                | Some _ => None
                | None => Some (default [] (Redis.lists r !! k))
                end) r Hr) as (Hans & Hlists & Hsets & Hr').
    destruct (read _ r) as [ans r1]. simpl in *. subst ans.
    rewrite Hset, Hlist, load_items_stored.
    destruct (IH r1 (fold_left (fun qs t => queue_append (last_piece k) t qs)
                               (content k) qs) Hr') as (r' & qs' & Hload & Hq).
    { intros k' Hk'. rewrite Hlists, Hsets. apply Hks. by right. }
    exists r', qs'. split; [done|]. intros e. rewrite Hq, queue_of_append_all.
    rewrite filter_cons. destruct (decide (last_piece k = e)) as [<-|Hne].
    + rewrite decide_True by done. simpl. by rewrite <- app_assoc.
    + rewrite decide_False by done. by rewrite app_nil_r.
Qed.


Lemma key_domain_queue_key d : key_domain (domain_queue_prefix +:+ d) = d.
Proof. reflexivity. Qed.

Lemma filter_all {A} (P : A → Prop) `{∀ x, Decision (P x)} (l : list A) :
  Forall P l → filter P l = l.
Proof.
  induction l as [|x l IH]; [done|]. intros [Hx Hl]%Forall_cons.
  by rewrite filter_cons, decide_True, IH.
Qed.

Lemma filter_none {A} (P : A → Prop) `{∀ x, Decision (P x)} (l : list A) :
  Forall (fun x => ¬ P x) l → filter P l = [].
Proof.
  induction l as [|x l IH]; [done|]. intros [Hx Hl]%Forall_cons.
  by rewrite filter_cons, decide_False, IH.
Qed.

Lemma map_to_list_keys {A} (m : gmap string A) k :
  k ∈ map fst (map_to_list m) ↔ is_Some (m !! k).
Proof.
  split.
  - intros ([k' x] & -> & Hin)%list_elem_of_fmap.
    apply elem_of_map_to_list in Hin. by eexists.
  - intros [x Hx]. apply list_elem_of_fmap. exists (k, x).
    split; [done|]. by apply elem_of_map_to_list.
Qed.

(** A restart on a mirrored store: [initialize] succeeds, takes the stored
    processed set, and files the stored list of each key under the last
    piece of the key. *)
Lemma initialize_durable f delay :
  durable f →
  ∃ f', initialize (init (redis_client f) delay) = Some f'
    ∧ processed_urls f' = processed_urls f
    ∧ politeness_delay f' = delay
    ∧ domain_last_access f' = ∅
    ∧ ∀ e, queue_of e (domain_queues f')
           = concat
               (map (fun k => queue_of (key_domain k) (domain_queues f))
                    (filter (fun k => last_piece k = e)
                            (map fst (map_to_list (Redis.lists (redis_client f)))))).
Proof.
  intros (Hc & Hr & Hl & Hk & Hs & Hp). unfold initialize, smembers, keys. simpl.
  pose proof (read_reliable
    (fun r => match Redis.lists r !! processed_key with
              | Some _ => None
              | None => Some (default ∅ (Redis.sets r !! processed_key))
              end) _ Hr) as (Hans & Hlists & Hsets & Hr1).
  destruct (read _ (redis_client f)) as [ans r1]. simpl in *. subst ans.
  assert (Hnone : Redis.lists (redis_client f) !! processed_key = None).
  { destruct (Redis.lists (redis_client f) !! processed_key) eqn:Hlk; [|done].
    destruct (Hk processed_key) as [d Hd]; [by eexists|].
    pose proof (queue_key_startswith d) as Hst. rewrite <- Hd in Hst.
    by rewrite processed_key_not_queue_key in Hst. }
  rewrite Hnone.
  pose proof (read_reliable
    (fun r => Some (filter (fun k => Py.startswith domain_queue_prefix k = true)
                           (map fst (map_to_list (Redis.lists r))
                            ++ map fst (map_to_list (Redis.sets r))))) _ Hr1)
    as (Hans & Hlists2 & Hsets2 & Hr2).
  destruct (read _ r1) as [ans r2]. simpl in *. subst ans.
  rewrite Hlists, Hsets, filter_app.
  rewrite (filter_all _ (map fst (map_to_list (Redis.lists (redis_client f))))).
  2:{ apply Forall_forall. intros k Hin. apply map_to_list_keys in Hin.
      destruct (Hk k Hin) as [d ->]. apply queue_key_startswith. }
  rewrite (filter_none _ (map fst (map_to_list (Redis.sets (redis_client f))))).
  2:{ apply Forall_forall. intros k Hin. apply map_to_list_keys in Hin.
      rewrite (Hs k Hin). done. }
  rewrite app_nil_r.
  destruct (load_domains_stored
    (map fst (map_to_list (Redis.lists (redis_client f)))) r2 []
    (fun k => queue_of (key_domain k) (domain_queues f)) Hr2)
    as (r3 & qs & Hload & Hq).
  { intros k Hin. apply map_to_list_keys in Hin.
    rewrite Hlists2, Hsets2, Hlists, Hsets.
    destruct (Hk k Hin) as [d ->]. rewrite key_domain_queue_key. split.
    - destruct (Redis.sets (redis_client f) !! (domain_queue_prefix +:+ d)) eqn:Hsk;
        [|done].
      pose proof (Hs (domain_queue_prefix +:+ d) (mk_is_Some _ _ Hsk)) as Hno.
      by rewrite queue_key_startswith in Hno.
    - rewrite Hl. by destruct (queue_of d (domain_queues f)). }
  rewrite Hload. eexists. split; [done|]. simpl. by repeat split.
Qed.


Lemma split_cons_ne c a s :
  a ≠ c →
  Py.split c (String a s)
  = match Py.split c s with
    | w :: ws => String a w :: ws
    | [] => [String a ""]
    end.
Proof. intros Hne. simpl. by rewrite decide_False. Qed.

Lemma split_cons_eq c s : Py.split c (String c s) = "" :: Py.split c s.
Proof. simpl. by rewrite decide_True. Qed.

Lemma split_nonempty c s : Py.split c s ≠ [].
Proof.
  induction s as [|a s IH]; simpl; [done|].
  destruct (decide (a = c)); [done|]. by destruct (Py.split c s).
Qed.

Lemma split_app_sep c w s :
  Py.contains c w = false → Py.split c (w +:+ String c s) = w :: Py.split c s.
Proof.
  induction w as [|a w IH]; intros Hw.
  - rewrite app_empty_l. apply split_cons_eq.
  - simpl in Hw. destruct (decide (a = c)) as [|Hne]; [done|].
    by rewrite app_cons, split_cons_ne, IH.
Qed.

Lemma last_piece_queue_key d : last_piece (domain_queue_prefix +:+ d) = last_piece d.
Proof.
  unfold last_piece.
  change (domain_queue_prefix +:+ d)
    with ("crawler" +:+ String ":" ("domain" +:+ String ":" d)).
  rewrite !split_app_sep by done.
  pose proof (split_nonempty ":" d). by destruct (Py.split ":" d).
Qed.

Lemma last_piece_plain d : Py.contains ":" d = false → last_piece d = d.
Proof. intros Hd. unfold last_piece. by rewrite split_no_sep. Qed.

Lemma split_pieces c s : Forall (fun w => Py.contains c w = false) (Py.split c s).
Proof.
  induction s as [|a s IH]; simpl; [by apply Forall_singleton|].
  destruct (decide (a = c)) as [|Hne]; [by apply Forall_cons|].
  pose proof (split_nonempty c s) as Hsplit.
  destruct (Py.split c s) as [|w ws]; [done|].
  apply Forall_cons in IH as [Hw Hws]. apply Forall_cons. split; [|done].
  simpl. by rewrite decide_False.
Qed.

Lemma last_piece_no_colon d : Py.contains ":" (last_piece d) = false.
Proof.
  unfold last_piece. pose proof (split_pieces ":" d) as Hall.
  pose proof (split_nonempty ":" d) as Hne.
  induction (Py.split ":" d) as [|w ws IH]; [done|].
  apply Forall_cons in Hall as [Hw Hws]. destruct ws as [|w' ws]; [done|].
  by apply IH.
Qed.

Lemma concat_filter_single {A} (g : string → list A) ks a :
  NoDup ks →
  concat (map g (filter (fun k => k = a) ks)) = if decide (a ∈ ks) then g a else [].
Proof.
  induction ks as [|k ks IH]; intros Hnd.
  - by rewrite decide_False by apply not_elem_of_nil.
  - apply NoDup_cons in Hnd as [Hk Hnd]. rewrite filter_cons.
    destruct (decide (k = a)) as [->|Hne].
    + simpl. rewrite IH by done. rewrite decide_False by done.
      rewrite decide_True by (by left). by rewrite app_nil_r.
    + rewrite IH by done. destruct (decide (a ∈ ks)) as [Hin|Hin].
      * rewrite decide_True; [done|by right].
      * rewrite decide_False; [done|]. by intros [?|?]%elem_of_cons.
Qed.

Lemma filter_iff {A} (P Q : A → Prop) `{∀ x, Decision (P x)} `{∀ x, Decision (Q x)}
    (l : list A) :
  (∀ x, x ∈ l → P x ↔ Q x) → filter P l = filter Q l.
Proof.
  induction l as [|x l IH]; intros Hpq; [done|]. rewrite !filter_cons.
  rewrite IH by (intros y Hy; apply Hpq; by right).
  destruct (decide (P x)) as [Hp|Hp].
  - rewrite decide_True; [done|]. apply Hpq; [by left|done].
  - rewrite decide_False; [done|]. intros Hq. apply Hp, Hpq; [by left|done].
Qed.

(** X3. Restart on a store that answered every call: when no queued host
    carries a colon, [initialize] on a new frontier over the same store
    succeeds and restores every queue, task by task and in order, and the
    set of processed URLs; the last-access times are not restored. *)
Theorem initialize_restores script delay cs delay' :
  Forall (eq true) script →
  let f := run (init (Redis.empty script) delay) cs in
  (∀ d, queue_of d (domain_queues f) ≠ [] → Py.contains ":" d = false) →
  ∃ f', initialize (init (redis_client f) delay') = Some f'
    ∧ (∀ d, queue_of d (domain_queues f') = queue_of d (domain_queues f))
    ∧ processed_urls f' = processed_urls f
    ∧ politeness_delay f' = delay'
    ∧ domain_last_access f' = ∅.
Proof.
  intros Hs f Hplain.
  pose proof (run_durable _ cs (init_durable script delay Hs)) as Hd. fold f in Hd.
  destruct (initialize_durable f delay' Hd) as (f' & Hinit & Hp & Hdelay & Hla & Hq).
  exists f'. split; [done|]. split; [|done].
  destruct Hd as (_ & _ & Hl & Hk & _).
  intros e. rewrite Hq.
  rewrite (filter_iff _ (fun k => k = domain_queue_prefix +:+ e)).
  - rewrite concat_filter_single by apply NoDup_fst_map_to_list.
    rewrite key_domain_queue_key. case_decide as Hin; [done|].
    rewrite map_to_list_keys, Hl in Hin.
    destruct (queue_of e (domain_queues f)); [done|].
    exfalso. apply Hin. by eexists.
  - intros k Hin. apply map_to_list_keys in Hin.
    pose proof Hin as Hsome. destruct (Hk k Hin) as [d ->].
    rewrite last_piece_queue_key, last_piece_plain.
    + split; [by intros ->|by intros ?%queue_key_inj].
    + apply Hplain. intros Hq0. rewrite Hl, Hq0 in Hsome. by destruct Hsome.
Qed.

(** X4. Restart files each stored list under the text after the last
    colon of its key. A task whose host carries a colon, as a host with a
    port does, therefore comes back in the queue of that text, which is not
    its host. *)
Theorem initialize_rekeys script delay cs delay' :
  Forall (eq true) script →
  let f := run (init (Redis.empty script) delay) cs in
  ∃ f', initialize (init (redis_client f) delay') = Some f'
    ∧ ∀ d t, t ∈ queue_of d (domain_queues f) →
        _get_domain (url t) = d
        ∧ t ∈ queue_of (last_piece d) (domain_queues f')
        ∧ (Py.contains ":" d = true → last_piece d ≠ _get_domain (url t)).
Proof.
  intros Hs f.
  pose proof (run_durable _ cs (init_durable script delay Hs)) as Hd. fold f in Hd.
  destruct (initialize_durable f delay' Hd) as (f' & Hinit & _ & _ & _ & Hq).
  exists f'. split; [done|]. intros d t Ht.
  destruct Hd as ([_ Hhost] & _ & Hl & _).
  split; [by apply Hhost|]. split.
  - rewrite Hq. apply list_elem_of_In, in_concat.
    exists (queue_of d (domain_queues f)).
    split; [|by apply list_elem_of_In]. apply list_elem_of_In.
    apply list_elem_of_fmap. exists (domain_queue_prefix +:+ d).
    split; [by rewrite key_domain_queue_key|].
    apply list_elem_of_filter. split; [apply last_piece_queue_key|].
    apply map_to_list_keys. rewrite Hl.
    destruct (queue_of d (domain_queues f)); [by apply elem_of_nil in Ht|by eexists].
  - intros Hcolon Heq. rewrite (Hhost d t Ht) in Heq.
    pose proof (last_piece_no_colon d) as Hno. rewrite Heq in Hno. congruence.
Qed.

End Reload.

Section FrontierAccounting.
Import Frontier FrontierState.
Context `{Urllib.BracketedHosts}.

(** X1. A stored task reads back as the task that was written:
    [from_dict] inverts [to_dict], it accepts exactly the dictionaries
    that [to_dict] can produce, and a priority value outside 1..4 makes it
    raise. *)
Theorem task_dict_round_trip :
  (∀ t, from_dict (to_dict t) = Some t)
  ∧ (∀ data t, from_dict data = Some t ↔ to_dict t = data)
  ∧ (∀ data, from_dict data = None ↔ d_priority data ∉ [1; 2; 3; 4]).
Proof.
  split; [exact from_dict_to_dict|]. split.
  - intros data t. split; [apply from_dict_some|].
    intros <-. apply from_dict_to_dict.
  - intros data. unfold from_dict, priority_of_value.
    rewrite !not_elem_of_cons.
    pose proof (not_elem_of_nil (d_priority data)).
    repeat case_decide; split; intros; try done; tauto.
Qed.

(** *** Queue lengths *)

Lemma total_append d t (qs : list (string * list URLTask)) :
  foldr Z.add 0 (map (fun dq : string * list URLTask => Z.of_nat (length dq.2))
                     (queue_append d t qs))
  = foldr Z.add 0 (map (fun dq : string * list URLTask => Z.of_nat (length dq.2)) qs)
    + 1.
Proof.
  induction qs as [|[d' q] qs IH]; simpl; [done|].
  destruct (decide (d' = d)); simpl.
  - rewrite length_app. simpl. lia.
  - rewrite IH. lia.
Qed.

Lemma total_set d q' (qs : list (string * list URLTask)) :
  queue_of d qs ≠ [] →
  foldr Z.add 0 (map (fun dq : string * list URLTask => Z.of_nat (length dq.2))
                     (queue_set d q' qs))
  = foldr Z.add 0 (map (fun dq : string * list URLTask => Z.of_nat (length dq.2)) qs)
    - Z.of_nat (length (queue_of d qs)) + Z.of_nat (length q').
Proof.
  induction qs as [|[d' q] qs IH]; simpl; [done|].
  destruct (decide (d' = d)); simpl; intros Hq.
  - lia.
  - rewrite IH by done. lia.
Qed.

Lemma total_filter (qs : list (string * list URLTask)) :
  foldr Z.add 0
    (map (fun dq : string * list URLTask => Z.of_nat (length dq.2))
         (filter (fun dq : string * list URLTask => dq.2 ≠ []) qs))
  = foldr Z.add 0 (map (fun dq : string * list URLTask => Z.of_nat (length dq.2)) qs).
Proof.
  induction qs as [|[d q] qs IH]; [done|]. rewrite filter_cons. simpl.
  destruct (decide (q ≠ [])) as [Hq|Hq]; simpl; rewrite IH; [done|].
  destruct q; [done|]. by destruct Hq.
Qed.

Lemma total_bounds (qs : list (string * list URLTask)) :
  Z.of_nat (length (filter (fun dq : string * list URLTask => dq.2 ≠ []) qs))
  ≤ foldr Z.add 0 (map (fun dq : string * list URLTask => Z.of_nat (length dq.2)) qs)
  ∧ (length (filter (fun dq : string * list URLTask => dq.2 ≠ []) qs) ≤ length qs)%nat.
Proof.
  induction qs as [|[d q] qs [IH1 IH2]]; [done|]. rewrite filter_cons. simpl.
  destruct (decide (q ≠ [])) as [Hq|Hq]; simpl.
  - destruct q; [done|]. simpl. lia.
  - lia.
Qed.

Lemma is_empty_total f :
  is_empty f = true ↔ total_queued (get_stats f) = 0.
Proof.
  unfold is_empty, get_stats. simpl.
  induction (domain_queues f) as [|[d q] qs IH]; simpl; [done|].
  pose proof (total_bounds qs) as [Hb _].
  rewrite andb_true_iff, IH, bool_decide_eq_true. simpl. split.
  - intros [-> ->]. done.
  - intros Hsum. destruct q; simpl in *; [split; [done|lia]|lia].
Qed.

(** X5. What [get_stats] counts. Adding an unprocessed task raises
    [total_queued] by one and a refused task changes nothing; a task handed
    out lowers it by one and leaves the number of domains; [cleanup] keeps
    [total_queued] and leaves exactly the domains that have URLs; the
    frontier is empty exactly when [total_queued] is 0; and there are never
    more domains with URLs than domains or than queued tasks. *)
Theorem queue_accounting f :
  wf f →
  (∀ task, url task ∉ processed_urls f →
     total_queued (get_stats (add_url f task).2) = total_queued (get_stats f) + 1
     ∧ total_processed (get_stats (add_url f task).2) = total_processed (get_stats f))
  ∧ (∀ task, url task ∈ processed_urls f →
       get_stats (add_url f task).2 = get_stats f)
  ∧ (∀ now task f', get_next_url f now = (Some task, f') →
       total_queued (get_stats f') = total_queued (get_stats f) - 1
       ∧ total_domains (get_stats f') = total_domains (get_stats f)
       ∧ total_processed (get_stats f') = total_processed (get_stats f))
  ∧ (total_queued (get_stats (cleanup f)) = total_queued (get_stats f)
     ∧ total_domains (get_stats (cleanup f)) = domains_with_urls (get_stats f)
     ∧ domains_with_urls (get_stats (cleanup f)) = domains_with_urls (get_stats f))
  ∧ (is_empty f = true ↔ total_queued (get_stats f) = 0)
  ∧ domains_with_urls (get_stats f) ≤ total_domains (get_stats f)
  ∧ domains_with_urls (get_stats f) ≤ total_queued (get_stats f).
Proof.
  intros Hwf. split; [|split; [|split; [|split; [|split]]]].
  - intros task Hp. destruct (add_url_fields f task) as (_ & _ & Hproc & Hqs).
    rewrite bool_decide_eq_false_2 in Hqs by done.
    unfold get_stats. simpl. rewrite Hqs, Hproc. split; [apply total_append|done].
  - intros task Hp. destruct (add_url_cases f task) as [Hsame _].
    by rewrite (Hsame Hp).
  - intros now task f' Hn.
    apply get_next_url_some in Hn
      as (h & i & [Hq _] & Hi & _ & _ & _ & Hqs & _ & Hproc & _); [|done].
    unfold get_stats. simpl. rewrite Hqs, Hproc. split; [|split; [|done]].
    + rewrite total_set by done. rewrite length_delete by (by eexists).
      apply lookup_lt_Some in Hi. lia.
    + f_equal. rewrite <- !(length_map fst). by rewrite queue_set_keys.
  - unfold get_stats, cleanup. simpl. split; [apply total_filter|]. split; [done|].
    f_equal. f_equal. rewrite list_filter_filter. apply filter_iff.
    intros x _. tauto.
  - apply is_empty_total.
  - unfold get_stats. simpl. pose proof (total_bounds (domain_queues f)). lia.
Qed.

(** *** Emptiness *)

Lemma available_domains_empty f now :
  is_empty f = true → available_domains f now = [].
Proof.
  unfold is_empty, available_domains.
  induction (domain_queues f) as [|[d q] qs IH]; simpl; [done|].
  intros [->%bool_decide_eq_true Hqs]%andb_true_iff. simpl. by apply IH.
Qed.

(** X6. An empty frontier hands out nothing, whatever the time, and stays
    as it is. A frontier that is not empty hands out a task as soon as the
    politeness delay of every host has elapsed. *)
Theorem is_empty_next f now :
  wf f →
  (is_empty f = true → get_next_url f now = (None, f))
  ∧ (is_empty f = false →
     (∀ d, politeness_delay f ≤ now - default 0 (domain_last_access f !! d)) →
     ∃ task f', get_next_url f now = (Some task, f')).
Proof.
  intros Hwf. split.
  - intros He. unfold get_next_url. by rewrite available_domains_empty.
  - intros He Hidle.
    destruct (get_next_url f now) as [[task|] f'] eqn:Hn; [by eauto|].
    apply get_next_url_none in Hn as [_ Hnone]; [|done]. exfalso.
    unfold is_empty in He. apply not_true_iff_false in He.
    apply He, forallb_forall. intros [d q] Hin%list_elem_of_In.
    apply bool_decide_eq_true. simpl.
    destruct q as [|t q]; [done|]. exfalso. apply (Hnone d). split; [|done].
    by rewrite (queue_of_elem _ _ _ Hwf Hin).
Qed.

End FrontierAccounting.

Section FrontierCleanup.
Import Frontier FrontierState.
Context `{Urllib.BracketedHosts}.

Lemma available_domains_cleanup f now :
  available_domains (cleanup f) now = available_domains f now.
Proof.
  unfold available_domains, cleanup. simpl.
  induction (domain_queues f) as [|[d q] qs IH]; [done|].
  rewrite filter_cons. simpl. destruct (decide (q ≠ [])) as [Hq|Hq]; simpl.
  - by rewrite IH.
  - rewrite IH. destruct q; [done|]. by destruct Hq.
Qed.

Lemma cleanup_log ds r :
  Redis.log
    (fold_left (fun r d => (Redis.call (Redis.DELETE (domain_queue_prefix +:+ d)) r).2)
               ds r)
  = Redis.log r ++ map (fun d => Redis.DELETE (domain_queue_prefix +:+ d)) ds.
Proof.
  revert r. induction ds as [|d ds IH]; intros r; simpl; [by rewrite app_nil_r|].
  rewrite IH.
  assert (Hlog : Redis.log (Redis.call (Redis.DELETE (domain_queue_prefix +:+ d)) r).2
                 = Redis.log r ++ [Redis.DELETE (domain_queue_prefix +:+ d)])
    by (unfold Redis.call; by destruct (Redis.script r) as [|[] ?]).
  by rewrite Hlog, <- app_assoc.
Qed.

(** X7. [cleanup] drops the empty queues and nothing else: every queue
    reads as before, no empty queue is left, the last-access times and the
    processed set stay, one [DELETE] is issued for each dropped domain, in
    order, and [get_next_url] hands out the same task as without the
    cleanup. *)
Theorem cleanup_spec f :
  wf f →
  (∀ d, queue_of d (domain_queues (cleanup f)) = queue_of d (domain_queues f))
  ∧ Forall (fun dq : string * list URLTask => dq.2 ≠ []) (domain_queues (cleanup f))
  ∧ domain_last_access (cleanup f) = domain_last_access f
  ∧ processed_urls (cleanup f) = processed_urls f
  ∧ Redis.log (redis_client (cleanup f))
    = Redis.log (redis_client f)
      ++ map (fun d => Redis.DELETE (domain_queue_prefix +:+ d))
             (map fst (filter (fun dq : string * list URLTask => dq.2 = [])
                              (domain_queues f)))
  ∧ (∀ now, (get_next_url (cleanup f) now).1 = (get_next_url f now).1).
Proof.
  intros Hwf. split; [|split; [|split; [|split; [|split]]]].
  - intros d. by apply queue_of_filter_nonempty.
  - apply Forall_forall. intros dq Hin. by apply list_elem_of_filter in Hin as [? _].
  - done.
  - done.
  - unfold cleanup. simpl. apply cleanup_log.
  - intros now. unfold get_next_url. rewrite available_domains_cleanup.
    destruct (sort_desc (available_domains f now)) as [|[[h m] tsa] r]; [done|].
    replace (queue_of h (domain_queues (cleanup f)))
      with (queue_of h (domain_queues f))
      by (symmetry; by apply queue_of_filter_nonempty).
    destruct (scan_best None 0 (queue_of h (domain_queues f))) as [[bt bi]|]; [|done].
    by do 2 destruct (Redis.call _ _).
Qed.

Lemma add_url_reliable f task :
  reliable (redis_client f) →
  reliable (redis_client (add_url f task).2)
  ∧ (url task ∉ processed_urls f → (add_url f task).1 = true).
Proof.
  intros Hr. unfold add_url. case_bool_decide; [done|].
  pose proof (call_reliable
    (Redis.RPUSH (domain_queue_prefix +:+ _get_domain (url task)) (to_dict task))
    _ Hr) as (Hok & _ & _ & _ & Hr').
  by destruct (Redis.call _ _).
Qed.

(** X8. [add_urls] counts the tasks that [add_url] accepted: between 0 and
    the number of tasks. On a store that answers, every task with an
    unprocessed URL counts and is queued, also when its URL is queued
    already or occurs twice in the list; when every URL is processed
    nothing is added. *)
Theorem add_urls_count f tasks :
  (0 ≤ (add_urls f tasks).1 ≤ Z.of_nat (length tasks))
  ∧ (reliable (redis_client f) →
     Forall (fun t => url t ∉ processed_urls f) tasks →
     (add_urls f tasks).1 = Z.of_nat (length tasks)
     ∧ total_queued (get_stats (add_urls f tasks).2)
       = total_queued (get_stats f) + Z.of_nat (length tasks))
  ∧ (Forall (fun t => url t ∈ processed_urls f) tasks → add_urls f tasks = (0, f)).
Proof.
  split; [|split].
  - revert f. induction tasks as [|t tasks IH]; intros f; simpl; [lia|].
    destruct (add_url f t) as [added f1].
    specialize (IH f1). destruct (add_urls f1 tasks) as [n f2]. simpl in *.
    destruct added; lia.
  - revert f. induction tasks as [|t tasks IH]; intros f Hr Hall; simpl.
    + split; [done|lia].
    + apply Forall_cons in Hall as [Ht Hall].
      destruct (add_url_reliable f t Hr) as [Hr1 Hok]. specialize (Hok Ht).
      destruct (add_url_fields f t) as (_ & _ & Hproc & Hqs).
      rewrite bool_decide_eq_false_2 in Hqs by done.
      destruct (add_url f t) as [added f1]. simpl in *. subst added.
      destruct (IH f1 Hr1) as [Hn Htotal]; [by rewrite Hproc|].
      destruct (add_urls f1 tasks) as [n f2]. simpl in *. subst n.
      split; [lia|]. rewrite Htotal. unfold get_stats. simpl.
      rewrite Hqs, total_append. lia.
  - revert f. induction tasks as [|t tasks IH]; intros f Hall; simpl; [done|].
    apply Forall_cons in Hall as [Ht Hall].
    destruct (add_url_cases f t) as [Hsame _]. rewrite (Hsame Ht).
    by rewrite (IH f Hall).
Qed.

End FrontierCleanup.

Section FrontierStateExamples.
Import Frontier FrontierState.
Local Existing Instance Ex.hosts.

Lemma durable_mirror_witness :
  let f := run (init (Redis.empty [true; true; true]) 2)
               [Add Ex.seed_root; Add Ex.seed_x; Next 100] in
  Forall (eq true) [true; true; true]
  ∧ Redis.lists (redis_client f) !! (domain_queue_prefix +:+ "a.example")
    = match queue_of "a.example" (domain_queues f) with
      | [] => None
      | _ => Some (map to_dict (queue_of "a.example" (domain_queues f)))
      end
  ∧ queue_of "a.example" (domain_queues f) = [Ex.seed_x].
Proof.
  intros f.
  assert (Hup : Forall (eq true) [true; true; true]) by (repeat constructor).
  split; [exact Hup|]. split; [|vm_compute; reflexivity].
  exact (proj1 (durable_mirror [true; true; true] 2
                  [Add Ex.seed_root; Add Ex.seed_x; Next 100] Hup) "a.example").
Defined.

Lemma initialize_restores_witness :
  let f := run (init (Redis.empty []) 2) [Add Ex.seed_root; Add Ex.link_b] in
  Forall (eq true) []
  ∧ (∀ d, queue_of d (domain_queues f) ≠ [] → Py.contains ":" d = false)
  ∧ ∃ f', initialize (init (redis_client f) 5) = Some f'
      ∧ (∀ d, queue_of d (domain_queues f') = queue_of d (domain_queues f))
      ∧ processed_urls f' = processed_urls f
      ∧ politeness_delay f' = 5
      ∧ domain_last_access f' = ∅.
Proof.
  intros f.
  assert (Hup : Forall (eq true) (@nil bool)) by constructor.
  assert (Hplain : ∀ d, queue_of d (domain_queues f) ≠ [] → Py.contains ":" d = false).
  { intros d.
    assert (Hqs : domain_queues f
                  = [("a.example", [Ex.seed_root]); ("b.example", [Ex.link_b])])
      by (vm_compute; reflexivity).
    rewrite Hqs. simpl.
    destruct (decide ("a.example" = d)) as [<-|_]; [done|].
    destruct (decide ("b.example" = d)) as [<-|_]; done. }
  split; [exact Hup|]. split; [exact Hplain|].
  exact (initialize_restores [] 2 [Add Ex.seed_root; Add Ex.link_b] 5 Hup Hplain).
Defined.

Lemma initialize_rekeys_witness :
  let t := mkTask "https://a.example:8080/x" 0 HIGH None 0 0 in
  let f := run (init (Redis.empty []) 2) [Add t] in
  Forall (eq true) []
  ∧ t ∈ queue_of "a.example:8080" (domain_queues f)
  ∧ last_piece "a.example:8080" = "8080"
  ∧ ∃ f', initialize (init (redis_client f) 2) = Some f'
      ∧ (t ∈ queue_of (last_piece "a.example:8080") (domain_queues f'))
      ∧ (last_piece "a.example:8080" ≠ _get_domain (url t)).
Proof.
  intros t f.
  assert (Hup : Forall (eq true) (@nil bool)) by constructor.
  assert (Hin : t ∈ queue_of "a.example:8080" (domain_queues f))
    by (vm_compute; left).
  split; [exact Hup|]. split; [exact Hin|]. split; [vm_compute; reflexivity|].
  destruct (initialize_rekeys [] 2 [Add t] 2 Hup) as (f' & Hinit & Hall).
  exists f'. split; [exact Hinit|].
  destruct (Hall "a.example:8080" t Hin) as (_ & Hq & Hne).
  split; [exact Hq|]. apply Hne. vm_compute. reflexivity.
Defined.

Lemma queue_accounting_witness :
  wf Ex.seeded
  ∧ (url Ex.retried ∉ processed_urls Ex.seeded)
  ∧ total_queued (get_stats (add_url Ex.seeded Ex.retried).2)
    = total_queued (get_stats Ex.seeded) + 1.
Proof.
  assert (Hwf : wf Ex.seeded)
    by (unfold wf; apply (bool_decide_unpack _); vm_compute; exact I).
  assert (Hnew : url Ex.retried ∉ processed_urls Ex.seeded)
    by (apply (bool_decide_unpack _); vm_compute; exact I).
  split; [exact Hwf|]. split; [exact Hnew|].
  exact (proj1 (proj1 (queue_accounting Ex.seeded Hwf) Ex.retried Hnew)).
Defined.

Lemma is_empty_next_witness :
  wf Ex.two_seeds
  ∧ is_empty Ex.two_seeds = false
  ∧ (∀ d, politeness_delay Ex.two_seeds
          ≤ 100 - default 0 (domain_last_access Ex.two_seeds !! d))
  ∧ ∃ task f', get_next_url Ex.two_seeds 100 = (Some task, f').
Proof.
  assert (Hwf : wf Ex.two_seeds)
    by (unfold wf; apply (bool_decide_unpack _); vm_compute; exact I).
  assert (He : is_empty Ex.two_seeds = false) by (vm_compute; reflexivity).
  assert (Hidle : ∀ d, politeness_delay Ex.two_seeds
                       ≤ 100 - default 0 (domain_last_access Ex.two_seeds !! d)).
  { intros d.
    assert (Hla : domain_last_access Ex.two_seeds = ∅) by (vm_compute; reflexivity).
    rewrite Hla, lookup_empty. vm_compute. discriminate. }
  split; [exact Hwf|]. split; [exact He|]. split; [exact Hidle|].
  exact (proj2 (is_empty_next Ex.two_seeds 100 Hwf) He Hidle).
Defined.

Lemma cleanup_spec_witness :
  let f := (get_next_url (run (init (Redis.empty []) 2) [Add Ex.link_b]) 100).2 in
  wf f
  ∧ domain_queues f = [("b.example", [])]
  ∧ Forall (fun dq : string * list URLTask => dq.2 ≠ []) (domain_queues (cleanup f))
  ∧ ∀ now, (get_next_url (cleanup f) now).1 = (get_next_url f now).1.
Proof.
  intros f.
  assert (Hwf : wf f)
    by (unfold wf; apply (bool_decide_unpack _); vm_compute; exact I).
  split; [exact Hwf|]. split; [vm_compute; reflexivity|].
  split; [exact (proj1 (proj2 (cleanup_spec f Hwf)))|].
  exact (proj2 (proj2 (proj2 (proj2 (proj2 (cleanup_spec f Hwf)))))).
Defined.

Lemma add_urls_count_witness :
  let f := init (Redis.empty []) 1 in
  reliable (redis_client f)
  ∧ Forall (fun t => url t ∉ processed_urls f) [Ex.seed_root; Ex.seed_root]
  ∧ (add_urls f [Ex.seed_root; Ex.seed_root]).1 = 2.
Proof.
  intros f.
  assert (Hr : reliable (redis_client f)) by constructor.
  assert (Hnew : Forall (fun t => url t ∉ processed_urls f) [Ex.seed_root; Ex.seed_root])
    by (repeat constructor; apply not_elem_of_empty).
  split; [exact Hr|]. split; [exact Hnew|].
  exact (proj1 (proj1 (proj2 (add_urls_count f [Ex.seed_root; Ex.seed_root])) Hr Hnew)).
Defined.

End FrontierStateExamples.

(** ** Defects of the frontier *)

Section FrontierDefects.
Import Frontier FrontierState.
Local Existing Instance Ex.hosts.

(** A failed task whose URL is processed already is reported as retried
    and queued nowhere: [mark_failed] drops the answer of [add_url]. *)
Lemma mark_failed_refused f task max_retries :
  url task ∈ processed_urls f → retry_count task < max_retries →
  mark_failed f task max_retries
  = (true,
     mkTask (url task) (depth task) LOW (parent_url task)
            (discovered_time task) (retry_count task + 1),
     f).
Proof.
  intros Hp Hr. unfold mark_failed. rewrite bool_decide_eq_true_2 by done.
  unfold add_url. simpl. by rewrite bool_decide_eq_true_2.
Qed.

(** C1, at a failing input. An earlier run left one task of the host
    a.example:8080 in the store. [initialize] files it under 8080, the text
    after the last colon of its key. It is handed out at time 100; a link
    to the same host is then added, which [add_url] files under
    a.example:8080, a queue that has no last access, and it is handed out
    at time 101 although the delay is 10. The same calls on the frontier
    that was not reloaded end in [None]. *)
Theorem politeness_lost_after_reload :
  let a := mkTask "http://a.example:8080/a" 0 NORMAL None 0 0 in
  let b := mkTask "http://a.example:8080/b" 1 NORMAL (Some "http://a.example:8080/a") 100 0 in
  let earlier := run (init (Redis.empty []) 10) [Add a] in
  let fresh := run (init (Redis.empty []) 10) [Add a] in
  _get_domain (url a) = "a.example:8080"
  ∧ _get_domain (url b) = "a.example:8080"
  ∧ ∃ f1 f2 f4,
      initialize (init (redis_client earlier) 10) = Some f1
      ∧ domain_queues f1 = [("8080", [a])]
      ∧ get_next_url f1 100 = (Some a, f2)
      ∧ domain_queues (add_url f2 b).2 = [("8080", []); ("a.example:8080", [b])]
      ∧ get_next_url (add_url f2 b).2 101 = (Some b, f4)
      ∧ 101 - 100 < politeness_delay (add_url f2 b).2
      ∧ get_next_url (add_url (get_next_url fresh 100).2 b).2 101
        = (None, (add_url (get_next_url fresh 100).2 b).2).
Proof.
  intros a b earlier fresh.
  split; [vm_compute; reflexivity|]. split; [vm_compute; reflexivity|].
  destruct (initialize (init (redis_client earlier) 10)) as [f1|] eqn:Hinit;
    [|vm_compute in Hinit; discriminate].
  exists f1, (get_next_url f1 100).2,
         (get_next_url (add_url (get_next_url f1 100).2 b).2 101).2.
  assert (Hf1 : Some f1 = initialize (init (redis_client earlier) 10)) by done.
  vm_compute in Hf1. injection Hf1 as ->.
  split; [done|].
  repeat split; vm_compute; reflexivity.
Qed.

(** C4, at a failing input. A URL is queued twice, as a seed and as a
    link of another page, which [add_url] allows. The seed is handed out
    and its URL marked processed; the link is handed out later and fails.
    [mark_failed] returns [True], the value its docstring gives to a task
    that was re-queued, while [add_url] refused the task: the frontier is
    as it was, empty, and hands out nothing at any time. *)
Theorem mark_failed_unqueued_retry :
  let seed := Ex.seed_x in
  let link := mkTask "https://a.example/x" 1 NORMAL (Some "https://a.example/") 5 0 in
  let before := run (init (Redis.empty []) 1)
                    [Add seed; Add link; Next 100; MarkProcessed (url seed)] in
  let f := (get_next_url before 200).2 in
  (get_next_url (run (init (Redis.empty []) 1) [Add seed; Add link]) 100).1 = Some seed
  ∧ (get_next_url before 200).1 = Some link
  ∧ retry_count link < 3
  ∧ (mark_failed f link 3).1.1 = true
  ∧ (mark_failed f link 3).2 = f
  ∧ is_empty (mark_failed f link 3).2 = true
  ∧ ∀ now, get_next_url (mark_failed f link 3).2 now = (None, (mark_failed f link 3).2).
Proof.
  intros seed link before f.
  assert (Hp : url link ∈ processed_urls f)
    by (apply (bool_decide_unpack _); vm_compute; exact I).
  assert (Hr : retry_count link < 3) by (vm_compute; reflexivity).
  rewrite (mark_failed_refused f link 3 Hp Hr). simpl.
  assert (He : is_empty f = true) by (vm_compute; reflexivity).
  split; [vm_compute; reflexivity|]. split; [vm_compute; reflexivity|].
  split; [exact Hr|]. split; [done|]. split; [done|]. split; [exact He|].
  intros now. unfold get_next_url. by rewrite available_domains_empty.
Qed.

End FrontierDefects.

Section FetcherRunsFacts.
Import Fetcher FetcherRuns.
Context `{PyLib} `{Urllib.BracketedHosts}.

(** With an empty robots cache, [fetch] is the page request on a fetcher
    with the same counters. *)
Lemma fetch_as_page w server now u :
  cache_empty w →
  ∃ w', fetch w server now u = fetch_page w' server u
    ∧ stats w' = stats w
    ∧ robots_checker w' = robots_checker w.
Proof.
  unfold cache_empty, fetch. intros Hempty.
  destruct (respect_robots_txt w) eqn:Hrespect; [|by exists w].
  destruct (robots_checker w) as [c|] eqn:Hc; [|by exists w].
  destruct (can_fetch_allows c server now u Hempty) as [asked ->].
  eexists. split; [reflexivity|]. done.
Qed.

Lemma fetch_page_stats w server u :
  let st := stats w in
  let st' := stats (fetch_page w server u).2 in
  r_url (fetch_page w server u).1 = u
  ∧ total_requests st' = total_requests st + 1
  ∧ failed_requests st'
    = failed_requests st + (if raises server (0, u) then 1 else 0)
  ∧ successful_requests st'
    = successful_requests st + (if delivers server (0, u) then 1 else 0)
  ∧ robots_blocked st' = robots_blocked st
  ∧ total_bytes_downloaded st'
    = total_bytes_downloaded st
      + Py.len (default "" (content (fetch_page w server u).1)).
Proof.
  unfold fetch_page, raises, delivers. simpl.
  assert (Hzero : Py.len "" = 0) by done.
  destruct (server u) as [e|r]; simpl; [rewrite Hzero; repeat split; lia|].
  destruct (_is_text_content _); simpl; [|rewrite Hzero; repeat split; lia].
  destruct (_read_content_safely r) as [[|a text]|]; simpl;
    rewrite ?Hzero; repeat split; lia.
Qed.


Lemma fetch_stats w server now u :
  cache_empty w →
  let st := stats w in
  let st' := stats (fetch w server now u).2 in
  cache_empty (fetch w server now u).2
  ∧ r_url (fetch w server now u).1 = u
  ∧ total_requests st' = total_requests st + 1
  ∧ failed_requests st'
    = failed_requests st + (if raises server (now, u) then 1 else 0)
  ∧ successful_requests st'
    = successful_requests st + (if delivers server (now, u) then 1 else 0)
  ∧ robots_blocked st' = robots_blocked st
  ∧ total_bytes_downloaded st'
    = total_bytes_downloaded st
      + Py.len (default "" (content (fetch w server now u).1)).
Proof.
  intros Hempty. split; [by apply fetch_never_blocked|].
  destruct (fetch_as_page w server now u Hempty) as (w' & -> & Hst & _).
  simpl. rewrite <- Hst. apply fetch_page_stats.
Qed.

Lemma fetch_each_stats w server requests :
  cache_empty w →
  let st := stats w in
  let st' := stats (fetch_each w server requests).2 in
  map r_url (fetch_each w server requests).1 = map snd requests
  ∧ total_requests st' = total_requests st + Z.of_nat (length requests)
  ∧ failed_requests st'
    = failed_requests st
      + Z.of_nat (length (filter (fun q => raises server q = true) requests))
  ∧ successful_requests st'
    = successful_requests st
      + Z.of_nat (length (filter (fun q => delivers server q = true) requests))
  ∧ robots_blocked st' = robots_blocked st
  ∧ total_bytes_downloaded st'
    = total_bytes_downloaded st
      + foldr Z.add 0
          (map (fun r => Py.len (default "" (content r)))
               (fetch_each w server requests).1).
Proof.
  revert w. induction requests as [|[now u] requests IH]; intros w Hempty; simpl.
  - repeat split; lia.
  - destruct (fetch_stats w server now u Hempty)
      as (Hempty' & Hurl & Ht & Hf & Hs & Hb & Hbytes).
    destruct (fetch w server now u) as [result w1]. simpl in *.
    destruct (IH w1 Hempty') as (Hurls & Ht' & Hf' & Hs' & Hb' & Hbytes').
    destruct (fetch_each w1 server requests) as [results w2]. simpl in *.
    rewrite !filter_cons.
    split; [by rewrite Hurl, Hurls|].
    split; [lia|]. split; [|split; [|split; [congruence|lia]]].
    + destruct (raises server (now, u)); simpl; lia.
    + destruct (delivers server (now, u)); simpl; lia.
Qed.

(** X9. The counters of a fetcher after any sequence of fetches from its
    construction: one request is counted per fetch, a failure for each
    fetch on which the session raised, a success for each fetch that
    delivered a non-empty text body, and its length is added to the bytes
    downloaded. A response of another content type or with an empty,
    oversize or unreadable body counts as neither, and nothing is ever
    counted as blocked by robots.txt. Results come in the order of the
    requests. *)
Theorem fetch_counters ua respect server requests :
  let run := fetch_each (new_fetcher ua respect) server requests in
  let st := stats run.2 in
  map r_url run.1 = map snd requests
  ∧ total_requests st = Z.of_nat (length requests)
  ∧ failed_requests st
    = Z.of_nat (length (filter (fun q => raises server q = true) requests))
  ∧ successful_requests st
    = Z.of_nat (length (filter (fun q => delivers server q = true) requests))
  ∧ robots_blocked st = 0
  ∧ total_bytes_downloaded st
    = foldr Z.add 0 (map (fun r => Py.len (default "" (content r))) run.1)
  ∧ successful_requests st + failed_requests st ≤ total_requests st.
Proof.
  intros run st.
  assert (Hempty : cache_empty (new_fetcher ua respect))
    by (unfold cache_empty, new_fetcher; by destruct respect).
  destruct (fetch_each_stats (new_fetcher ua respect) server requests Hempty)
    as (Hurls & Ht & Hf & Hs & Hb & Hbytes).
  fold run in Hurls, Ht, Hf, Hs, Hb, Hbytes. fold st in Ht, Hf, Hs, Hb, Hbytes.
  simpl in Ht, Hf, Hs, Hb, Hbytes.
  repeat (split; [done|]). rewrite Hs, Hf, Ht.
  clear. induction requests as [|q requests IH]; [done|].
  rewrite !filter_cons. unfold raises, delivers in *.
  destruct (server q.2); simpl; [lia|].
  destruct (decide _); simpl length; lia.
Qed.

(** X10. What [fetch] returns when the request fails or the response has
    no text type, on a fetcher whose robots cache is empty. If the session
    raises, the result has status code 0, no content and no headers, and
    the error text of the exception class, and a failed request is counted.
    If the response has no [Content-Type] header, the result carries the
    status and the headers of the response, the error "Non-text content
    type", the empty content type and no content; the body is not read and
    the request counts as neither failed nor successful. *)
Theorem fetch_failure w server now u :
  cache_empty w →
  (∀ e, server u = Fails e →
     (fetch w server now u).1
     = mkResult u 0 None None
         (Some match e with
               | TimeoutError => "Request timeout"
               | ClientError msg => "Client error: " +:+ msg
               | OtherError msg => "Unexpected error: " +:+ msg
               end)
         None None
     ∧ failed_requests (stats (fetch w server now u).2)
       = failed_requests (stats w) + 1)
  ∧ (∀ r, server u = Responds r →
       headers_get "content-type" (headers r) = None →
       (fetch w server now u).1
       = mkResult u (status r) None (Some (headers r))
                  (Some "Non-text content type") (Some "") None
       ∧ failed_requests (stats (fetch w server now u).2) = failed_requests (stats w)
       ∧ successful_requests (stats (fetch w server now u).2)
         = successful_requests (stats w)).
Proof.
  intros Hempty.
  destruct (fetch_as_page w server now u Hempty) as (w' & -> & Hst & _).
  rewrite <- Hst. unfold fetch_page. split.
  - intros e ->. simpl. split; [by destruct e|done].
  - intros r -> ->. simpl. done.
Qed.


Lemma read_chunks_all acc s bytes :
  read_all s = Some bytes →
  (∀ k, Z.of_nat (length acc) + cumulative k s ≤ max_size) →
  read_chunks acc s = Some (Some (acc ++ bytes)).
Proof.
  revert acc bytes. induction s as [|data rest IH|]; intros acc bytes; simpl.
  - intros [= <-] _. by rewrite app_nil_r.
  - destruct (read_all rest) as [bytes'|]; [|done]. intros [= <-] Hcum.
    rewrite bool_decide_eq_false_2.
    + rewrite (IH (acc ++ data) bytes' eq_refl); [by rewrite <- app_assoc|].
      intros k. specialize (Hcum (S k)). rewrite cumulative_chunk in Hcum.
      rewrite length_app. lia.
    + specialize (Hcum 1%nat). rewrite cumulative_chunk, cumulative_zero in Hcum.
      rewrite length_app. lia.
  - done.
Qed.

(** X11. A body within the limits is read whole. When the declared
    [Content-Length], if any, is at most 10 MiB (a length of exactly 10 MiB
    passes), the stream ends without an error and the bytes received never
    exceed 10 MiB, [_read_content_safely] returns the decoding of all the
    bytes: with the charset of the response, or utf-8 when it has none; on
    a [UnicodeDecodeError] with the first of utf-8, latin-1 and cp1252 that
    decodes; and with utf-8 ignoring errors when none does. *)
Theorem read_content_within_limit r bytes :
  declared_length_ok r →
  read_all (body r) = Some bytes →
  (∀ k, cumulative k (body r) ≤ max_size) →
  _read_content_safely r
  = match bytes_decode
            (match charset r with
             | Some c => if Py.truthy c then c else "utf-8"
             | None => "utf-8"
             end) bytes with
    | Decoded text => Some text
    | UnicodeDecodeError =>
        match bytes_decode "utf-8" bytes with
        | Decoded text => Some text
        | LookupError => None
        | UnicodeDecodeError =>
            match bytes_decode "latin-1" bytes with
            | Decoded text => Some text
            | LookupError => None
            | UnicodeDecodeError =>
                match bytes_decode "cp1252" bytes with
                | Decoded text => Some text
                | LookupError => None
                | UnicodeDecodeError => Some (bytes_decode_ignore bytes)
                end
            end
        end
    | LookupError => None
    end.
Proof.
  intros Hdecl Hall Hcum. unfold _read_content_safely.
  assert (Hread : read_chunks [] (body r) = Some (Some bytes)).
  { rewrite (read_chunks_all [] _ bytes Hall); [done|]. intros k. simpl.
    specialize (Hcum k). lia. }
  unfold declared_length_ok in Hdecl.
  destruct (headers_get "content-length" (headers r)) as [cl|].
  - destruct Hdecl as [->|(n & Hn & Hle)].
    + simpl. rewrite Hread. by destruct (bytes_decode _ bytes).
    + destruct (Py.truthy cl).
      * rewrite Hn, bool_decide_eq_false_2 by lia. rewrite Hread.
        by destruct (bytes_decode _ bytes).
      * rewrite Hread. by destruct (bytes_decode _ bytes).
  - rewrite Hread. by destruct (bytes_decode _ bytes).
Qed.

End FetcherRunsFacts.

Section FetcherRunsExamples.
Import Fetcher FetcherRuns.
Local Existing Instance Ex.hosts.
Local Existing Instance Ex.fetch_lib.

Lemma fetch_failure_witness :
  let w := new_fetcher "crawler-bot" true in
  let u := "https://z.example/" in
  cache_empty w
  ∧ Ex.web u = Fails (ClientError "Cannot connect to host")
  ∧ (fetch w Ex.web 0 u).1
    = mkResult u 0 None None (Some "Client error: Cannot connect to host") None None
  ∧ failed_requests (stats (fetch w Ex.web 0 u).2) = failed_requests (stats w) + 1.
Proof.
  intros w u.
  assert (Hempty : cache_empty w) by reflexivity.
  assert (Hfails : Ex.web u = Fails (ClientError "Cannot connect to host"))
    by reflexivity.
  split; [exact Hempty|]. split; [exact Hfails|].
  exact (proj1 (fetch_failure w Ex.web 0 u Hempty) _ Hfails).
Defined.

Lemma read_content_within_limit_witness :
  let r := mkResponse 200
             [("Content-Type", "text/plain"); ("Content-Length", "11")] None
             (Chunk (list_byte_of_string "hello ")
                (Chunk (list_byte_of_string "world") Eof)) in
  declared_length_ok r
  ∧ read_all (body r) = Some (list_byte_of_string "hello world")
  ∧ (∀ k, cumulative k (body r) ≤ max_size)
  ∧ _read_content_safely r = Some "hello world".
Proof.
  intros r.
  assert (Hdecl : declared_length_ok r).
  { unfold declared_length_ok. simpl. right. exists 11. split; [reflexivity|].
    vm_compute. discriminate. }
  assert (Hall : read_all (body r) = Some (list_byte_of_string "hello world"))
    by reflexivity.
  assert (Hcum : ∀ k, cumulative k (body r) ≤ max_size).
  { intros k. unfold cumulative. simpl.
    destruct k as [|[|k]]; simpl; [vm_compute; discriminate..|].
    rewrite take_nil. vm_compute. discriminate. }
  split; [exact Hdecl|]. split; [exact Hall|]. split; [exact Hcum|].
  rewrite (read_content_within_limit r _ Hdecl Hall Hcum). reflexivity.
Defined.

End FetcherRunsExamples.

Section WorkerFacts.
Import Scheduler Worker.
Context `{Fetcher.PyLib} `{Dedup.PyLib} `{Urllib.BracketedHosts}.

(** *** What the steps of the pipeline leave alone *)

Lemma queue_new_urls_frame s now parsed depth :
  let s' := _queue_new_urls s now parsed depth in
  stats s' = stats s ∧ fetcher s' = fetcher s
  ∧ max_depth s' = max_depth s ∧ retry_attempts s' = retry_attempts s.
Proof.
  unfold _queue_new_urls. case_bool_decide as Hdepth; [done|clear Hdepth].
  generalize (Parser.links parsed). intros links. revert s.
  induction links as [|link links IH]; intros s; simpl; [done|].
  match goal with |- context [fold_left _ links ?s1] =>
    destruct (IH s1) as (-> & -> & -> & ->) end.
  done.
Qed.

Lemma process_url_config w s now task :
  max_depth (_process_url w s now task).2 = max_depth s
  ∧ retry_attempts (_process_url w s now task).2 = retry_attempts s.
Proof.
  unfold _process_url.
  destruct (Fetcher.fetch (fetcher s) (server w) now (Task.url task))
    as [result fetcher'].
  cbv beta iota zeta. cbn [fst snd].
  destruct (is_set (Fetcher.error result) || negb (is_set (Fetcher.content result)));
    [done|].
  destruct (Dedup.check_duplicate _ _) as [check detector].
  destruct (Dedup.is_duplicate check false); [done|].
  match goal with |- context [store w ?p] => destruct (store w p) as [[]|] end;
    [| |done];
    match goal with |- context [_queue_new_urls ?s1 ?n ?p ?d] =>
      pose proof (queue_new_urls_frame s1 n p d) as (_ & _ & Hmd & Hra);
      destruct (_queue_new_urls s1 n p d) end;
    simpl in Hmd, Hra; by subst.
Qed.



(** *** The tasks in the queues *)

Lemma add_url_member f t d t' :
  t' ∈ Frontier.queue_of d (Frontier.domain_queues (Frontier.add_url f t).2) →
  t' = t ∨ t' ∈ Frontier.queue_of d (Frontier.domain_queues f).
Proof.
  destruct (add_url_fields f t) as (_ & _ & _ & ->).
  case_bool_decide; [by right|].
  destruct (decide (d = Frontier._get_domain (Task.url t))) as [->|Hne].
  - rewrite queue_of_append_eq. intros [?|?%list_elem_of_singleton]%elem_of_app; auto.
  - rewrite queue_of_append_ne by done. by right.
Qed.

Lemma get_next_url_member f now d t' :
  t' ∈ Frontier.queue_of d (Frontier.domain_queues (Frontier.get_next_url f now).2) →
  t' ∈ Frontier.queue_of d (Frontier.domain_queues f).
Proof.
  unfold Frontier.get_next_url.
  destruct (Frontier.sort_desc _) as [|[[h m] tsa] r]; [done|].
  destruct (Frontier.scan_best None 0 _) as [[bt bi]|] eqn:Hscan; [|done].
  destruct (Redis.call _ _) as [ok r']. simpl.
  destruct (decide (d = h)) as [->|Hne].
  - destruct (Frontier.queue_of h (Frontier.domain_queues f)) as [|a q] eqn:Hq;
      [done|].
    rewrite queue_of_set_eq by (by rewrite Hq). intros Hin.
    eapply elem_of_sublist; [exact Hin|apply sublist_delete].
  - by rewrite queue_of_set_ne.
Qed.

Lemma mark_failed_member f t n d t' :
  t' ∈ Frontier.queue_of d (Frontier.domain_queues (Frontier.mark_failed f t n).2) →
  Task.depth t' = Task.depth t ∨ t' ∈ Frontier.queue_of d (Frontier.domain_queues f).
Proof.
  unfold Frontier.mark_failed. case_bool_decide.
  - pose proof (add_url_member f
      (Task.mkTask (Task.url t) (Task.depth t) Task.LOW (Task.parent_url t)
                   (Task.discovered_time t) (Task.retry_count t + 1)) d t') as Hm.
    destruct (Frontier.add_url f _) as [ok f']. simpl in *.
    intros [->|?]%Hm; [by left|by right].
  - simpl. destruct (mark_processed_fields f (Task.url t)) as (_ & _ & _ & ->).
    by right.
Qed.

Lemma queue_new_urls_member s now parsed depth d t' :
  t' ∈ Frontier.queue_of d
         (Frontier.domain_queues (url_frontier (_queue_new_urls s now parsed depth))) →
  (Task.depth t' = depth ∧ depth ≤ max_depth s)
  ∨ t' ∈ Frontier.queue_of d (Frontier.domain_queues (url_frontier s)).
Proof.
  unfold _queue_new_urls. case_bool_decide as Hdepth; [by right|].
  generalize (Parser.links parsed). intros links. revert s Hdepth.
  induction links as [|link links IH]; intros s Hdepth; simpl; [by right|].
  intros Hin. apply IH in Hin; [|done]. destruct Hin as [Hin|Hin]; [by left|].
  simpl in Hin. apply add_url_member in Hin as [->|Hin]; [|by right].
  left. simpl. split; [done|lia].
Qed.


Lemma mark_processed_queues s u :
  Frontier.domain_queues (url_frontier (mark_processed s u))
  = Frontier.domain_queues (url_frontier s).
Proof.
  unfold mark_processed, with_frontier. simpl.
  by destruct (mark_processed_fields (url_frontier s) u) as (_ & _ & _ & ->).
Qed.

Lemma process_url_member w s now task d t' :
  t' ∈ Frontier.queue_of d
         (Frontier.domain_queues (url_frontier (_process_url w s now task).2)) →
  Task.depth t' = Task.depth task
  ∨ (Task.depth t' = Task.depth task + 1 ∧ Task.depth task + 1 ≤ max_depth s)
  ∨ t' ∈ Frontier.queue_of d (Frontier.domain_queues (url_frontier s)).
Proof.
  unfold _process_url.
  destruct (Fetcher.fetch (fetcher s) (server w) now (Task.url task))
    as [result fetcher'].
  cbv beta iota zeta. cbn [fst snd].
  destruct (is_set (Fetcher.error result) || negb (is_set (Fetcher.content result))).
  { simpl. intros [?|?]%mark_failed_member; auto. }
  destruct (Dedup.check_duplicate _ _) as [check detector].
  destruct (Dedup.is_duplicate check false).
  { rewrite mark_processed_queues. simpl. auto. }
  match goal with |- context [store w ?p] => destruct (store w p) as [[]|] end.
  - rewrite mark_processed_queues.
    intros [[? ?]|Hin]%queue_new_urls_member; [by right; left|].
    simpl in Hin. auto.
  - rewrite mark_processed_queues.
    intros [[? ?]|Hin]%queue_new_urls_member; [by right; left|].
    simpl in Hin. auto.
  - simpl. intros [?|?]%mark_failed_member; auto.
Qed.

(** X13. One iteration of the worker loop. A page limit that is set and
    reached ends the loop without touching anything, and so does a
    duration limit; a limit of 0 counts as no limit, like [None]. A task
    handed out beyond the depth limit is not fetched: its URL is marked
    processed, and the fetcher and the counters stay as they were. When
    the frontier hands out nothing, only the call is made. *)
Theorem worker_iteration_spec w s elapsed now later max_pages max_duration :
  let it := _worker_iteration w s elapsed now later max_pages max_duration in
  (∀ n, max_pages = Some n → n ≠ 0 → n ≤ urls_crawled (stats s) → it = (Break, s))
  ∧ (∀ n, max_duration = Some n → n ≠ 0 → n ≤ elapsed → it = (Break, s))
  ∧ (max_pages = None ∨ max_pages = Some 0 →
     max_duration = None ∨ max_duration = Some 0 →
     it.1 = Continue)
  ∧ (it.1 = Continue →
     ∀ task f, Frontier.get_next_url (url_frontier s) now = (Some task, f) →
       max_depth s < Task.depth task →
       fetcher it.2 = fetcher s
       ∧ stats it.2 = stats s
       ∧ trace it.2
         = trace s ++ [Frontier.Next now; Frontier.MarkProcessed (Task.url task)]
       ∧ Task.url task ∈ Frontier.processed_urls (url_frontier it.2))
  ∧ (it.1 = Continue →
     ∀ f, Frontier.get_next_url (url_frontier s) now = (None, f) →
       fetcher it.2 = fetcher s
       ∧ stats it.2 = stats s
       ∧ trace it.2 = trace s ++ [Frontier.Next now]
       ∧ url_frontier it.2 = f).
Proof.
  intros it. unfold it, _worker_iteration, limit_set.
  split; [|split; [|split; [|split]]].
  - intros n -> Hn Hle. simpl.
    by rewrite (bool_decide_eq_false_2 _ Hn), bool_decide_eq_true_2.
  - intros n -> Hn Hle. simpl.
    rewrite (bool_decide_eq_false_2 _ Hn), (bool_decide_eq_true_2 _ Hle). simpl.
    by destruct (_ && _).
  - intros [->| ->] [->| ->]; simpl;
      destruct (Frontier.get_next_url _ _) as [[task|] f]; simpl; try done;
      by case_bool_decide.
  - destruct (_ && _); [done|]. destruct (_ && _); [done|].
    intros _ task f -> Hdeep. simpl.
    rewrite bool_decide_eq_true_2 by done. simpl.
    repeat split; [by rewrite <- app_assoc|].
    destruct (mark_processed_fields f (Task.url task)) as (_ & _ & -> & _).
    apply elem_of_union_l. by apply elem_of_singleton.
  - destruct (_ && _); [done|]. destruct (_ && _); [done|].
    by intros _ f ->.
Qed.

Lemma depth_bounded_intro s s' :
  max_depth s' = max_depth s →
  (∀ d t', t' ∈ Frontier.queue_of d (Frontier.domain_queues (url_frontier s')) →
           Task.depth t' ≤ max_depth s
           ∨ t' ∈ Frontier.queue_of d (Frontier.domain_queues (url_frontier s))) →
  depth_bounded s → depth_bounded s'.
Proof.
  intros Hmd Hmem Hb d t' Hin. rewrite Hmd.
  destruct (Hmem d t' Hin) as [?|Hold]; [done|]. by apply (Hb d).
Qed.

(** X14. No task beyond the depth limit enters the queues. If every queued
    task is within [max_depth], so it is after an iteration of the worker
    loop, whatever the page does: links are queued one level below their
    page and only within the limit, and a failed task is queued again at
    its own depth. Seeds are queued at depth 0. *)
Theorem depth_bound_kept w s elapsed now later max_pages max_duration seed_urls :
  depth_bounded s →
  depth_bounded (_worker_iteration w s elapsed now later max_pages max_duration).2
  ∧ max_depth (_worker_iteration w s elapsed now later max_pages max_duration).2
    = max_depth s
  ∧ (0 ≤ max_depth s → depth_bounded (add_seed_urls s now seed_urls)).
Proof.
  intros Hb. split; [|split].
  - unfold _worker_iteration.
    destruct (_ && _); [done|]. destruct (_ && _); [done|].
    pose proof (get_next_url_member (url_frontier s) now) as Hnext.
    destruct (Frontier.get_next_url (url_frontier s) now) as [[task|] f]; simpl in *.
    + case_bool_decide as Hdeep; simpl.
      * intros d t' Hin. simpl in Hin.
        destruct (mark_processed_fields f (Task.url task)) as (_ & _ & _ & Hq).
        rewrite Hq in Hin. by apply (Hb d), Hnext.
      * eapply (depth_bounded_intro (with_frontier s f (Frontier.Next now))).
        -- by destruct (process_url_config w
                  (with_frontier s f (Frontier.Next now)) later task) as [Hmd _].
        -- intros d t' [Hd|[[Hd ?]|Hin]]%process_url_member; simpl in *;
             [left; lia|left; lia|by right].
        -- intros d t' Hin. simpl in *. by apply (Hb d), Hnext.
    + intros d t' Hin. by apply (Hb d), Hnext.
  - unfold _worker_iteration.
    destruct (_ && _); [done|]. destruct (_ && _); [done|].
    destruct (Frontier.get_next_url (url_frontier s) now) as [[task|] f]; simpl;
      [|done].
    case_bool_decide; [done|].
    by destruct (process_url_config w
                   (with_frontier s f (Frontier.Next now)) later task) as [Hmd _].
  - intros Hmd. unfold add_seed_urls. revert s Hb Hmd.
    induction seed_urls as [|u seeds IH]; intros s Hb Hmd; simpl; [done|].
    apply IH; [|done]. intros d t' Hin. simpl in *.
    apply add_url_member in Hin as [->|Hin]; [done|]. by apply (Hb d).
Qed.

End WorkerFacts.

Section WorkerExamples.
Import Scheduler Worker.
Local Existing Instance Ex.hosts.
Local Existing Instance Ex.fetch_lib.
Local Existing Instance Ex.dedup_lib.

Lemma worker_iteration_spec_witness :
  let deep := Task.mkTask "https://a.example/deep" 5 Task.NORMAL None 0 0 in
  let s := mkScheduler
             (Frontier.run (Frontier.init (Redis.empty []) 1) [Frontier.Add deep])
             (Fetcher.new_fetcher "crawler-bot" true)
             (Dedup.new_detector (Redis.empty []))
             (mkCrawlStats 7 0 0 0 0) 3 3 [] in
  let it := _worker_iteration Ex.world s 50 100 101 (Some 0) None in
  it.1 = Continue
  ∧ (Frontier.get_next_url (url_frontier s) 100).1 = Some deep
  ∧ max_depth s < Task.depth deep
  ∧ fetcher it.2 = fetcher s
  ∧ stats it.2 = stats s
  ∧ Task.url deep ∈ Frontier.processed_urls (url_frontier it.2).
Proof.
  intros deep s it.
  pose proof (worker_iteration_spec Ex.world s 50 100 101 (Some 0) None)
    as (_ & _ & Hzero & Hskip & _).
  assert (Hgo : it.1 = Continue) by (apply Hzero; [by right|by left]).
  assert (Hnext : Frontier.get_next_url (url_frontier s) 100
                  = (Some deep, (Frontier.get_next_url (url_frontier s) 100).2))
    by (vm_compute; reflexivity).
  assert (Hdeep : max_depth s < Task.depth deep) by (vm_compute; reflexivity).
  destruct (Hskip Hgo deep _ Hnext Hdeep) as (Hf & Hst & _ & Hp).
  split; [exact Hgo|]. split; [vm_compute; reflexivity|]. split; [exact Hdeep|].
  split; [exact Hf|]. split; [exact Hst|exact Hp].
Defined.

Lemma depth_bound_kept_witness :
  depth_bounded Ex.crawler
  ∧ depth_bounded
      (_worker_iteration Ex.world
         (add_seed_urls Ex.crawler 0 ["https://c.example/moved"]) 0 10 11 None None).2.
Proof.
  assert (Hb : depth_bounded Ex.crawler).
  { intros d t Hin. by apply elem_of_nil in Hin. }
  split; [exact Hb|].
  assert (Hseeds : depth_bounded
                     (add_seed_urls Ex.crawler 0 ["https://c.example/moved"])).
  { apply (depth_bound_kept Ex.world Ex.crawler 0 0 0 None None); [exact Hb|].
    vm_compute. discriminate. }
  exact (proj1 (depth_bound_kept Ex.world _ 0 10 11 None None [] Hseeds)).
Defined.

End WorkerExamples.

Section WordsFacts.

(** *** [str.split()] *)

Lemma isspace_lower_char a : Py.isspace (Py.lower_char a) = Py.isspace a.
Proof. by destruct a as [[] [] [] [] [] [] [] []]. Qed.

Lemma words_go_lower cur s :
  Py.words_go (Py.lower cur) (Py.lower s) = map Py.lower (Py.words_go cur s).
Proof.
  revert cur. induction s as [|a s IH]; intros cur; simpl.
  - rewrite lower_truthy. by destruct (Py.truthy cur).
  - rewrite isspace_lower_char. destruct (Py.isspace a).
    + rewrite map_app, lower_truthy, <- (IH ""). by destruct (Py.truthy cur).
    + rewrite <- IH, lower_app. done.
Qed.

Lemma words_lower s : Py.words (Py.lower s) = map Py.lower (Py.words s).
Proof. apply (words_go_lower ""). Qed.

Lemma words_go_nospace w cur s :
  Py.forall_chars (fun a => negb (Py.isspace a)) w = true →
  Py.words_go cur (w +:+ s) = Py.words_go (cur +:+ w) s.
Proof.
  revert cur. induction w as [|a w IH]; intros cur Hw.
  - by rewrite app_empty_l, app_empty_r.
  - simpl in Hw. apply andb_true_iff in Hw as [Ha Hw]. apply negb_true_iff in Ha.
    rewrite app_cons. simpl. rewrite Ha, IH by done.
    by rewrite app_assoc_str.
Qed.

Lemma words_go_clean cur s :
  Py.forall_chars (fun a => negb (Py.isspace a)) cur = true →
  Forall (fun w => Py.truthy w = true
                   ∧ Py.forall_chars (fun a => negb (Py.isspace a)) w = true)
         (Py.words_go cur s).
Proof.
  revert cur. induction s as [|a s IH]; intros cur Hcur; simpl.
  - destruct (Py.truthy cur) eqn:Ht; [by apply Forall_singleton|constructor].
  - destruct (Py.isspace a) eqn:Ha.
    + apply Forall_app. split; [|by apply IH].
      destruct (Py.truthy cur) eqn:Ht; [by apply Forall_singleton|constructor].
    + apply IH. rewrite forall_chars_app, Hcur. simpl. by rewrite Ha.
Qed.

Lemma words_join ws :
  Forall (fun w => Py.truthy w = true
                   ∧ Py.forall_chars (fun a => negb (Py.isspace a)) w = true) ws →
  Py.words (Py.join " " ws) = ws.
Proof.
  unfold Py.words. induction ws as [|w ws IH]; [done|].
  intros [[Ht Hw] Hws]%Forall_cons. destruct ws as [|w' ws].
  - cbn [Py.join].
    assert (Hgo : Py.words_go "" (w +:+ "") = Py.words_go ("" +:+ w) "")
      by (by apply words_go_nospace).
    rewrite app_empty_r, app_empty_l in Hgo. rewrite Hgo. simpl. by rewrite Ht.
  - change (Py.join " " (w :: w' :: ws)) with (w +:+ " " +:+ Py.join " " (w' :: ws)).
    rewrite words_go_nospace by done. rewrite app_empty_l.
    change (" " +:+ Py.join " " (w' :: ws)) with (String " " (Py.join " " (w' :: ws))).
    simpl Py.words_go. rewrite Ht. simpl. f_equal. by apply IH.
Qed.

(** The words of the text that the hashes are computed from are the
    lower-cased words of the content. *)
Lemma words_normal_form s :
  Py.words (Py.lower (Py.join " " (Py.words (Py.lower s)))) = Py.words (Py.lower s).
Proof.
  rewrite words_lower, words_join by (by apply words_go_clean).
  by rewrite <- words_lower, lower_idem.
Qed.

End WordsFacts.

Section DedupRunsFacts.
Import Dedup DedupRuns.
Context `{PyLib} `{Urllib.BracketedHosts}.

(** The digests of [hashlib] are never empty. *)
Hypothesis sha256_nonempty : ∀ s, sha256_hexdigest s ≠ "".

(** X15. Content duplicates are recognised across URLs and whatever the
    letter case and the white space. Once a page is added, any page whose
    content has the same lower-cased words is reported as a content
    duplicate, and as a duplicate in strict and in fuzzy mode. The
    lower-cased content and the content with its words joined by single
    spaces are such contents. *)
Theorem content_duplicate_across_urls :
  (∀ d p q c1 c2,
     content p = Some c1 → content q = Some c2 → c1 ≠ "" → c2 ≠ "" →
     Py.words (Py.lower c1) = Py.words (Py.lower c2) →
     let r := (check_duplicate (add_content d p) q).1 in
     content_duplicate r = true
     ∧ is_duplicate r true = true ∧ is_duplicate r false = true)
  ∧ (∀ c, Py.words (Py.lower (Py.lower c)) = Py.words (Py.lower c))
  ∧ (∀ c, Py.words (Py.lower (Py.join " " (Py.words (Py.lower c))))
          = Py.words (Py.lower c)).
Proof.
  split; [|split; [intros c; by rewrite lower_idem|exact words_normal_form]].
  intros d p q c1 c2 Hp Hq Hc1 Hc2 Hwords r.
  assert (Hh : _hash_content c2 = _hash_content c1).
  { unfold _hash_content. apply truthy_true in Hc1, Hc2.
    by rewrite Hc1, Hc2, Hwords. }
  assert (Hdup : content_duplicate r = true).
  { unfold r, check_duplicate, add_content. simpl. rewrite Hp, Hq. simpl.
    rewrite !(hash_content_truthy sha256_nonempty), Hh.
    apply truthy_true in Hc1, Hc2. rewrite Hc1, Hc2.
    apply bool_decide_eq_true, elem_of_union_l. by apply elem_of_singleton. }
  split; [done|]. unfold is_duplicate. rewrite Hdup.
  by destruct (url_duplicate r).
Qed.


(** *** Runs of a client *)

Lemma check_duplicate_frame d p :
  let d' := (check_duplicate d p).2 in
  redis_client d' = redis_client d
  ∧ url_hashes d' = url_hashes d ∧ content_hashes d' = content_hashes d
  ∧ title_hashes d' = title_hashes d ∧ fuzzy_hashes d' = fuzzy_hashes d.
Proof. done. Qed.

Lemma step_grows d c :
  url_hashes d ⊆ url_hashes (step d c)
  ∧ content_hashes d ⊆ content_hashes (step d c)
  ∧ title_hashes d ⊆ title_hashes (step d c)
  ∧ fuzzy_hashes d ⊆ fuzzy_hashes (step d c).
Proof.
  destruct c as [p|p]; simpl; [done|]. unfold add_content. simpl.
  repeat split; try (destruct (Py.truthy _)); try done; apply union_subseteq_r.
Qed.

Lemma run_grows d cs :
  url_hashes d ⊆ url_hashes (run d cs)
  ∧ content_hashes d ⊆ content_hashes (run d cs)
  ∧ title_hashes d ⊆ title_hashes (run d cs)
  ∧ fuzzy_hashes d ⊆ fuzzy_hashes (run d cs).
Proof.
  revert d. induction cs as [|c cs IH]; intros d; simpl; [done|].
  destruct (step_grows d c) as (H1 & H2 & H3 & H4).
  destruct (IH (step d c)) as (H1' & H2' & H3' & H4').
  repeat split; etrans; done.
Qed.

Lemma step_stats d c :
  let k := if is_check c then 1 else 0 in
  let st := stats d in
  let st' := stats (step d c) in
  total_checks st' = total_checks st + k
  ∧ url_duplicates st ≤ url_duplicates st' ≤ url_duplicates st + k
  ∧ content_duplicates st ≤ content_duplicates st' ≤ content_duplicates st + k
  ∧ title_duplicates st ≤ title_duplicates st' ≤ title_duplicates st + k
  ∧ fuzzy_duplicates st ≤ fuzzy_duplicates st' ≤ fuzzy_duplicates st + k.
Proof.
  destruct c as [p|p]; simpl.
  - unfold bump.
    repeat split;
      repeat (match goal with |- context [if ?b then _ else _] => destruct b end);
      lia.
  - repeat split; lia.
Qed.

Lemma run_stats d cs :
  let n := Z.of_nat (length (filter (fun c => is_check c = true) cs)) in
  let st := stats d in
  let st' := stats (run d cs) in
  total_checks st' = total_checks st + n
  ∧ url_duplicates st ≤ url_duplicates st' ≤ url_duplicates st + n
  ∧ content_duplicates st ≤ content_duplicates st' ≤ content_duplicates st + n
  ∧ title_duplicates st ≤ title_duplicates st' ≤ title_duplicates st + n
  ∧ fuzzy_duplicates st ≤ fuzzy_duplicates st' ≤ fuzzy_duplicates st + n.
Proof.
  revert d. induction cs as [|c cs IH]; intros d; simpl; [lia|].
  specialize (IH (step d c)). pose proof (step_stats d c) as Hstep.
  rewrite filter_cons. simpl in *.
  destruct (is_check c); simpl; lia.
Qed.

(** X16. [check_duplicate] only reads: the four hash sets and the store
    are left as they were, and no command is issued. Over any sequence of
    checks and additions on a new detector, [total_checks] is the number
    of checks and each duplicate counter lies between 0 and
    [total_checks]. *)
Theorem check_duplicate_counts :
  (∀ d p,
     let d' := (check_duplicate d p).2 in
     redis_client d' = redis_client d
     ∧ url_hashes d' = url_hashes d ∧ content_hashes d' = content_hashes d
     ∧ title_hashes d' = title_hashes d ∧ fuzzy_hashes d' = fuzzy_hashes d
     ∧ total_checks (stats d') = total_checks (stats d) + 1)
  ∧ (∀ redis cs,
       let st := stats (run (new_detector redis) cs) in
       total_checks st = Z.of_nat (length (filter (fun c => is_check c = true) cs))
       ∧ 0 ≤ url_duplicates st ≤ total_checks st
       ∧ 0 ≤ content_duplicates st ≤ total_checks st
       ∧ 0 ≤ title_duplicates st ≤ total_checks st
       ∧ 0 ≤ fuzzy_duplicates st ≤ total_checks st).
Proof.
  split; [done|]. intros redis cs st.
  pose proof (run_stats (new_detector redis) cs) as Hst. simpl in Hst.
  fold st in Hst. lia.
Qed.

(** X17. The detector never forgets. A flag that [check_duplicate] raises
    for a page is raised again after any further checks and additions,
    and the result for a page that was added stays what it was right
    after the addition. *)
Theorem duplicates_persist d cs :
  (∀ q,
     let r := (check_duplicate d q).1 in
     let r' := (check_duplicate (run d cs) q).1 in
     (url_duplicate r = true → url_duplicate r' = true)
     ∧ (content_duplicate r = true → content_duplicate r' = true)
     ∧ (title_duplicate r = true → title_duplicate r' = true)
     ∧ (fuzzy_duplicate r = true → fuzzy_duplicate r' = true))
  ∧ (∀ p, (check_duplicate (run (add_content d p) cs) p).1
          = (check_duplicate (add_content d p) p).1).
Proof.
  assert (Hkeep : ∀ (h : string) (s s' : gset string), s ⊆ s' →
            (if Py.truthy h then bool_decide (h ∈ s) else false) = true →
            (if Py.truthy h then bool_decide (h ∈ s') else false) = true).
  { intros h s s' Hsub. destruct (Py.truthy h); [|done].
    rewrite !bool_decide_eq_true. apply Hsub. }
  split.
  - intros q r r'. destruct (run_grows d cs) as (H1 & H2 & H3 & H4).
    unfold r, r', check_duplicate. simpl. repeat split.
    + rewrite !bool_decide_eq_true. apply H1.
    + by apply Hkeep.
    + by apply Hkeep.
    + by apply Hkeep.
  - intros p. destruct (run_grows (add_content d p) cs) as (H1 & H2 & H3 & H4).
    unfold check_duplicate. simpl.
    assert (Hin : ∀ (h : string) (s s' : gset string),
              {[h]} ∪ s ⊆ s' → bool_decide (h ∈ s') = bool_decide (h ∈ {[h]} ∪ s)).
    { intros h s s' Hsub. rewrite !bool_decide_eq_true_2; [done| |].
      - apply elem_of_union_l. by apply elem_of_singleton.
      - apply Hsub, elem_of_union_l. by apply elem_of_singleton. }
    unfold add_content in H1, H2, H3, H4 |- *. simpl in *.
    f_equal.
    + by apply Hin.
    + destruct (Py.truthy (_hash_content (default "" (content p)))); [by apply Hin|done].
    + destruct (Py.truthy (_hash_title (default "" (title p)))); [by apply Hin|done].
    + destruct (Py.truthy (_create_fuzzy_hash _ _)); [by apply Hin|done].
Qed.


(** X18. A page added while the store is down is known in memory only.
    When the first [SADD] of [add_content] raises, the remaining hashes are
    not sent: the store is left as it was, with the one command in its log,
    while the sets in memory are updated as always, so that the page is
    reported as a URL duplicate from then on. *)
Theorem add_content_store_down d p rest :
  Redis.script (redis_client d) = false :: rest →
  let d' := add_content d p in
  let url_hash := _hash_content (_normalize_url (url p)) in
  Redis.sets (redis_client d') = Redis.sets (redis_client d)
  ∧ Redis.log (redis_client d')
    = Redis.log (redis_client d) ++ [Redis.SADD url_hashes_key url_hash]
  ∧ Redis.script (redis_client d') = rest
  ∧ url_hashes d' = {[url_hash]} ∪ url_hashes d
  ∧ url_duplicate (check_duplicate d' p).1 = true.
Proof.
  intros Hdown d' url_hash. unfold d', add_content. simpl.
  unfold Redis.call. rewrite Hdown. simpl. repeat split.
  apply bool_decide_eq_true, elem_of_union_l. by apply elem_of_singleton.
Qed.

(** *** Reloading *)

Lemma sadd_reliable key member r :
  FrontierState.reliable r →
  let r' := (Redis.call (Redis.SADD key member) r).2 in
  (Redis.call (Redis.SADD key member) r).1 = true
  ∧ FrontierState.reliable r'
  ∧ Redis.lists r' = Redis.lists r
  ∧ default ∅ (Redis.sets r' !! key) = {[member]} ∪ default ∅ (Redis.sets r !! key)
  ∧ ∀ k, k ≠ key → Redis.sets r' !! k = Redis.sets r !! k.
Proof.
  intros Hr. destruct (call_reliable (Redis.SADD key member) r Hr)
    as (Hok & Hlists & Hsets & _ & Hr').
  simpl in *. rewrite Hlists, Hsets. repeat split; [done|done| |].
  - by rewrite lookup_insert_eq.
  - intros k Hk. by rewrite lookup_insert_ne.
Qed.

Lemma sadd_if_reliable key h r :
  FrontierState.reliable r →
  let r' := fold_left (fun r c => (Redis.call c r).2)
                      (if Py.truthy h then [Redis.SADD key h] else []) r in
  FrontierState.reliable r'
  ∧ Redis.lists r' = Redis.lists r
  ∧ default ∅ (Redis.sets r' !! key)
    = (if Py.truthy h then {[h]} ∪ default ∅ (Redis.sets r !! key)
       else default ∅ (Redis.sets r !! key))
  ∧ ∀ k, k ≠ key → Redis.sets r' !! k = Redis.sets r !! k.
Proof.
  intros Hr. destruct (Py.truthy h); simpl; [|done].
  by destruct (sadd_reliable key h r Hr) as (_ & Hr' & Hl & Hs & Hother).
Qed.

Lemma sadd_all_fold cmds r :
  FrontierState.reliable r →
  sadd_all cmds r = fold_left (fun r c => (Redis.call c r).2) cmds r.
Proof.
  revert r. induction cmds as [|c cmds IH]; intros r Hr; simpl; [done|].
  destruct (call_reliable c r Hr) as (Hok & _ & _ & _ & Hr').
  destruct (Redis.call c r) as [ok r']. simpl in *. subst ok. by apply IH.
Qed.

Lemma hash_keys_distinct : NoDup hash_keys.
Proof. apply (bool_decide_unpack _). vm_compute. exact I. Qed.

Lemma add_content_mirrored d p :
  FrontierState.reliable (redis_client d) → mirrored d →
  FrontierState.reliable (redis_client (add_content d p))
  ∧ mirrored (add_content d p).
Proof.
  intros Hr (Hu & Hc & Ht & Hf & Hl). unfold mirrored, add_content.
  cbv zeta. cbn [redis_client url_hashes content_hashes title_hashes fuzzy_hashes].
  rewrite sadd_all_fold by done. rewrite !fold_left_app.
  cbn [fold_left].
  destruct (sadd_reliable url_hashes_key (_hash_content (_normalize_url (url p)))
              _ Hr) as (_ & Hr1 & Hl1 & Hs1 & Ho1).
  set (r1 := (Redis.call _ (redis_client d)).2) in *.
  destruct (sadd_if_reliable content_hashes_key
              (_hash_content (default "" (content p))) r1 Hr1)
    as (Hr2 & Hl2 & Hs2 & Ho2).
  set (r2 := fold_left _ _ r1) in *.
  destruct (sadd_if_reliable title_hashes_key
              (_hash_title (default "" (title p))) r2 Hr2)
    as (Hr3 & Hl3 & Hs3 & Ho3).
  set (r3 := fold_left _ _ r2) in *.
  destruct (sadd_if_reliable fuzzy_hashes_key
              (_create_fuzzy_hash (default "" (content p)) (default "" (title p)))
              r3 Hr3)
    as (Hr4 & Hl4 & Hs4 & Ho4).
  set (r4 := fold_left _ _ r3) in *.
  split; [done|]. split; [|split; [|split; [|split]]].
  - rewrite Ho4, Ho3, Ho2 by done. by rewrite Hs1, Hu.
  - rewrite Ho4, Ho3 by done. rewrite Hs2, Ho1 by done. by rewrite Hc.
  - rewrite Ho4 by done. rewrite Hs3, Ho2, Ho1 by done. by rewrite Ht.
  - rewrite Hs4, Ho3, Ho2, Ho1 by done. by rewrite Hf.
  - intros k Hk. rewrite Hl4, Hl3, Hl2, Hl1. by apply Hl.
Qed.

Lemma run_mirrored d cs :
  FrontierState.reliable (redis_client d) → mirrored d →
  FrontierState.reliable (redis_client (run d cs)) ∧ mirrored (run d cs).
Proof.
  revert d. induction cs as [|c cs IH]; intros d Hr Hm; simpl; [done|].
  destruct c as [p|p]; simpl.
  - by apply IH.
  - destruct (add_content_mirrored d p Hr Hm). by apply IH.
Qed.

Lemma smembers_mirrored key r :
  FrontierState.reliable r → Redis.lists r !! key = None →
  let '(answer, r') := FrontierState.smembers key r in
  answer = Some (default ∅ (Redis.sets r !! key))
  ∧ FrontierState.reliable r'
  ∧ Redis.lists r' = Redis.lists r ∧ Redis.sets r' = Redis.sets r.
Proof.
  intros Hr Hnone. unfold FrontierState.smembers.
  pose proof (read_reliable
    (fun r => match Redis.lists r !! key with
              | Some _ => None
              | None => Some (default ∅ (Redis.sets r !! key))
              end) r Hr) as (Hans & Hl & Hs & Hr').
  destruct (FrontierState.read _ r) as [answer r']. simpl in *.
  rewrite Hnone in Hans. done.
Qed.

(** X19. Restart of the detector. After any sequence of checks and
    additions on a new detector over a store that answered every call,
    [initialize] on a new detector over the same store succeeds and loads
    the four hash sets as they are in memory, so that every page is
    checked with the same result as before the restart. *)
Theorem initialize_restores_hashes script cs :
  Forall (eq true) script →
  let d := run (new_detector (Redis.empty script)) cs in
  ∃ d', initialize (new_detector (redis_client d)) = Some d'
    ∧ url_hashes d' = url_hashes d ∧ content_hashes d' = content_hashes d
    ∧ title_hashes d' = title_hashes d ∧ fuzzy_hashes d' = fuzzy_hashes d
    ∧ ∀ q, (check_duplicate d' q).1 = (check_duplicate d q).1.
Proof.
  intros Hup d.
  destruct (run_mirrored (new_detector (Redis.empty script)) cs) as [Hr Hm];
    [done|by repeat split|].
  fold d in Hr, Hm. destruct Hm as (Hu & Hc & Ht & Hf & Hl).
  unfold initialize. simpl.
  pose proof (smembers_mirrored url_hashes_key _ Hr) as H1.
  destruct (FrontierState.smembers url_hashes_key (redis_client d)) as [a1 r1].
  destruct H1 as (-> & Hr1 & Hl1 & Hs1); [apply Hl; repeat constructor|].
  pose proof (smembers_mirrored content_hashes_key _ Hr1) as H2.
  destruct (FrontierState.smembers content_hashes_key r1) as [a2 r2].
  destruct H2 as (-> & Hr2 & Hl2 & Hs2); [rewrite Hl1; apply Hl; repeat constructor|].
  pose proof (smembers_mirrored title_hashes_key _ Hr2) as H3.
  destruct (FrontierState.smembers title_hashes_key r2) as [a3 r3].
  destruct H3 as (-> & Hr3 & Hl3 & Hs3); [rewrite Hl2, Hl1; apply Hl; repeat constructor|].
  pose proof (smembers_mirrored fuzzy_hashes_key _ Hr3) as H4.
  destruct (FrontierState.smembers fuzzy_hashes_key r3) as [a4 r4].
  destruct H4 as (-> & Hr4 & Hl4 & Hs4);
    [rewrite Hl3, Hl2, Hl1; apply Hl; repeat constructor|].
  eexists. split; [done|]. simpl.
  rewrite Hs3, Hs2, Hs1, Hu, Hc, Ht, Hf.
  repeat split.
Qed.

End DedupRunsFacts.

Section DedupRunsExamples.
Import Dedup DedupRuns.
Local Existing Instance Ex.hosts.
Local Existing Instance Ex.dedup_lib.

Lemma content_duplicate_across_urls_witness :
  let p := Parser.mkParsed "https://a.example/one" None (Some "Hello   World")
                           None None [] [] None None None [] 2 in
  let q := Parser.mkParsed "https://b.example/two" None (Some "hello world")
                           None None [] [] None None None [] 2 in
  (∀ s, sha256_hexdigest s ≠ "")
  ∧ Py.words (Py.lower "Hello   World") = Py.words (Py.lower "hello world")
  ∧ content_duplicate
      (check_duplicate (add_content (new_detector (Redis.empty [])) p) q).1 = true.
Proof.
  intros p q.
  assert (Hsha : ∀ s, sha256_hexdigest s ≠ "") by (intros s; discriminate).
  assert (Hwords : Py.words (Py.lower "Hello   World")
                   = Py.words (Py.lower "hello world")) by reflexivity.
  split; [exact Hsha|]. split; [exact Hwords|].
  refine (proj1 (proj1 (content_duplicate_across_urls Hsha)
                   (new_detector (Redis.empty [])) p q
                   "Hello   World" "hello world" eq_refl eq_refl _ _ Hwords));
    discriminate.
Defined.

Lemma duplicates_persist_witness :
  let d := add_content (new_detector (Redis.empty [])) Ex.bare_page in
  let cs := [Check Ex.bare_page; Add (Parser.empty_content "https://b.example/")] in
  url_duplicate (check_duplicate d Ex.bare_page).1 = true
  ∧ url_duplicate (check_duplicate (run d cs) Ex.bare_page).1 = true.
Proof.
  intros d cs.
  assert (Hdup : url_duplicate (check_duplicate d Ex.bare_page).1 = true)
    by reflexivity.
  split; [exact Hdup|].
  exact (proj1 (proj1 (duplicates_persist d cs) Ex.bare_page) Hdup).
Defined.

Lemma add_content_store_down_witness :
  let d := new_detector (Redis.empty [false; true]) in
  Redis.script (redis_client d) = [false; true]
  ∧ Redis.sets (redis_client (add_content d Ex.bare_page)) = Redis.sets (redis_client d)
  ∧ url_duplicate (check_duplicate (add_content d Ex.bare_page) Ex.bare_page).1 = true.
Proof.
  intros d.
  assert (Hdown : Redis.script (redis_client d) = [false; true]) by reflexivity.
  split; [exact Hdown|].
  destruct (add_content_store_down d Ex.bare_page [true] Hdown)
    as (Hsets & _ & _ & _ & Hdup).
  split; [exact Hsets|exact Hdup].
Defined.

Lemma initialize_restores_hashes_witness :
  let d := run (new_detector (Redis.empty [true])) [Add Ex.bare_page] in
  Forall (eq true) [true]
  ∧ ∃ d', initialize (new_detector (redis_client d)) = Some d'
      ∧ url_hashes d' = url_hashes d
      ∧ ∀ q, (check_duplicate d' q).1 = (check_duplicate d q).1.
Proof.
  intros d.
  assert (Hup : Forall (eq true) [true]) by (repeat constructor).
  split; [exact Hup|].
  destruct (initialize_restores_hashes [true] [Add Ex.bare_page] Hup)
    as (d' & Hinit & Hu & _ & _ & _ & Hcheck).
  exists d'. split; [exact Hinit|]. split; [exact Hu|exact Hcheck].
Defined.

End DedupRunsExamples.

Section ParserFacts.
Import Urllib ContentParser.
Context `{UrlJoin} `{BracketedHosts}.

(** *** No [#] outside the fragment *)

Lemma forall_chars_true s : Py.forall_chars (fun _ => true) s = true.
Proof. induction s as [|a s IH]; [done|]. done. Qed.

Lemma forall_chars_lower (p q : ascii → bool) s :
  (∀ a, p a = true → q (Py.lower_char a) = true) →
  Py.forall_chars p s = true → Py.forall_chars q (Py.lower s) = true.
Proof.
  intros Hpq. induction s as [|a s IH]; [done|]. simpl.
  intros [Ha Hs]%andb_true_iff. by rewrite (Hpq a Ha), IH.
Qed.

Lemma lower_char_hash a :
  negb (bool_decide (a = "#"%char)) = true →
  negb (bool_decide (Py.lower_char a = "#"%char)) = true.
Proof. by destruct a as [[] [] [] [] [] [] [] []]. Qed.

Lemma scheme_char_hash a :
  is_scheme_char a = true → negb (bool_decide (a = "#"%char)) = true.
Proof. by destruct a as [[] [] [] [] [] [] [] []]. Qed.

Lemma split_scheme_no_hash x sch rest :
  split_scheme x = (sch, rest) →
  Py.forall_chars (fun a => negb (bool_decide (a = "#"%char))) sch = true.
Proof.
  unfold split_scheme.
  destruct (Py.split1 ":" x) as [[[|c pre] r]|]; try (by intros [= <- <-]).
  destruct (Py.isalpha c && Py.forall_chars is_scheme_char (String c pre)) eqn:Hok;
    [|by intros [= <- <-]].
  intros [= <- <-]. apply andb_true_iff in Hok as [_ Hchars].
  change (Py.forall_chars (fun a => negb (bool_decide (a = "#"%char)))
            (Py.lower (String c pre)) = true).
  eapply forall_chars_lower; [|exact Hchars].
  intros a Ha. by apply lower_char_hash, scheme_char_hash.
Qed.

Lemma urlsplit_no_hash x r :
  urlsplit x = Some r →
  Py.forall_chars (fun a => negb (bool_decide (a = "#"%char))) (s_scheme r) = true
  ∧ Py.forall_chars (fun a => negb (bool_decide (a = "#"%char))) (s_netloc r) = true
  ∧ Py.forall_chars (fun a => negb (bool_decide (a = "#"%char))) (s_path r) = true
  ∧ Py.forall_chars (fun a => negb (bool_decide (a = "#"%char))) (s_query r) = true.
Proof.
  unfold urlsplit.
  destruct (split_scheme (remove_unsafe (lstrip_c0 x))) as [sch u0] eqn:Hsch.
  apply split_scheme_no_hash in Hsch.
  destruct (match u0 with
            | String "/" (String "/" rest) => _splitnetloc rest
            | _ => ("", u0)
            end) as [net u1] eqn:Hnet.
  assert (Hn : Py.forall_chars (fun a => negb (bool_decide (a = "#"%char))) net = true).
  { destruct (netloc_match _ _ _ Hnet) as [[-> _]|(rest & _ & Hrest)]; [done|].
    destruct (splitnetloc_shape (fun _ => true) _ _ _ Hrest (forall_chars_true _))
      as (_ & _ & Hfree & _).
    eapply forall_chars_impl; [|exact Hfree]. intros a. cbv beta.
    intros Ha%negb_true_iff%bool_decide_eq_false.
    apply negb_true_iff, bool_decide_eq_false. intros ->. apply Ha.
    by repeat constructor. }
  destruct (xorb _ _); [done|]. destruct (_ && _); [done|].
  destruct (cut "#" u1) as [u2 frag] eqn:Hfrag.
  destruct (cut "?" u2) as [pth qry] eqn:Hqry.
  intros [= <-]. simpl.
  destruct (cut_shape (fun _ => true) (fun _ => true) _ _ _ _ Hfrag
              (forall_chars_true _) (head_ok_any _)) as (_ & _ & Hu2 & _).
  destruct (cut_shape _ (fun _ => true) _ _ _ _ Hqry Hu2 (head_ok_any _))
    as (Hp & Hq & _).
  done.
Qed.

Lemma splitparams_parts (q : ascii → bool) url p prm :
  _splitparams url = (p, prm) → Py.forall_chars q url = true →
  Py.forall_chars q p = true ∧ Py.forall_chars q prm = true.
Proof.
  unfold _splitparams. destruct (rsplit_slash url) as [dir seg] eqn:Hdir.
  apply rsplit_slash_eq in Hdir.
  destruct (Py.split1 ";" seg) as [[l r]|] eqn:Hseg.
  - intros [= <- <-] Hurl. rewrite Hdir, forall_chars_app in Hurl.
    apply andb_true_iff in Hurl as [Hd Hs].
    destruct (split1_forall q _ _ _ _ Hs Hseg) as [Hl Hr].
    by rewrite forall_chars_app, Hd, Hl.
  - by intros [= <- <-] Hurl.
Qed.

Lemma urlparse_no_hash x c :
  urlparse x = Some c →
  Py.forall_chars (fun a => negb (bool_decide (a = "#"%char))) (scheme c) = true
  ∧ Py.forall_chars (fun a => negb (bool_decide (a = "#"%char))) (netloc c) = true
  ∧ Py.forall_chars (fun a => negb (bool_decide (a = "#"%char))) (path c) = true
  ∧ Py.forall_chars (fun a => negb (bool_decide (a = "#"%char))) (params c) = true
  ∧ Py.forall_chars (fun a => negb (bool_decide (a = "#"%char))) (query c) = true.
Proof.
  unfold urlparse. destruct (urlsplit x) as [r|] eqn:Hsplit; [|done].
  destruct (urlsplit_no_hash _ _ Hsplit) as (Hs & Hn & Hp & Hq).
  destruct (bool_decide (s_scheme r ∈ uses_params) && Py.contains ";" (s_path r)).
  - destruct (_splitparams (s_path r)) as [p prm] eqn:Hprm.
    intros [= <-]. simpl.
    by destruct (splitparams_parts _ _ _ _ Hprm Hp).
  - by intros [= <-].
Qed.

Lemma urlunparse_no_hash c :
  Py.forall_chars (fun a => negb (bool_decide (a = "#"%char))) (scheme c) = true →
  Py.forall_chars (fun a => negb (bool_decide (a = "#"%char))) (netloc c) = true →
  Py.forall_chars (fun a => negb (bool_decide (a = "#"%char))) (path c) = true →
  Py.forall_chars (fun a => negb (bool_decide (a = "#"%char))) (params c) = true →
  Py.forall_chars (fun a => negb (bool_decide (a = "#"%char))) (query c) = true →
  fragment c = "" →
  Py.forall_chars (fun a => negb (bool_decide (a = "#"%char))) (urlunparse c) = true.
Proof.
  intros Hs Hn Hp Hpa Hq Hf. unfold urlunparse, urlunsplit.
  cbn [s_scheme s_netloc s_path s_query s_fragment]. rewrite Hf.
  cbn [Py.truthy].
  repeat match goal with |- context [if ?b then _ else _] => destruct b end;
    rewrite ?forall_chars_app, ?Hs, ?Hn, ?Hp, ?Hpa, ?Hq; done.
Qed.


Lemma normalize_valid_no_hash self u :
  _is_valid_url self (_normalize_url u) = true →
  Py.contains "#" (_normalize_url u) = false.
Proof.
  unfold _normalize_url. destruct (urlparse u) as [c|] eqn:Hparse.
  - intros _. destruct (urlparse_no_hash _ _ Hparse) as (Hs & Hn & Hp & Hpa & Hq).
    eapply (forall_not_contains (fun a => negb (bool_decide (a = "#"%char)))); [done|].
    apply urlunparse_no_hash; simpl; try done.
    eapply forall_chars_lower; [|exact Hn]. apply lower_char_hash.
  - unfold _is_valid_url. by rewrite Hparse.
Qed.

Lemma existsb_false {A} (f : A → bool) (l : list A) :
  existsb f l = false ↔ ∀ x, x ∈ l → f x = false.
Proof.
  induction l as [|a l IH]; simpl.
  - split; [|done]. intros _ x Hx. by apply elem_of_nil in Hx.
  - rewrite orb_false_iff, IH. split.
    + intros [Ha Hl] x [->|Hx]%elem_of_cons; auto.
    + intros Hall. split; [apply Hall; by left|].
      intros x Hx. apply Hall. by right.
Qed.

Lemma existsb_true {A} (f : A → bool) (l : list A) :
  existsb f l = true ↔ ∃ x, x ∈ l ∧ f x = true.
Proof.
  rewrite existsb_exists. split; intros (x & Hx & Hf); exists x;
    (split; [by apply list_elem_of_In|done]).
Qed.

(** X21. What [_is_valid_url] accepts. An accepted URL parses, has scheme
    http or https and a host; no blocked domain occurs in the lower-cased
    host; some allowed domain occurs in it when there are allowed domains;
    and the lower-cased path ends with none of the skipped extensions.
    Blocked wins over allowed, the domain tests are substring tests, so
    that an empty blocked domain refuses every URL, and a URL that
    [urlparse] refuses is not valid. *)
Theorem is_valid_url_spec self u :
  (_is_valid_url self u = true →
     ∃ c, urlparse u = Some c
       ∧ scheme c ∈ ["http"; "https"]
       ∧ netloc c ≠ ""
       ∧ (∀ b, b ∈ blocked_domains self →
               Fetcher.is_substring b (Py.lower (netloc c)) = false)
       ∧ (allowed_domains self = []
          ∨ ∃ a, a ∈ allowed_domains self
                 ∧ Fetcher.is_substring a (Py.lower (netloc c)) = true)
       ∧ (∀ ext, ext ∈ skip_extensions →
                 endswith ext (Py.lower (path c)) = false))
  ∧ (∀ c b, urlparse u = Some c → b ∈ blocked_domains self →
            Fetcher.is_substring b (Py.lower (netloc c)) = true →
            _is_valid_url self u = false)
  ∧ ("" ∈ blocked_domains self → _is_valid_url self u = false)
  ∧ (urlparse u = None → _is_valid_url self u = false).
Proof.
  unfold _is_valid_url. split; [|split; [|split]].
  - destruct (urlparse u) as [c|]; [|done].
    destruct (Py.truthy (scheme c)) eqn:Hs; [|done].
    destruct (Py.truthy (netloc c)) eqn:Hn; [|done]. cbn [negb orb].
    case_bool_decide as Hscheme; [|done]. cbn [negb].
    destruct (existsb _ (blocked_domains self)) eqn:Hb; [done|].
    destruct (match allowed_domains self with [] => false | _ => _ end) eqn:Ha;
      [done|].
    intros Hext%negb_true_iff. exists c. split; [done|]. split; [done|].
    split; [by apply truthy_true|]. split; [by apply existsb_false|].
    split; [|by apply existsb_false].
    destruct (allowed_domains self) as [|a0 l] eqn:Hal; [by left|]. right.
    apply negb_false_iff in Ha. by apply existsb_true in Ha.
  - intros c b -> Hin Hsub.
    destruct (negb _ || negb _); [done|]. destruct (negb _); [done|].
    assert (Hb : existsb (fun blocked_domain =>
                            Fetcher.is_substring blocked_domain (Py.lower (netloc c)))
                         (blocked_domains self) = true)
      by (apply existsb_true; eauto).
    by rewrite Hb.
  - intros Hin. destruct (urlparse u) as [c|]; [|done].
    destruct (negb _ || negb _); [done|]. destruct (negb _); [done|].
    assert (Hb : existsb (fun blocked_domain =>
                            Fetcher.is_substring blocked_domain (Py.lower (netloc c)))
                         (blocked_domains self) = true).
    { apply existsb_true. exists "". split; [done|].
      by destruct (Py.lower (netloc c)). }
    by rewrite Hb.
  - by intros ->.
Qed.

(** *** Links and images *)

Lemma link_urls_elem self base hrefs links :
  link_urls self base hrefs = Some links →
  ∀ l, l ∈ links →
    _is_valid_url self l = true
    ∧ ∃ href absolute,
        href ∈ hrefs ∧ strip href ≠ "" ∧ Py.startswith "#" (strip href) = false
        ∧ urljoin base (strip href) = Some absolute
        ∧ l = _normalize_url absolute.
Proof.
  revert links. induction hrefs as [|href hrefs IH]; intros links; simpl.
  - intros [= <-] l Hl. by apply elem_of_nil in Hl.
  - destruct (negb (Py.truthy (strip href)) || Py.startswith "#" (strip href))
      eqn:Hskip.
    + intros Hrest l Hl. destruct (IH _ Hrest l Hl) as (Hv & h & a & Hin & Hrest').
      split; [done|]. exists h, a. split; [by right|done].
    + apply orb_false_iff in Hskip as [Hne%negb_false_iff%truthy_true Hhash].
      destruct (urljoin base (strip href)) as [absolute|] eqn:Hjoin; [|done].
      destruct (link_urls self base hrefs) as [rest|]; [|done].
      intros [= <-] l Hl.
      assert (Hold : l ∈ rest →
        _is_valid_url self l = true
        ∧ ∃ href0 absolute0,
            href0 ∈ href :: hrefs ∧ strip href0 ≠ ""
            ∧ Py.startswith "#" (strip href0) = false
            ∧ urljoin base (strip href0) = Some absolute0
            ∧ l = _normalize_url absolute0).
      { intros Hin. destruct (IH rest eq_refl l Hin) as (Hv & h & a & Hh & Hrest').
        split; [done|]. exists h, a. split; [by right|done]. }
      destruct (_is_valid_url self (_normalize_url absolute)) eqn:Hvalid;
        [|by apply Hold].
      apply elem_of_cons in Hl as [->|Hl]; [|by apply Hold].
      split; [done|]. exists href, absolute. split; [by left|done].
Qed.

Lemma image_urls_elem self base srcs images :
  image_urls self base srcs = Some images →
  ∀ l, l ∈ images →
    _is_valid_url self l = true
    ∧ ∃ absolute, l = _normalize_url absolute.
Proof.
  revert images. induction srcs as [|src srcs IH]; intros images; simpl.
  - intros [= <-] l Hl. by apply elem_of_nil in Hl.
  - destruct (Py.truthy (strip src)); [|apply IH].
    destruct (urljoin base (strip src)) as [absolute|]; [|done].
    destruct (image_urls self base srcs) as [rest|]; [|done].
    intros [= <-] l Hl.
    destruct (_is_valid_url self (_normalize_url absolute)) eqn:Hvalid;
      [|by apply (IH rest)].
    apply elem_of_cons in Hl as [->|Hl]; [|by apply (IH rest)].
    split; [done|]. by exists absolute.
Qed.

(** X20. The links of a page. When [_extract_links] returns, its links are
    distinct, each is the normalized absolute URL of an anchor whose
    stripped [href] is neither empty nor a fragment reference, each passes
    [_is_valid_url] and none contains a [#]; so [get_outbound_links] of the
    same parser keeps them all. The images that [_extract_images]
    returns are distinct, valid and free of [#] as well. *)
Theorem extracted_links_valid self base :
  (∀ hrefs links,
     _extract_links self base hrefs = Some links →
     NoDup links
     ∧ (∀ l, l ∈ links →
          _is_valid_url self l = true
          ∧ Py.contains "#" l = false
          ∧ ∃ href absolute,
              href ∈ hrefs ∧ strip href ≠ "" ∧ Py.startswith "#" (strip href) = false
              ∧ urljoin base (strip href) = Some absolute
              ∧ l = _normalize_url absolute)
     ∧ (∀ p, Parser.links p = links → get_outbound_links self p = links))
  ∧ (∀ srcs images,
       _extract_images self base srcs = Some images →
       NoDup images
       ∧ ∀ l, l ∈ images →
           _is_valid_url self l = true ∧ Py.contains "#" l = false).
Proof.
  split.
  - intros hrefs links. unfold _extract_links.
    destruct (link_urls self base hrefs) as [found|] eqn:Hfound; [|done].
    intros [= <-].
    assert (Hall : ∀ l, l ∈ elements (list_to_set found : gset string) →
      _is_valid_url self l = true
      ∧ Py.contains "#" l = false
      ∧ ∃ href absolute,
          href ∈ hrefs ∧ strip href ≠ "" ∧ Py.startswith "#" (strip href) = false
          ∧ urljoin base (strip href) = Some absolute
          ∧ l = _normalize_url absolute).
    { intros l Hl%elem_of_elements%elem_of_list_to_set.
      destruct (link_urls_elem _ _ _ _ Hfound l Hl) as (Hv & h & a & Hrest).
      split; [done|]. split; [|by exists h, a].
      destruct Hrest as (_ & _ & _ & _ & ->). by apply (normalize_valid_no_hash self). }
    split; [apply NoDup_elements|]. split; [exact Hall|].
    intros p Hp. unfold get_outbound_links. rewrite Hp. apply filter_all.
    apply Forall_forall. intros l Hl. by apply Hall.
  - intros srcs images. unfold _extract_images.
    destruct (image_urls self base srcs) as [found|] eqn:Hfound; [|done].
    intros [= <-]. split; [apply NoDup_elements|].
    intros l Hl%elem_of_elements%elem_of_list_to_set.
    destruct (image_urls_elem _ _ _ _ Hfound l Hl) as (Hv & a & ->).
    split; [done|]. by apply (normalize_valid_no_hash self).
Qed.

End ParserFacts.

Section ParserExamples.
Import Urllib ContentParser.
Local Existing Instance Ex.hosts.
Local Existing Instance ExParser.joined.

Lemma extracted_links_valid_witness :
  _extract_links ExParser.site "https://a.example" ExParser.anchors
  = Some ["https://a.example/docs"]
  ∧ NoDup ["https://a.example/docs"]
  ∧ _is_valid_url ExParser.site "https://a.example/docs" = true
  ∧ Py.contains "#" "https://a.example/docs" = false.
Proof.
  assert (Hlinks : _extract_links ExParser.site "https://a.example" ExParser.anchors
                   = Some ["https://a.example/docs"]) by (vm_compute; reflexivity).
  split; [exact Hlinks|].
  destruct (proj1 (extracted_links_valid ExParser.site "https://a.example")
              ExParser.anchors _ Hlinks) as (Hnd & Hall & _).
  split; [exact Hnd|].
  destruct (Hall "https://a.example/docs") as (Hv & Hh & _); [by left|].
  split; [exact Hv|exact Hh].
Defined.

Lemma is_valid_url_spec_witness :
  _is_valid_url ExParser.site "https://a.example/docs" = true
  ∧ ∃ c, urlparse "https://a.example/docs" = Some c
      ∧ scheme c ∈ ["http"; "https"]
      ∧ netloc c ≠ "".
Proof.
  assert (Hv : _is_valid_url ExParser.site "https://a.example/docs" = true)
    by (vm_compute; reflexivity).
  split; [exact Hv|].
  destruct (proj1 (is_valid_url_spec ExParser.site "https://a.example/docs") Hv)
    as (c & Hc & Hs & Hn & _).
  exists c. split; [exact Hc|]. split; [exact Hs|exact Hn].
Defined.

End ParserExamples.

(** ** Configuration and the start of a crawl *)

Section ConfigFacts.
Import Config.



End ConfigFacts.

Section StartupFacts.
Import Scheduler Worker Startup.
Context `{Fetcher.PyLib} `{Dedup.PyLib} `{Urllib.BracketedHosts}.

Lemma add_seed_urls_frontier s now seeds :
  url_frontier (add_seed_urls s now seeds)
  = (Frontier.add_urls (url_frontier s) (map (seed_task now) seeds)).2.
Proof.
  unfold add_seed_urls. revert s.
  induction seeds as [|u seeds IH]; intros s; simpl; [done|].
  rewrite IH. simpl. fold (seed_task now u).
  destruct (Frontier.add_url (url_frontier s) (seed_task now u)) as [added f1].
  simpl. by destruct (Frontier.add_urls f1 _).
Qed.

Lemma add_urls_processed f tasks :
  Frontier.processed_urls (Frontier.add_urls f tasks).2 = Frontier.processed_urls f.
Proof.
  revert f. induction tasks as [|t tasks IH]; intros f; simpl; [done|].
  destruct (add_url_fields f t) as (_ & _ & Hp & _).
  destruct (Frontier.add_url f t) as [added f1]. simpl in Hp.
  specialize (IH f1). destruct (Frontier.add_urls f1 tasks). simpl in *.
  by rewrite IH.
Qed.

Lemma add_urls_member f tasks d t :
  t ∈ Frontier.queue_of d (Frontier.domain_queues (Frontier.add_urls f tasks).2) →
  (t ∈ tasks ∧ Task.url t ∉ Frontier.processed_urls f)
  ∨ t ∈ Frontier.queue_of d (Frontier.domain_queues f).
Proof.
  revert f. induction tasks as [|a tasks IH]; intros f; simpl; [by right|].
  destruct (add_url_fields f a) as (_ & _ & Hp & Hq).
  destruct (Frontier.add_url f a) as [added f1]. simpl in Hp, Hq.
  specialize (IH f1). destruct (Frontier.add_urls f1 tasks) as [n f2]. simpl in *.
  intros [[Hin Hnp]|Hin]%IH.
  - left. split; [by right|by rewrite <- Hp].
  - rewrite Hq in Hin. case_bool_decide as Hproc; [by right|].
    destruct (decide (d = Frontier._get_domain (Task.url a))) as [->|Hne].
    + rewrite queue_of_append_eq in Hin.
      apply elem_of_app in Hin as [?| ->%list_elem_of_singleton]; [by right|].
      left. split; [by left|done].
    + rewrite queue_of_append_ne in Hin by done. by right.
Qed.

Lemma add_url_keeps f a d t :
  t ∈ Frontier.queue_of d (Frontier.domain_queues f) →
  t ∈ Frontier.queue_of d (Frontier.domain_queues (Frontier.add_url f a).2).
Proof.
  destruct (add_url_fields f a) as (_ & _ & _ & ->).
  case_bool_decide; [done|]. intros Hin.
  destruct (decide (d = Frontier._get_domain (Task.url a))) as [->|Hne].
  - rewrite queue_of_append_eq. apply elem_of_app. by left.
  - by rewrite queue_of_append_ne.
Qed.

Lemma add_urls_keeps f tasks d t :
  t ∈ Frontier.queue_of d (Frontier.domain_queues f) →
  t ∈ Frontier.queue_of d (Frontier.domain_queues (Frontier.add_urls f tasks).2).
Proof.
  revert f. induction tasks as [|a tasks IH]; intros f Hin; simpl; [done|].
  pose proof (add_url_keeps f a d t Hin) as Hk.
  destruct (Frontier.add_url f a) as [added f1]. simpl in Hk.
  specialize (IH f1 Hk). by destruct (Frontier.add_urls f1 tasks).
Qed.

Lemma add_urls_queued f tasks t :
  t ∈ tasks → Task.url t ∉ Frontier.processed_urls f →
  t ∈ Frontier.queue_of (Frontier._get_domain (Task.url t))
        (Frontier.domain_queues (Frontier.add_urls f tasks).2).
Proof.
  revert f. induction tasks as [|a tasks IH]; intros f Hin Hnp; simpl.
  - by apply elem_of_nil in Hin.
  - destruct (add_url_fields f a) as (_ & _ & Hp & Hq).
    pose proof (add_urls_keeps (Frontier.add_url f a).2 tasks
                  (Frontier._get_domain (Task.url t)) t) as Hk.
    destruct (Frontier.add_url f a) as [added f1]. simpl in Hp, Hq, Hk.
    specialize (IH f1).
    destruct (Frontier.add_urls f1 tasks) as [n f2]. simpl in *.
    apply elem_of_cons in Hin as [->|Hin].
    + apply Hk. rewrite Hq, bool_decide_eq_false_2 by done.
      rewrite queue_of_append_eq. apply elem_of_app. right. by left.
    + apply IH; [done|by rewrite Hp].
Qed.

Lemma add_urls_all_processed f tasks :
  Forall (fun t => Task.url t ∈ Frontier.processed_urls f) tasks →
  (Frontier.add_urls f tasks).2 = f.
Proof.
  revert f. induction tasks as [|t tasks IH]; intros f Hall; simpl; [done|].
  apply Forall_cons in Hall as [Ht Hall].
  destruct (add_url_cases f t) as [Hsame _]. rewrite (Hsame Ht).
  specialize (IH f Hall). by destruct (Frontier.add_urls f tasks).
Qed.

Lemma is_empty_queue_of f d :
  Frontier.is_empty f = true → Frontier.queue_of d (Frontier.domain_queues f) = [].
Proof.
  unfold Frontier.is_empty.
  induction (Frontier.domain_queues f) as [|[d' q] qs IH]; simpl; [done|].
  intros [Hq%bool_decide_eq_true Hqs]%andb_true_iff. simpl in Hq.
  destruct (decide (d' = d)); [done|]. by apply IH.
Qed.

Lemma queue_of_nonempty_not_empty f d t :
  t ∈ Frontier.queue_of d (Frontier.domain_queues f) → Frontier.is_empty f = false.
Proof.
  intros Hin. destruct (Frontier.is_empty f) eqn:He; [|done].
  rewrite (is_empty_queue_of f d He) in Hin. by apply elem_of_nil in Hin.
Qed.

(** X23. [start_crawling] seeds the frontier only when it is empty: a
    frontier that holds tasks, such as one reloaded from the store, is
    left as it is. On an empty frontier every seed URL that is not
    processed is queued under its host, also when the store fails, and
    everything queued is such a seed at depth 0 with priority HIGH. When
    every seed is processed already the frontier stays empty and
    [get_next_url] hands out nothing. *)
Theorem seed_if_empty_spec s now seeds :
  let s' := seed_if_empty s now seeds in
  let f := url_frontier s in
  let f' := url_frontier s' in
  (Frontier.is_empty f = false → s' = s)
  ∧ (Frontier.is_empty f = true →
     (∀ d t, t ∈ Frontier.queue_of d (Frontier.domain_queues f') →
        Task.depth t = 0 ∧ Task.priority t = Task.HIGH
        ∧ Task.url t ∈ seeds ∧ Task.url t ∉ Frontier.processed_urls f)
     ∧ (∀ u, u ∈ seeds → u ∉ Frontier.processed_urls f →
        seed_task now u
          ∈ Frontier.queue_of (Frontier._get_domain u) (Frontier.domain_queues f')
        ∧ Frontier.is_empty f' = false)
     ∧ (Forall (fun u => u ∈ Frontier.processed_urls f) seeds →
        f' = f ∧ ∀ t, Frontier.get_next_url f' t = (None, f'))).
Proof.
  intros s' f f'. subst s' f f'. unfold seed_if_empty.
  destruct (Frontier.is_empty (url_frontier s)) eqn:He; split; try done.
  intros _. rewrite add_seed_urls_frontier. split; [|split].
  - intros d t [[Hin Hnp]|Hin]%add_urls_member.
    + apply list_elem_of_fmap in Hin as (u & -> & Hu). by repeat split.
    + rewrite (is_empty_queue_of _ d He) in Hin. by apply elem_of_nil in Hin.
  - intros u Hu Hnp.
    assert (Hq : seed_task now u
      ∈ Frontier.queue_of (Frontier._get_domain u)
          (Frontier.domain_queues
             (Frontier.add_urls (url_frontier s) (map (seed_task now) seeds)).2)).
    { apply (add_urls_queued (url_frontier s) (map (seed_task now) seeds)
               (seed_task now u)); [|done].
      apply list_elem_of_fmap. by exists u. }
    split; [exact Hq|]. by eapply queue_of_nonempty_not_empty.
  - intros Hall. rewrite add_urls_all_processed.
    + split; [done|]. intros t. unfold Frontier.get_next_url.
      by rewrite available_domains_empty.
    + apply Forall_forall. intros t (u & -> & Hu)%list_elem_of_fmap. simpl.
      by apply (proj1 (Forall_forall _ _) Hall).
Qed.

End StartupFacts.


Section StartupExamples.
Import Scheduler Worker Startup.
Local Existing Instance Ex.hosts.
Local Existing Instance Ex.fetch_lib.
Local Existing Instance Ex.dedup_lib.


Lemma seed_if_empty_spec_witness :
  let seeds := ["https://a.example/"; "https://a.example/x"] in
  let s' := seed_if_empty Ex.crawler 0 seeds in
  Frontier.is_empty (url_frontier Ex.crawler) = true
  ∧ seed_task 0 "https://a.example/x"
      ∈ Frontier.queue_of (Frontier._get_domain "https://a.example/x")
          (Frontier.domain_queues (url_frontier s'))
  ∧ Frontier.is_empty (url_frontier s') = false.
Proof.
  intros seeds s'.
  assert (He : Frontier.is_empty (url_frontier Ex.crawler) = true)
    by (vm_compute; reflexivity).
  destruct (seed_if_empty_spec Ex.crawler 0 seeds) as (_ & Hseed).
  destruct (Hseed He) as (_ & Hqueued & _).
  split; [exact He|].
  apply (Hqueued "https://a.example/x").
  - apply list_elem_of_In. simpl. tauto.
  - apply not_elem_of_empty.
Defined.

End StartupExamples.
